(** * openapi-mcp-generator: the tool compiler and the generated call handler

    A shallow embedding of [generator.ts] (schema translation, input-contract
    assembly, tool extraction, base-URL resolution) and of the request handler
    text that [generateMcpServerCode] / [generateCallTool] emit, followed by
    the properties the specification states about them. *)

From Stdlib Require Import ZArith Lia Ascii.
From stdpp Require Import base option list strings pretty gmap.

Local Open Scope string_scope.
Local Open Scope nat_scope.
Local Open Scope list_scope.

#[local] Set Warnings "-register-all,-clear-no-such-hyp".

(** ** JavaScript values

    Schemas, tool arguments and response bodies are JSON-like values.  A
    plain object is the list of its own enumerable properties, each key once,
    in the order [Object.entries] lists them (no statement below depends on
    that order).  Numbers are only tested for being zero, so integers stand
    for them.  None of the functions below compares object identities, so an
    object stands for its contents; [VRef a] names the object stored at
    address [a] of a heap and exists only so that documents whose schemas
    contain themselves (the output of a dereferencing loader) can be written
    down. *)

Inductive value : Type :=
  | VUndef
  | VNull
  | VBool (b : bool)
  | VNum (n : Z)
  | VStr (s : string)
  | VArr (elems : list value)
  | VObj (props : list (string * value))
  | VRef (a : nat).

Abbreviation obj := (list (string * value)).
Definition heap : Type := nat → obj.

Definition emptyHeap : heap := λ _, [].

(** [o.k] when [k] is an own property. *)
Fixpoint own (o : obj) (k : string) : option value :=
  match o with
  | [] => None
  | (k', v) :: o' => if decide (k' = k) then Some v else own o' k
  end.

(** Property read [o[k]]: [undefined] when the key is missing. *)
Definition js_get (o : obj) (k : string) : value := default VUndef (own o k).

(** [k in o] for the keys used below, none of which [Object.prototype] has. *)
Definition has_key (k : string) (o : obj) : bool := bool_decide (is_Some (own o k)).

Fixpoint upsert (o : obj) (k : string) (v : value) : obj :=
  match o with
  | [] => [(k, v)]
  | (k', v') :: o' => if decide (k' = k) then (k, v) :: o' else (k', v') :: upsert o' k v
  end.

(** Assignment [o[k] = v] on a plain object.  The key ["__proto__"] is the
    accessor inherited from [Object.prototype]: unless the object already has
    an own property of that name (as objects built by [JSON.parse] or by a
    spread of one may), the assignment goes to the setter, which replaces the
    prototype and adds no own property. *)
Definition js_set (o : obj) (k : string) (v : value) : obj :=
  if decide (k = "__proto__") then (if has_key k o then upsert o k v else o)
  else upsert o k v.

(** [delete o[k]]. *)
Definition js_delete (o : obj) (k : string) : obj :=
  filter (λ kv, kv.1 ≠ k) o.

(** ToBoolean. *)
Definition truthy (v : value) : bool :=
  match v with
  | VUndef | VNull => false
  | VBool b => b
  | VNum n => negb (n =? 0)%Z
  | VStr s => negb (bool_decide (s = ""))
  | VArr _ | VObj _ | VRef _ => true
  end.

(** [v === s] for a string literal [s]. *)
Definition is_str (v : value) (s : string) : bool :=
  match v with
  | VStr t => bool_decide (t = s)
  | _ => false
  end.

(** Own enumerable properties of an array: its indices. *)
Definition indexed (elems : list value) : obj :=
  imap (λ i v, (pretty i, v)) elems.

Fixpoint chars (s : string) : list value :=
  match s with
  | EmptyString => []
  | String c s' => VStr (String c EmptyString) :: chars s'
  end.

(** [typeof v === 'object' && v !== null], with the own properties of [v]. *)
Definition as_object (h : heap) (v : value) : option obj :=
  match v with
  | VObj o => Some o
  | VArr elems => Some (indexed elems)
  | VRef a => Some (h a)
  | _ => None
  end.

(** [Object.entries(v)] for a truthy [v]. *)
Definition Object_entries (h : heap) (v : value) : obj :=
  match v with
  | VStr s => indexed (chars s)
  | _ => default [] (as_object h v)
  end.

(** ** Schema translation: [mapOpenApiSchemaToJsonSchema] *)

Section Translator.

(** ECMAScript ToString on a value that is not a string (template literals
    and [String(v)]). *)
Variable ToString : value → string.

Definition js_String (v : value) : string :=
  match v with
  | VStr s => s
  | _ => ToString v
  end.

Definition presentationOnly : list string :=
  ["example"; "xml"; "externalDocs"; "deprecated"; "readOnly"; "writeOnly"].

(** [{ type: 'object', description: `Unresolved: ${schema.$ref}` }] *)
Definition unresolved (schema : obj) : value :=
  VObj [("type", VStr "object");
        ("description", VStr ("Unresolved: " +:+ js_String (js_get schema "$ref")))].

(** [if (schema.type === 'integer') jsonSchema.type = 'number';] *)
Definition coerceInteger (schema jsonSchema : obj) : obj :=
  if is_str (js_get schema "type") "integer"
  then js_set jsonSchema "type" (VStr "number")
  else jsonSchema.

(** The seven [delete] statements. *)
Definition deleteOpenApiKeys (jsonSchema : obj) : obj :=
  foldl js_delete jsonSchema ("nullable" :: presentationOnly).

(** [if (schema.nullable) { ... }]: the copy as it is afterwards.  In the
    first branch [push] appends to the array that the copy holds, which is
    the one the input holds; that write to the input is spelled out with
    [pushes] below, and the statements that compare one translated node with
    another are made of documents on which it does not happen. *)
Definition applyNullable (schema jsonSchema : obj) : obj :=
  if truthy (js_get schema "nullable") then
    match js_get jsonSchema "type" with
    | VArr ts =>
        if existsb (λ t, is_str t "null") ts then jsonSchema
        else js_set jsonSchema "type" (VArr (ts ++ [VStr "null"]))
    | VStr t => js_set jsonSchema "type" (VArr [VStr t; VStr "null"])
    | t => if truthy t then jsonSchema else js_set jsonSchema "type" (VStr "null")
    end
  else jsonSchema.

(** The copy [{ ...schema }] after the statements that precede the two
    recursive steps. *)
Definition prepared (schema : obj) : obj :=
  let jsonSchema := schema in
  let jsonSchema := coerceInteger schema jsonSchema in
  let jsonSchema := deleteOpenApiKeys jsonSchema in
  applyNullable schema jsonSchema.

(** One round of the [for ... of Object.entries(jsonSchema.properties)] loop;
    [translate] is the recursive call. *)
Definition mapProperty (translate : obj → option value) (h : heap)
    (mappedProps : option obj) (entry : string * value) : option obj :=
  mp ← mappedProps;
  match as_object h entry.2 with
  | Some propSchema => r ← translate propSchema; Some (js_set mp entry.1 r)
  | None =>
      match entry.2 with
      | VBool b => Some (js_set mp entry.1 (VBool b))
      | _ => Some mp
      end
  end.

Definition mapProperties (translate : obj → option value) (h : heap)
    (entries : obj) : option obj :=
  foldl (mapProperty translate h) (Some []) entries.

(** [stack] bounds the depth of nested calls; [None] is the engine's
    [RangeError: Maximum call stack size exceeded].  The parameter is an
    object, as its type says; the [typeof schema === 'boolean'] test sits
    behind the [in] test, which throws on a primitive, and every recursive
    call is made on an object. *)
Fixpoint mapOpenApiSchemaToJsonSchema (stack : nat) (h : heap) (schema : obj)
    : option value :=
  match stack with
  | 0 => None
  | S stack =>
      if has_key "$ref" schema then Some (unresolved schema)
      else
        let jsonSchema := prepared schema in
        jsonSchema ←
          (if is_str (js_get jsonSchema "type") "object"
              && truthy (js_get jsonSchema "properties")
           then
             mappedProps ←
               mapProperties (mapOpenApiSchemaToJsonSchema stack h) h
                 (Object_entries h (js_get jsonSchema "properties"));
             Some (js_set jsonSchema "properties" (VObj mappedProps))
           else Some jsonSchema);
        if is_str (js_get jsonSchema "type") "array" then
          match as_object h (js_get jsonSchema "items") with
          | Some items =>
              r ← mapOpenApiSchemaToJsonSchema stack h items;
              Some (VObj (js_set jsonSchema "items" r))
          | None => Some (VObj jsonSchema)
          end
        else Some (VObj jsonSchema)
  end.

(** The call returns [r] once the stack allows [n] nested calls. *)
Definition returns (h : heap) (schema : obj) (r : value) : Prop :=
  ∃ n, ∀ stack, n ≤ stack → mapOpenApiSchemaToJsonSchema stack h schema = Some r.

(** The call exhausts every stack. *)
Definition overflows (h : heap) (schema : obj) : Prop :=
  ∀ stack, mapOpenApiSchemaToJsonSchema stack h schema = None.

End Translator.

(** ** Sample schemas *)

Definition noToString : value → string := λ _, "".

(** [{ type: 'integer', nullable: true }] *)
Definition sIntegerNullable : obj :=
  [("type", VStr "integer"); ("nullable", VBool true)].

(** [{ properties: { a: { type: 'string', example: 'x' } } }], no [type]. *)
Definition sUntyped : obj :=
  [("properties", VObj [("a", VObj [("type", VStr "string"); ("example", VStr "x")])])].

(** [{ type: 'object', nullable: true,
       properties: { a: { type: 'string', example: 'x' } } }] *)
Definition sNullableObject : obj :=
  [("type", VStr "object"); ("nullable", VBool true);
   ("properties", VObj [("a", VObj [("type", VStr "string"); ("example", VStr "x")])])].

(** [{ type: 'object', readOnly: true,
       properties: { n: { type: 'integer', example: 1 } } }] *)
Definition sPlainObject : obj :=
  [("type", VStr "object"); ("readOnly", VBool true);
   ("properties", VObj [("n", VObj [("type", VStr "integer"); ("example", VNum 1)])])].

(** [const s = { type: 'object', properties: {} }; s.properties.self = s;] *)
Definition selfHeap : heap :=
  λ _, [("type", VStr "object"); ("properties", VObj [("self", VRef 0)])].

(** Two objects that hold each other: [a.properties.b = b],
    [b.properties.a = a]. *)
Definition mutualHeap : heap :=
  λ a, match a with
       | 0 => [("type", VStr "object"); ("properties", VObj [("b", VRef 1)])]
       | _ => [("type", VStr "object"); ("properties", VObj [("a", VRef 0)])]
       end.

(** [const l = { type: 'array' }; l.items = l;] *)
Definition listHeap : heap := λ _, [("type", VStr "array"); ("items", VRef 0)].


(** ** The API description (the fields of [OpenAPIV3.Document] that are read) *)

Record MediaTypeObject := { media_schema : option obj }.

Record RequestBodyObject := {
  body_description : option string;
  body_content : option (list (string * MediaTypeObject));
  body_required : bool
}.

Record ParameterObject := {
  param_name : option string;
  param_in : option string;
  param_description : option string;
  param_required : bool;
  param_schema : option obj
}.

Record OperationObject := {
  op_operationId : option string;
  op_description : option string;
  op_summary : option string;
  op_parameters : option (list ParameterObject);
  op_requestBody : option RequestBodyObject
}.

(** A path item, read only through [pathItem[method]]. *)
Abbreviation PathItemObject := (list (string * OperationObject)).

Record ServerObject := { server_url : string }.

(** [paths] lists the entries of [api.paths] as [Object.entries] yields them:
    for keys that start with ['/'], as path templates do, in the order of
    their declaration. *)
Record Document := {
  servers : option (list ServerObject);
  paths : option (list (string * option PathItemObject))
}.

Record McpToolDefinition := {
  name : string;
  description : string;
  inputSchema : value;
  operationId : string;
  method : string;
  path : string;
  parameters : list ParameterObject;
  requestBody : option RequestBodyObject
}.

(** [m[k]] on a map of the description. *)
Fixpoint assoc {A} (m : list (string * A)) (k : string) : option A :=
  match m with
  | [] => None
  | (k', a) :: m' => if decide (k' = k) then Some a else assoc m' k
  end.

(** An optional string as a condition: missing and empty are both falsy. *)
Definition nonempty (s : option string) : option string :=
  match s with
  | Some s' => if decide (s' = "") then None else Some s'
  | None => None
  end.

Definition upper (c : ascii) : ascii :=
  let n := nat_of_ascii c in
  if (97 <=? n) && (n <=? 122) then ascii_of_nat (n - 32) else c.

Definition lower (c : ascii) : ascii :=
  let n := nat_of_ascii c in
  if (65 <=? n) && (n <=? 90) then ascii_of_nat (n + 32) else c.

Fixpoint map_string (f : ascii → ascii) (s : string) : string :=
  match s with
  | EmptyString => EmptyString
  | String c s' => String (f c) (map_string f s')
  end.

(** [toUpperCase] and [toLowerCase] on the ASCII letters. *)
Definition toUpperCase : string → string := map_string upper.
Definition toLowerCase : string → string := map_string lower.

(** [OpenAPIV3.HttpMethods] of the openapi-types package, in the order
    [Object.values] lists the members of the enum. *)
Definition HttpMethods : list string :=
  ["get"; "put"; "post"; "delete"; "options"; "head"; "patch"; "trace"].

(** [s.replace(/\/$/, '')] *)
Fixpoint stripTrailingSlash (s : string) : string :=
  match s with
  | EmptyString => EmptyString
  | String c s' =>
      if bool_decide (c = "/"%char) && bool_decide (s' = "") then EmptyString
      else String c (stripTrailingSlash s')
  end.

Definition determineBaseUrl (api : Document) (cmdLineBaseUrl : option string)
    : option string :=
  match nonempty cmdLineBaseUrl with
  | Some url => Some (stripTrailingSlash url)
  | None =>
      match servers api with
      | Some [server] =>
          if decide (server_url server = "") then None
          else Some (stripTrailingSlash (server_url server))
      | Some (server :: _ :: _) => Some (stripTrailingSlash (server_url server))
      | _ => None
      end
  end.

Section Compiler.

Variable ToString : value → string.

(** [generateOperationId] of [utils.ts]. *)
Variable generateOperationId : string → string → string.

(** [paramSchema.description = param.description || paramSchema.description] *)
Definition describeParameter (param : ParameterObject) (paramSchema : value) : value :=
  match paramSchema with
  | VObj o =>
      VObj (js_set o "description"
              (match nonempty (param_description param) with
               | Some d => VStr d
               | None => js_get o "description"
               end))
  | v => v
  end.

(** [bodySchema.description = opRequestBody.description
      || bodySchema.description || 'The JSON request body.'] *)
Definition describeBody (opRequestBody : RequestBodyObject) (bodySchema : value) : value :=
  match bodySchema with
  | VObj o =>
      VObj (js_set o "description"
              (match nonempty (body_description opRequestBody) with
               | Some d => VStr d
               | None =>
                   if truthy (js_get o "description") then js_get o "description"
                   else VStr "The JSON request body."
               end))
  | v => v
  end.

(** The body of [allParameters.forEach]; the state is [properties] and
    [required]. *)
Definition addParameter (stack : nat) (h : heap)
    (st : option (obj * list string)) (param : ParameterObject)
    : option (obj * list string) :=
  '(properties, required) ← st;
  match nonempty (param_name param), param_schema param with
  | Some pname, Some schema =>
      paramSchema ← mapOpenApiSchemaToJsonSchema ToString stack h schema;
      let paramSchema := describeParameter param paramSchema in
      let properties := js_set properties pname paramSchema in
      let required := if param_required param then required ++ [pname] else required in
      Some (properties, required)
  | _, _ => Some (properties, required)
  end.

(** [if (operation.requestBody) { ... }] *)
Definition addRequestBody (stack : nat) (h : heap)
    (st : obj * list string) (body : option RequestBodyObject)
    : option (obj * list string) :=
  let '(properties, required) := st in
  match body with
  | None => Some (properties, required)
  | Some opRequestBody =>
      let jsonContent := body_content opRequestBody ≫= λ c, assoc c "application/json" in
      match jsonContent ≫= media_schema with
      | Some schema =>
          bodySchema ← mapOpenApiSchemaToJsonSchema ToString stack h schema;
          let bodySchema := describeBody opRequestBody bodySchema in
          let properties := js_set properties "requestBody" bodySchema in
          let required :=
            if body_required opRequestBody then required ++ ["requestBody"] else required in
          Some (properties, required)
      | None =>
          match body_content opRequestBody with
          | Some ((contentType, _) :: _) =>
              let properties :=
                js_set properties "requestBody"
                  (VObj [("type", VStr "string");
                         ("description",
                          VStr (default ("Request body (content type: " +:+ contentType +:+ ")")
                                  (nonempty (body_description opRequestBody))))]) in
              let required :=
                if body_required opRequestBody then required ++ ["requestBody"] else required in
              Some (properties, required)
          | _ => Some (properties, required)
          end
      end
  end.

(** [{ type: 'object', properties, ...(required.length > 0 && { required }) }] *)
Definition objectSchema (properties : obj) (required : list string) : value :=
  VObj ([("type", VStr "object"); ("properties", VObj properties)]
        ++ match required with
           | [] => []
           | _ => [("required", VArr (VStr <$> required))]
           end).

(** The result is [{ inputSchema, parameters, requestBody }]; [None] when a
    schema translation exhausts the stack. *)
Definition generateInputSchema (stack : nat) (h : heap) (operation : OperationObject)
    : option (value * list ParameterObject * option RequestBodyObject) :=
  let allParameters := default [] (op_parameters operation) in
  st ← foldl (addParameter stack h) (Some ([], [])) allParameters;
  '(properties, required) ← addRequestBody stack h st (op_requestBody operation);
  Some (objectSchema properties required, allParameters, op_requestBody operation).

(** [while (usedNames.has(finalToolName)) finalToolName = `${baseName}_${counter++}`;]
    with [rounds] bounding the number of tests of the condition; the result
    is [finalToolName] when the loop ends. *)
Fixpoint resolveName (rounds : nat) (usedNames : gset string)
    (baseName finalToolName : string) (counter : nat) : option string :=
  match rounds with
  | 0 => None
  | S rounds =>
      if decide (finalToolName ∈ usedNames)
      then resolveName rounds usedNames baseName
             (baseName +:+ "_" +:+ pretty counter) (S counter)
      else Some finalToolName
  end.

(** The body of the inner [for] of [extractToolsFromApi]; the state is [tools]
    and [usedNames]. *)
Definition extractOperation (rounds stack : nat) (h : heap)
    (path : string) (pathItem : PathItemObject)
    (st : option (list McpToolDefinition * gset string)) (method : string)
    : option (list McpToolDefinition * gset string) :=
  '(tools, usedNames) ← st;
  match assoc pathItem method with
  | None => Some (tools, usedNames)
  | Some operation =>
      let baseName :=
        default (generateOperationId method path) (nonempty (op_operationId operation)) in
      if decide (baseName = "") then Some (tools, usedNames)
      else
        finalToolName ← resolveName rounds usedNames baseName baseName 1;
        let usedNames := {[finalToolName]} ∪ usedNames in
        let description :=
          default ("Executes " +:+ toUpperCase method +:+ " " +:+ path)
            (match nonempty (op_description operation) with
             | Some d => Some d
             | None => nonempty (op_summary operation)
             end) in
        '(inputSchema, parameters, requestBody) ← generateInputSchema stack h operation;
        Some (tools ++ [{| name := finalToolName; description := description;
                           inputSchema := inputSchema; operationId := baseName;
                           method := method; path := path;
                           parameters := parameters; requestBody := requestBody |}],
              usedNames)
  end.

(** The body of the outer [for]. *)
Definition extractPath (rounds stack : nat) (h : heap)
    (st : option (list McpToolDefinition * gset string))
    (entry : string * option PathItemObject)
    : option (list McpToolDefinition * gset string) :=
  match entry.2 with
  | None => st
  | Some pathItem =>
      foldl (extractOperation rounds stack h entry.1 pathItem) st HttpMethods
  end.

Definition extractToolsFromApi (rounds stack : nat) (h : heap) (api : Document)
    : option (list McpToolDefinition) :=
  match paths api with
  | None => Some []
  | Some entries =>
      fst <$> foldl (extractPath rounds stack h) (Some ([], ∅)) entries
  end.

End Compiler.

(** ** The generated server

    [generateMcpServerCode] and [generateCallTool] emit the text of a request
    handler.  What follows is that handler for one tool, with the pieces of
    text the generator fills in ([name], [rawPath], the parameter names, the
    base URL) taken from the tool definition.  The generator pastes them
    between quotes as they are; they are read here as the strings they
    denote when they hold no quote and no backslash. *)

Fixpoint starts_with (p s : string) : bool :=
  match p, s with
  | EmptyString, _ => true
  | String a p', String b s' => bool_decide (a = b) && starts_with p' s'
  | _, _ => false
  end.

(** [s.includes(needle)] *)
Fixpoint includes (needle s : string) : bool :=
  starts_with needle s
  || match s with
     | EmptyString => false
     | String _ s' => includes needle s'
     end.

Fixpoint drop_string (n : nat) (s : string) : string :=
  match n, s with
  | S n', String _ s' => drop_string n' s'
  | _, _ => s
  end.

Fixpoint take_string (n : nat) (s : string) : string :=
  match n, s with
  | S n', String c s' => String c (take_string n' s')
  | _, _ => EmptyString
  end.

(** [s.replace(pattern, replacement)] with a string pattern: the first
    occurrence only.  The replacement texts used below come out of
    [encodeURIComponent], which emits no ['$']. *)
Fixpoint replaceFirst (pattern replacement s : string) : string :=
  if starts_with pattern s
  then replacement +:+ drop_string (String.length pattern) s
  else match s with
       | EmptyString => EmptyString
       | String c s' => String c (replaceFirst pattern replacement s')
       end.

Record AxiosRequestConfig := {
  config_method : string;
  config_url : string;
  config_params : obj;
  config_headers : obj;
  config_data : option value
}.

Record AxiosResponse := {
  status : nat;
  statusText : string;
  response_headers : list (string * string);
  data : value
}.

Record AxiosError := {
  error_response : option AxiosResponse;
  error_request : bool;
  error_code : option string;
  error_message : string
}.

Record ZodIssue := {
  issue_path : list string;
  issue_code : string;
  issue_message : string
}.

(** What [parse] can throw: a [ZodError] with its issues, or something else. *)
Inductive parse_failure : Type :=
  | ZodError (errors : list ZodIssue)
  | NotZodError.

(** What the code after the validation can throw to the outer [catch]: an
    axios error, another [Error] with its message, or any other value. *)
Inductive thrown : Type :=
  | AxiosFailure (error : AxiosError)
  | Error (message : string)
  | Thrown (v : value).

(** The validators the handler can end up with: the open object schema
    [z.object({}).passthrough()], or whatever [eval] made of the text that
    [jsonSchemaToZod] produced. *)
Inductive ZodSchema : Type :=
  | ZPassthroughObject
  | ZEvaluated (parse : value → parse_failure + obj).

Definition zodTypeName (v : value) : string :=
  match v with
  | VUndef => "undefined"
  | VNull => "null"
  | VBool _ => "boolean"
  | VNum _ => "number"
  | VStr _ => "string"
  | VArr _ => "array"
  | VObj _ | VRef _ => "object"
  end.

(** [zodSchema.parse(v)].  The open object schema takes any plain object and
    hands it back with all its keys; anything else is an [invalid_type]
    issue at the root. *)
Definition zod_parse (zodSchema : ZodSchema) (v : value) : parse_failure + obj :=
  match zodSchema with
  | ZPassthroughObject =>
      match v with
      | VObj o => inr o
      | _ => inl (ZodError [{| issue_path := []; issue_code := "invalid_type";
                               issue_message := "Expected object, received " +:+ zodTypeName v |}])
      end
  | ZEvaluated parse => parse v
  end.

Section GeneratedServer.

Variable ToString : value → string.

(** [JSON.stringify(v)] and [JSON.stringify(v, null, 2)]; [None] when the call
    throws or yields no string. *)
Variable JSON_stringify : value → option string.
Variable JSON_stringify_pretty : value → option string.

(** [encodeURIComponent]; [None] is its [URIError]. *)
Variable encodeURIComponent : string → option string.

(** The member of [Object.prototype] of a given name ([undefined] for most
    names), which a read of a missing key of a plain object yields. *)
Variable Object_prototype : string → value.

(** [jsonSchemaToZod] of json-schema-to-zod; [None] when it throws. *)
Variable jsonSchemaToZod : value → option string.

(** [eval] of the text of a validator; [None] when it throws or when the
    result has no [parse] function. *)
Variable js_eval : string → option ZodSchema.

(** [axios(config)]: a response, or what it throws. *)
Variable axios : AxiosRequestConfig → thrown + AxiosResponse.

(** The constant [API_BASE_URL] of the generated file: [determinedBaseUrl || '']. *)
Variable API_BASE_URL : string.

(** [s.substring(0, MAX_LEN)] followed by ['...'] when [s.length > MAX_LEN]. *)
Definition MAX_LEN : nat := 200.

Definition truncated (s : string) : string :=
  take_string MAX_LEN s +:+ (if MAX_LEN <? String.length s then "..." else "").

Definition formatApiError (error : AxiosError) : string :=
  match error_response error with
  | Some response =>
      let message :=
        "API Error: Status " +:+ pretty (status response) +:+ " ("
        +:+ (if decide (statusText response = "") then "Status text not available"
             else statusText response)
        +:+ "). " in
      let responseData := data response in
      match responseData with
      | VStr s => message +:+ "Response: " +:+ truncated s
      | _ =>
          if truthy responseData then
            match JSON_stringify responseData with
            | Some jsonString => message +:+ "Response: " +:+ truncated jsonString
            | None => message +:+ "Response: [Could not serialize response data]"
            end
          else message +:+ "No response body received."
      end
  | None =>
      if error_request error then
        "API Network Error: No response received from the server. Check network connectivity or server availability."
        +:+ match nonempty (error_code error) with
            | Some code => " (Code: " +:+ code +:+ ")"
            | None => ""
            end
      else "API Request Setup Error: " +:+ error_message error
  end.

Definition getZodSchemaFromJsonSchema (jsonSchema : value) : ZodSchema :=
  match jsonSchema with
  | VObj _ | VArr _ | VRef _ =>
      match jsonSchemaToZod jsonSchema ≫= js_eval with
      | Some zodSchema => zodSchema
      | None => ZPassthroughObject
      end
  | _ => ZPassthroughObject
  end.

(** [`${e.path.join('.')} (${e.code}): ${e.message}`] *)
Definition formatIssue (e : ZodIssue) : string :=
  String.concat "." (issue_path e) +:+ " (" +:+ issue_code e +:+ "): " +:+ issue_message e.

Definition validationErrorMessage (toolName : string) (errors : list ZodIssue) : string :=
  "Invalid arguments for tool '" +:+ toolName +:+ "': "
  +:+ String.concat ", " (formatIssue <$> errors).

Definition validationSetupMessage (toolName : string) : string :=
  "Internal server error during argument validation setup for tool '" +:+ toolName +:+ "'.".

(** The block between [--- Argument Validation using Zod ---] and its end:
    the text of an early [return], or [validatedArgs]. *)
Definition validateArguments (tool : McpToolDefinition) (toolArgs : value)
    : string + obj :=
  let zodSchema := getZodSchemaFromJsonSchema (inputSchema tool) in
  let argsToParse :=
    match toolArgs with
    | VObj _ | VArr _ | VRef _ => toolArgs
    | _ => VObj []
    end in
  match zod_parse zodSchema argsToParse with
  | inr validatedArgs => inr validatedArgs
  | inl (ZodError errors) => inl (validationErrorMessage (name tool) errors)
  | inl NotZodError => inl (validationSetupMessage (name tool))
  end.

(** [validatedArgs[k]] *)
Definition js_read (o : obj) (k : string) : value :=
  match own o k with
  | Some v => v
  | None => Object_prototype k
  end.

(** [typeof v !== 'undefined' && v !== null] *)
Definition present (v : value) : bool :=
  match v with
  | VUndef | VNull => false
  | _ => true
  end.

(** [typeof v !== 'undefined'] *)
Definition defined (v : value) : bool :=
  match v with
  | VUndef => false
  | _ => true
  end.

(** [`${p.name}`] *)
Definition nameOf (p : ParameterObject) : string := default "undefined" (param_name p).

Definition located (place : string) (p : ParameterObject) : bool :=
  bool_decide (param_in p = Some place).

(** One line pair of [urlPathCode], as it runs in a handler whose
    declarations [const ${p.name}_val] are accepted ([declarable] below says
    when); [p_val] stands for that constant. *)
Definition substitutePathParameter (validatedArgs : obj)
    (urlPath : thrown + string) (p : ParameterObject) : thrown + string :=
  match urlPath with
  | inl e => inl e
  | inr urlPath =>
      let p_val := js_read validatedArgs (nameOf p) in
      if present p_val then
        match encodeURIComponent (js_String ToString p_val) with
        | Some encoded => inr (replaceFirst ("{" +:+ nameOf p +:+ "}") encoded urlPath)
        | None => inl (Error "URI malformed")
        end
      else inr urlPath
  end.

(** [urlPath] after the substitutions. *)
Definition substitutedPath (tool : McpToolDefinition) (validatedArgs : obj)
    : thrown + string :=
  foldl (substitutePathParameter validatedArgs) (inr (path tool))
    (filter (λ p, located "path" p) (parameters tool)).

Definition unresolvedPathMessage (urlPath : string) : string :=
  "Validation passed but failed to resolve path parameters in URL: " +:+ urlPath
  +:+ ". Check schema/validation logic.".

(** One line pair of [queryParamsCode], under the same reading of the
    declaration. *)
Definition addQueryParameter (validatedArgs : obj) (queryParams : obj)
    (p : ParameterObject) : obj :=
  let p_val := js_read validatedArgs (nameOf p) in
  if present p_val then js_set queryParams (nameOf p) p_val else queryParams.

(** One line pair of [headersCode], under the same reading of the
    declaration. *)
Definition addHeader (validatedArgs : obj) (headers : obj) (p : ParameterObject) : obj :=
  let p_val := js_read validatedArgs (nameOf p) in
  if present p_val
  then js_set headers (toLowerCase (nameOf p)) (VStr (js_String ToString p_val))
  else headers.

Definition requestContentType (body : RequestBodyObject) : string :=
  match body_content body with
  | Some content =>
      match assoc content "application/json" with
      | Some _ => "application/json"
      | None =>
          match content with
          | (firstType, _) :: _ =>
              if decide (firstType = "") then "application/json" else firstType
          | [] => "application/json"
          end
      end
  | None => "application/json"
  end.

(** The [config] object. *)
Definition requestConfig (tool : McpToolDefinition) (validatedArgs : obj)
    (urlPath : string) : AxiosRequestConfig :=
  let requestUrl :=
    if decide (API_BASE_URL = "") then urlPath else API_BASE_URL +:+ urlPath in
  let queryParams :=
    foldl (addQueryParameter validatedArgs) []
      (filter (λ p, located "query" p) (parameters tool)) in
  let headers :=
    foldl (addHeader validatedArgs) [("Accept", VStr "application/json")]
      (filter (λ p, located "header" p) (parameters tool)) in
  let bodyValue := js_get validatedArgs "requestBody" in
  let hasBody := defined bodyValue in
  let headers :=
    match requestBody tool with
    | Some body =>
        if hasBody then js_set headers "content-type" (VStr (requestContentType body))
        else headers
    | None => headers
    end in
  {| config_method := toUpperCase (method tool);
     config_url := requestUrl;
     config_params := queryParams;
     config_headers := headers;
     config_data :=
       match requestBody tool with
       | Some _ => if hasBody then Some bodyValue else None
       | None => None
       end |}.

(** [--- Process Successful Response ---] *)
Definition responseText (response : AxiosResponse) : string :=
  let contentType :=
    toLowerCase (default "" (assoc (response_headers response) "content-type")) in
  match data response with
  | VObj _ | VArr _ | VRef _ =>
      if includes "application/json" contentType then
        default "[Error: Failed to stringify JSON response]"
          (JSON_stringify_pretty (data response))
      else js_String ToString (data response)
  | VStr s => s
  | VUndef | VNull => "(Status: " +:+ pretty (status response) +:+ " - No body content)"
  | v => js_String ToString v
  end.

Definition successMessage (response : AxiosResponse) : string :=
  "API Response (Status: " +:+ pretty (status response) +:+ "):" +:+ String "010"%char ""
  +:+ responseText response.

(** The [catch] of the handler. *)
Definition errorMessage (error : thrown) : string :=
  match error with
  | AxiosFailure e => formatApiError e
  | Error message => message
  | Thrown v => "An unexpected error occurred: " +:+ js_String ToString v
  end.

(** From [--- API Call Preparation ---] to the end of the handler: the text
    returned and the requests made. *)
Definition dispatch (tool : McpToolDefinition) (validatedArgs : obj)
    : string * list AxiosRequestConfig :=
  match substitutedPath tool validatedArgs with
  | inl error => (errorMessage error, [])
  | inr urlPath =>
      if includes "{" urlPath then (errorMessage (Error (unresolvedPathMessage urlPath)), [])
      else
        let config := requestConfig tool validatedArgs urlPath in
        match axios config with
        | inr response => (successMessage response, [config])
        | inl error => (errorMessage error, [config])
        end
  end.

(** The handler of one tool. *)
Definition handleToolCall (tool : McpToolDefinition) (toolArgs : value)
    : string * list AxiosRequestConfig :=
  match validateArguments tool toolArgs with
  | inl text => (text, [])
  | inr validatedArgs => dispatch tool validatedArgs
  end.

(** The [CallToolRequestSchema] handler over the tool list. *)
Definition callTool (tools : list McpToolDefinition) (toolName : string) (toolArgs : value)
    : string * list AxiosRequestConfig :=
  match find (λ t, bool_decide (name t = toolName)) tools with
  | None => ("Error: Unknown tool requested: " +:+ toolName, [])
  | Some tool => handleToolCall tool toolArgs
  end.

End GeneratedServer.

(** ** The tool list of the generated file: [generateListTools] *)

Definition backslash : ascii := "092"%char.
Definition backtick : ascii := "096"%char.
Definition doubleQuote : string := String "034"%char EmptyString.
Definition newline : string := String "010"%char EmptyString.

(** [s.replace(/c/g, replacement)] for a single character [c] and a
    replacement text without ['$']. *)
Fixpoint replaceAllChar (c : ascii) (replacement s : string) : string :=
  match s with
  | EmptyString => EmptyString
  | String a s' =>
      (if decide (a = c) then replacement else String a EmptyString)
      +:+ replaceAllChar c replacement s'
  end.

(** [(tool.description || '').replace(/\\/g, '\\\\').replace(/`/g, '\\`')] *)
Definition escapeDescription (description : string) : string :=
  replaceAllChar backtick (String backslash (String backtick EmptyString))
    (replaceAllChar backslash (String backslash (String backslash EmptyString))
       description).

(** [s.replace(/^/gm, '    ')]: four spaces at the start of every line. *)
Fixpoint indentAfterBreaks (s : string) : string :=
  match s with
  | EmptyString => EmptyString
  | String c s' =>
      if bool_decide (c = "010"%char) || bool_decide (c = "013"%char)
      then String c ("    " +:+ indentAfterBreaks s')
      else String c (indentAfterBreaks s')
  end.

Definition indentLines (s : string) : string := "    " +:+ indentAfterBreaks s.

Section ListTools.

(** [JSON.stringify(v, null, 4)]; [None] when it throws or yields no string. *)
Variable JSON_stringify_4 : value → option string.

(** The text emitted for one tool. *)
Definition listToolsEntry (tool : McpToolDefinition) : string :=
  let escapedDescription := escapeDescription (description tool) in
  let schemaString :=
    match JSON_stringify_4 (inputSchema tool) with
    | Some s => indentLines s
    | None =>
        "    { " +:+ doubleQuote +:+ "type" +:+ doubleQuote +:+ ": "
        +:+ doubleQuote +:+ "object" +:+ doubleQuote +:+ ", "
        +:+ doubleQuote +:+ "description" +:+ doubleQuote +:+ ": "
        +:+ doubleQuote +:+ "Error: Could not stringify schema" +:+ doubleQuote +:+ " }"
    end in
  newline +:+ "  // Tool: " +:+ name tool +:+ " (" +:+ toUpperCase (method tool) +:+ " "
  +:+ path tool +:+ ")" +:+ newline +:+ "  {" +:+ newline
  +:+ "    name: " +:+ doubleQuote +:+ name tool +:+ doubleQuote +:+ "," +:+ newline
  +:+ "    description: " +:+ String backtick escapedDescription
  +:+ String backtick "," +:+ newline
  +:+ "    inputSchema: " +:+ schemaString +:+ newline +:+ "  },".

Definition generateListTools (tools : list McpToolDefinition) : string :=
  match tools with
  | [] => "  // No tools extracted from the OpenAPI spec."
  | _ => String.concat "" (listToolsEntry <$> tools)
  end.

End ListTools.

(** ** The programmatic entry point: [getToolsFromOpenApi] of [api.ts] *)

(** What the caller hands in: a path or URL, or an object, which counts as a
    parsed document when it has the key [openapi]. *)
Inductive SpecInput : Type :=
  | SpecPath (location : string)
  | SpecObject (hasOpenapi : bool) (api : Document).

Definition isOpenApiDocument (spec : SpecInput) : bool :=
  match spec with
  | SpecObject hasOpenapi _ => hasOpenapi
  | SpecPath _ => false
  end.

Record GetToolsOptions := {
  option_baseUrl : option string;
  option_dereference : bool;
  option_excludeOperationIds : option (list string);
  (** The caller's function: it answers, or throws. *)
  option_filterFn : option (McpToolDefinition → thrown + bool)
}.

(** [tools.filter(fn)] for a function that may throw: the calls are made in
    order, and the first that throws ends the loop. *)
Fixpoint filterWith (fn : McpToolDefinition → thrown + bool)
    (tools : list McpToolDefinition) : thrown + list McpToolDefinition :=
  match tools with
  | [] => inr []
  | tool :: rest =>
      match fn tool with
      | inl error => inl error
      | inr keep =>
          match filterWith fn rest with
          | inl error => inl error
          | inr kept => inr (if keep then tool :: kept else kept)
          end
      end
  end.

Section Api.

(** [SwaggerParser.parse] and [SwaggerParser.dereference]. *)
Variable SwaggerParser_parse : SpecInput → thrown + Document.
Variable SwaggerParser_dereference : SpecInput → thrown + Document.

(** [extractToolsFromApi] of [parser/extract-tools.ts] and [determineBaseUrl]
    of [utils/url.ts], as [api.ts] imports them; either may throw. *)
Variable extractTools : Document → thrown + list McpToolDefinition.
Variable baseUrlOf : Document → option string → thrown + option string.

(** The first statements of the [try] block: the document to work on. *)
Definition loadDocument (specPathOrUrl : SpecInput) (options : GetToolsOptions)
    : thrown + Document :=
  match specPathOrUrl with
  | SpecObject true api =>
      if option_dereference options
      then SwaggerParser_dereference (SpecObject true api)
      else inr api
  | _ =>
      if option_dereference options
      then SwaggerParser_dereference specPathOrUrl
      else SwaggerParser_parse specPathOrUrl
  end.

(** The filter on the excluded identifiers. *)
Definition excludeTools (options : GetToolsOptions) (allTools : list McpToolDefinition)
    : list McpToolDefinition :=
  match option_excludeOperationIds options with
  | Some (id :: ids) =>
      let excludeSet : gset string := list_to_set (id :: ids) in
      List.filter (λ tool, negb (bool_decide (operationId tool ∈ excludeSet))) allTools
  | _ => allTools
  end.

(** The two filters. *)
Definition filterTools (options : GetToolsOptions) (allTools : list McpToolDefinition)
    : thrown + list McpToolDefinition :=
  let filteredTools := excludeTools options allTools in
  match option_filterFn options with
  | Some filterFn => filterWith filterFn filteredTools
  | None => inr filteredTools
  end.

(** The [catch] block. *)
Definition wrapFailure (error : thrown) : thrown :=
  match error with
  | Error message => Error ("Failed to extract tools from OpenAPI: " +:+ message)
  | AxiosFailure e =>
      Error ("Failed to extract tools from OpenAPI: " +:+ error_message e)
  | Thrown v => Thrown v
  end.

(** The tools, each with the [baseUrl] it is returned with, or what the
    promise is rejected with.  Everything runs inside the [try]: the parser,
    the extractor, the base URL, the caller's filter. *)
Definition getToolsFromOpenApi (specPathOrUrl : SpecInput) (options : GetToolsOptions)
    : thrown + list (McpToolDefinition * string) :=
  match loadDocument specPathOrUrl options with
  | inl error => inl (wrapFailure error)
  | inr api =>
      match extractTools api with
      | inl error => inl (wrapFailure error)
      | inr allTools =>
          match baseUrlOf api (option_baseUrl options) with
          | inl error => inl (wrapFailure error)
          | inr baseUrl =>
              match filterTools options allTools with
              | inl error => inl (wrapFailure error)
              | inr filteredTools =>
                  inr ((λ tool, (tool, default "" (nonempty baseUrl))) <$> filteredTools)
              end
          end
      end
  end.

End Api.

(** ** The generated web server: [setupWebServer] of [generateWebServerCode]

    The registry [transports] is a plain object from session identifiers to
    transports; a transport is named by an address.  The handlers are the
    three callbacks that touch it. *)

(** What [transport.handlePostMessage] does: it answers the request itself,
    or throws, before or after the response headers went out. *)
Inductive PostOutcome : Type :=
  | PostAnswered
  | PostThrew (headersSent : bool).

(** What the client of [/api/messages] gets: a status with a text from the
    route itself, or whatever the transport at that address made of the
    request. *)
Inductive MessageReply : Type :=
  | Status (code : nat) (text : string)
  | FromTransport (transport : nat).

Inductive ServerEvent : Type :=
  | SseOpened (sessionId : string) (transport : nat)
  | SseClosed (sessionId : string).

(** [transports[sessionId] = transport] on a new connection and
    [delete transports[sessionId]] in its [close] handler. *)
Definition serverEvent (transports : obj) (event : ServerEvent) : obj :=
  match event with
  | SseOpened sessionId transport => js_set transports sessionId (VRef transport)
  | SseClosed sessionId => js_delete transports sessionId
  end.

Definition serverEvents (events : list ServerEvent) : obj :=
  foldl serverEvent [] events.

Section WebServer.

Variable Object_prototype : string → value.
Variable handlePostMessage : nat → PostOutcome.

(** The [app.post("/api/messages", ...)] handler; [sessionId] is
    [req.query.sessionId]. *)
Definition postMessage (transports : obj) (sessionId : option string) : MessageReply :=
  match nonempty sessionId with
  | None => Status 400 "Missing sessionId query parameter"
  | Some sessionId =>
      let transport := js_read Object_prototype transports sessionId in
      if truthy transport then
        match transport with
        | VRef t =>
            match handlePostMessage t with
            | PostAnswered | PostThrew true => FromTransport t
            | PostThrew false => Status 500 "Internal server error processing message"
            end
        | _ => Status 500 "Internal server error processing message"
        end
      else Status 404 "No active session found with the provided sessionId"
  end.

End WebServer.

(** ** Vocabulary of the statements about the translator *)

(** [integer] read as [number]; any other value of [type] as it is. *)
Definition coerced (ty : value) : value :=
  if is_str ty "integer" then VStr "number" else ty.

(** Nesting depth of a value. *)
Fixpoint height (v : value) : nat :=
  match v with
  | VArr elems => S (max_list (height <$> elems))
  | VObj props => S (max_list ((λ kv, height kv.2) <$> props))
  | _ => 0
  end.

(** A value written without heap references: a finite tree, as a parsed
    document is. *)
Fixpoint ref_free (v : value) : bool :=
  match v with
  | VRef _ => false
  | VArr elems => forallb ref_free elems
  | VObj props => forallb (λ kv, ref_free kv.2) props
  | _ => true
  end.

(** [typeof v !== 'object' || v === null] *)
Definition primitive (v : value) : Prop :=
  match v with
  | VArr _ | VObj _ | VRef _ => False
  | _ => True
  end.

(** The presentation-only fields are missing from a node, from the property
    schemas of every node whose [type] is ['object'] and from the item schema
    of every node whose [type] is ['array'], all the way down. *)
Inductive Stripped : value → Prop :=
  | Stripped_primitive v : primitive v → Stripped v
  | Stripped_node o :
      (∀ k, k ∈ presentationOnly → own o k = None) →
      (is_str (js_get o "type") "object" = true →
       ∀ ps k p, js_get o "properties" = VObj ps → (k, p) ∈ ps → Stripped p) →
      (is_str (js_get o "type") "array" = true → Stripped (js_get o "items")) →
      Stripped (VObj o).

(** The same, whatever the [type] of the enclosing node. *)
Inductive DeepStripped : value → Prop :=
  | DeepStripped_primitive v : primitive v → DeepStripped v
  | DeepStripped_node o :
      (∀ k, k ∈ presentationOnly → own o k = None) →
      (∀ ps k p, js_get o "properties" = VObj ps → (k, p) ∈ ps → DeepStripped p) →
      DeepStripped (js_get o "items") →
      DeepStripped (VObj o).


(** ** Vocabulary of the statements about the extractor *)

(** [`${baseName}_${k}`] *)
Definition suffixed (baseName : string) (k : nat) : string :=
  baseName +:+ "_" +:+ pretty k.

(** How the name of a tool relates to the names given before it: the base
    name when that is free, else the base name with the first free suffix
    counting from 1; in both cases a name not given before. *)
Definition resolved_against (used : list string) (t : McpToolDefinition) : Prop :=
  (operationId t ∉ used → name t = operationId t)
  ∧ (operationId t ∈ used →
       ∃ k, 1 ≤ k ∧ name t = suffixed (operationId t) k
            ∧ ∀ j, 1 ≤ j < k → suffixed (operationId t) j ∈ used)
  ∧ name t ∉ used.

(** The (path, path item, method) triples in the order the two loops visit
    them: paths as listed, methods in the order of [HttpMethods]. *)
Definition visits (api : Document) : list (string * PathItemObject * string) :=
  '(path, item) ← default [] (paths api);
  match item with
  | Some pathItem => (λ method, (path, pathItem, method)) <$> HttpMethods
  | None => []
  end.

Section ExtractorVocabulary.

Variable generateOperationId : string → string → string.

(** The (path, method, base name) of a visit that finds an operation with a
    base name. *)
Definition namedOperation (visit : string * PathItemObject * string)
    : option (string * string * string) :=
  let '(path, pathItem, method) := visit in
  operation ← assoc pathItem method;
  let baseName :=
    default (generateOperationId method path) (nonempty (op_operationId operation)) in
  if decide (baseName = "") then None else Some (path, method, baseName).

(** Those of all visits, in visiting order. *)
Definition namedOperations (api : Document) : list (string * string * string) :=
  omap namedOperation (visits api).

End ExtractorVocabulary.

(** One round of the inner loop, as a function of the visit. *)
Definition visit_step (ToString : value → string)
    (generateOperationId : string → string → string)
    (rounds stack : nat) (h : heap)
    (st : option (list McpToolDefinition * gset string))
    (visit : string * PathItemObject * string)
    : option (list McpToolDefinition * gset string) :=
  extractOperation ToString generateOperationId rounds stack h
    visit.1.1 visit.1.2 st visit.2.

(** The names are pairwise different and each tool is named against the
    tools before it. *)
Definition named_in_order (tools : list McpToolDefinition) : Prop :=
  NoDup (name <$> tools)
  ∧ ∀ pre t post, tools = pre ++ t :: post → resolved_against (name <$> pre) t.

(** ** Vocabulary of the statements about the input contract *)

(** The names in the [required] list of an object schema. *)
Definition requiredNames (schema : value) : list string :=
  match schema with
  | VObj o =>
      match js_get o "required" with
      | VArr names => omap (λ v, match v with VStr s => Some s | _ => None end) names
      | _ => []
      end
  | _ => []
  end.

(** The keys of the [properties] map of an object schema. *)
Definition propertyKeys (schema : value) : list string :=
  match schema with
  | VObj o =>
      match js_get o "properties" with
      | VObj properties => properties.*1
      | _ => []
      end
  | _ => []
  end.

(** What [properties] and [required] satisfy all along: a required name other
    than [__proto__] is an own key of [properties]. *)
Definition required_are_keys (st : obj * list string) : Prop :=
  ∀ n, n ∈ st.2 → n ≠ "__proto__" → is_Some (own st.1 n).

(** A schema written as a finite tree that the stack can hold. *)
Definition schema_fits (stack : nat) (schema : obj) : Prop :=
  ref_free (VObj schema) = true ∧ height (VObj schema) ≤ stack.

(** The same for the schemas of an operation that the assembler translates:
    those of its parameters and that of its JSON request body. *)
Definition operation_fits (stack : nat) (operation : OperationObject) : Prop :=
  (∀ param schema,
     param ∈ default [] (op_parameters operation) →
     param_schema param = Some schema → schema_fits stack schema)
  ∧ (∀ body content media schema,
       op_requestBody operation = Some body → body_content body = Some content →
       assoc content "application/json" = Some media →
       media_schema media = Some schema → schema_fits stack schema).

(** ** Sample operations *)

Definition stringSchema : obj := [("type", VStr "string")].

(** [{ name: '__proto__', in: 'query', required: true, schema: { type: 'string' } }] *)
Definition protoParameter : ParameterObject :=
  {| param_name := Some "__proto__"; param_in := Some "query";
     param_description := None; param_required := true;
     param_schema := Some stringSchema |}.

Definition protoOperation : OperationObject :=
  {| op_operationId := Some "search"; op_description := None; op_summary := None;
     op_parameters := Some [protoParameter]; op_requestBody := None |}.

(** [{ name: 'id', in: 'path', required: true, schema: { type: 'string' } }] *)
Definition idParameter : ParameterObject :=
  {| param_name := Some "id"; param_in := Some "path";
     param_description := None; param_required := true;
     param_schema := Some stringSchema |}.

Definition getUser : OperationObject :=
  {| op_operationId := Some "user"; op_description := None; op_summary := None;
     op_parameters := Some [idParameter]; op_requestBody := None |}.

(** Three operations that all declare the identifier [user]. *)
Definition usersApi : Document :=
  {| servers := Some [{| server_url := "https://api.example.com/" |}];
     paths := Some [("/users/{id}", Some [("get", getUser); ("delete", getUser)]);
                    ("/people/{id}", Some [("get", getUser)])] |}.

Definition methodAndPath : string → string → string := λ method path, method +:+ path.

(** ** Vocabulary of the statements about the generated server *)

(** The text the error formatter makes of a response body, when it makes
    one: the body itself when it is a string, its JSON text when it is any
    other truthy value that serialises. *)
Definition rendering (JSON_stringify : value → option string) (body : value)
    : option string :=
  match body with
  | VStr s => Some s
  | _ => if truthy body then JSON_stringify body else None
  end.

(** [message] is [head], then ["Response: "], then the rendering [r] cut to
    its first 200 characters, with ["..."] after them exactly when [r] is
    longer than that. *)
Definition carries_rendering (message head r : string) : Prop :=
  ∃ shown,
    message = head +:+ "Response: " +:+ shown
    ∧ (String.length r ≤ 200 → shown = r)
    ∧ (200 < String.length r →
       ∃ kept rest, r = kept +:+ rest ∧ String.length kept = 200
                    ∧ shown = kept +:+ "...").

(** [`API Error: Status ${status} (${statusText || '...'}). `] *)
Definition statusLine (response : AxiosResponse) : string :=
  "API Error: Status " +:+ pretty (status response) +:+ " ("
  +:+ (if decide (statusText response = "") then "Status text not available"
       else statusText response)
  +:+ "). ".

(** ** Sample calls *)

Definition getUserTool : McpToolDefinition :=
  {| name := "user"; description := "Executes GET /users/{id}";
     inputSchema :=
       VObj [("type", VStr "object");
             ("properties", VObj [("id", VObj [("type", VStr "string")])]);
             ("required", VArr [VStr "id"])];
     operationId := "user"; method := "get"; path := "/users/{id}";
     parameters := [idParameter]; requestBody := None |}.

(** A 404 whose JSON body is [false]. *)
Definition notFoundFalse : AxiosError :=
  {| error_response :=
       Some {| status := 404; statusText := "Not Found";
               response_headers := [("content-type", "application/json")];
               data := VBool false |};
     error_request := true; error_code := None;
     error_message := "Request failed with status code 404" |}.

(** A 404 whose body is the text [missing]. *)
Definition notFoundText : AxiosError :=
  {| error_response :=
       Some {| status := 404; statusText := "Not Found";
               response_headers := []; data := VStr "missing" |};
     error_request := true; error_code := None;
     error_message := "Request failed with status code 404" |}.

Definition noStringify : value → option string := λ _, None.
Definition stringifyFalse : value → option string := λ _, Some "false".
Definition encodeIdentity : string → option string := Some.
Definition plainPrototype : string → value := λ _, VUndef.
Definition noConversion : value → option string := λ _, None.
Definition noEval : string → option ZodSchema := λ _, None.
Definition okAxios : AxiosRequestConfig → thrown + AxiosResponse :=
  λ _, inr {| status := 200; statusText := "OK"; response_headers := []; data := VNull |}.

(** ** Vocabulary of the further statements *)

(** What a returned node satisfies before it is translated again: no
    [nullable], none of the presentation-only fields, and a [type] other than
    ['integer']. *)
Definition Settled (o : obj) : Prop :=
  own o "nullable" = None
  ∧ (∀ k, k ∈ presentationOnly → own o k = None)
  ∧ is_str (js_get o "type") "integer" = false.

(** The keys of an object built by assignments to an empty object: pairwise
    different, and none of them [__proto__]. *)
Definition Tidy (o : obj) : Prop := NoDup o.*1 ∧ "__proto__" ∉ o.*1.

(** What becomes of one property schema in the loop over the properties. *)
Definition mappedProperty (translate : obj → option value) (h : heap) (p : value)
    : option value :=
  match as_object h p with
  | Some propSchema => translate propSchema
  | None =>
      match p with
      | VBool b => Some (VBool b)
      | _ => None
      end
  end.

(** The names that the parameter loop pushes to [required], in order. *)
Definition requiredParameters (params : list ParameterObject) : list string :=
  omap (λ p, match nonempty (param_name p), param_schema p with
             | Some pname, Some _ => if param_required p then Some pname else None
             | _, _ => None
             end) params.

(** A request body gets a property when its [content] has an entry. *)
Definition bodyInstalled (body : RequestBodyObject) : bool :=
  match body_content body with
  | Some (_ :: _) => true
  | _ => false
  end.

Definition requiredBody (body : option RequestBodyObject) : list string :=
  match body with
  | Some opRequestBody =>
      if body_required opRequestBody && bodyInstalled opRequestBody
      then ["requestBody"] else []
  | None => []
  end.

(** The parameter is one the loop installs under the name [pname]. *)
Definition installs (pname : string) (p : ParameterObject) : Prop :=
  nonempty (param_name p) = Some pname ∧ is_Some (param_schema p).

(** [operation.description || operation.summary || `Executes ...`] *)
Definition describedAs (operation : OperationObject) (method path : string) : string :=
  default ("Executes " +:+ toUpperCase method +:+ " " +:+ path)
    (match nonempty (op_description operation) with
     | Some d => Some d
     | None => nonempty (op_summary operation)
     end).

(** The tool was made on the given visit from the operation found there. *)
Definition made_from (ToString : value → string)
    (generateOperationId : string → string → string) (stack : nat) (h : heap)
    (visit : string * PathItemObject * string) (t : McpToolDefinition) : Prop :=
  ∃ operation,
    assoc visit.1.2 visit.2 = Some operation
    ∧ path t = visit.1.1 ∧ method t = visit.2
    ∧ operationId t
      = default (generateOperationId visit.2 visit.1.1) (nonempty (op_operationId operation))
    ∧ description t = describedAs operation visit.2 visit.1.1
    ∧ generateInputSchema ToString stack h operation
      = Some (inputSchema t, parameters t, requestBody t)
    ∧ parameters t = default [] (op_parameters operation)
    ∧ requestBody t = op_requestBody operation.

(** ** Further sample operations *)

Definition describedParameter : ParameterObject :=
  {| param_name := Some "limit"; param_in := Some "query";
     param_description := Some "Page size"; param_required := true;
     param_schema := Some [("type", VStr "integer"); ("description", VStr "inner")] |}.

Definition textBody : RequestBodyObject :=
  {| body_description := None;
     body_content := Some [("text/plain", {| media_schema := None |})];
     body_required := true |}.

Definition listOperation : OperationObject :=
  {| op_operationId := None; op_description := None; op_summary := Some "List things";
     op_parameters := Some [describedParameter]; op_requestBody := Some textBody |}.

(** ** Reading the text of a template literal

    The value of the text between two backticks, for the two escapes the
    generator emits, a backslash before a backslash and before a backtick.
    A carriage return, with the line feed after it if there is one, reads as
    a line feed.  [None] when the text is no plain text of that kind: a bare
    backtick ends the literal, [${] opens a substitution, and other escapes
    are left out. *)
Definition carriageReturn : ascii := "013"%char.
Definition lineFeed : ascii := "010"%char.

Fixpoint cook (s : string) : option string :=
  match s with
  | EmptyString => Some EmptyString
  | String c s' =>
      if decide (c = backslash) then
        match s' with
        | String c' s'' =>
            if decide (c' = backslash ∨ c' = backtick) then String c' <$> cook s''
            else None
        | EmptyString => None
        end
      else if decide (c = backtick) then None
      else if decide (c = carriageReturn) then
        match s' with
        | String c' s'' =>
            if decide (c' = lineFeed) then String lineFeed <$> cook s''
            else String lineFeed <$> cook s'
        | EmptyString => Some (String lineFeed EmptyString)
        end
      else if bool_decide (c = "$"%char) && starts_with "{" s' then None
      else String c <$> cook s'
  end.

(** The session an event of the web server is about. *)
Definition sessionOf (event : ServerEvent) : string :=
  match event with
  | SseOpened sessionId _ | SseClosed sessionId => sessionId
  end.

(** A tool passes the two filters of [getToolsFromOpenApi]. *)
Definition passes (options : GetToolsOptions) (tool : McpToolDefinition) : Prop :=
  (∀ ids, option_excludeOperationIds options = Some ids → operationId tool ∉ ids)
  ∧ (∀ filterFn, option_filterFn options = Some filterFn → filterFn tool = inr true).

(** ** Further samples *)

(** The tools of [usersApi]. *)
Definition usersTools : list McpToolDefinition :=
  Eval vm_compute in
    default [] (extractToolsFromApi noToString methodAndPath 30 5 emptyHeap usersApi).

(** A document whose server URL ends with two slashes. *)
Definition slashApi : Document :=
  {| servers := Some [{| server_url := "https://api.example.com//" |}]; paths := None |}.

(** [POST /users] with a query parameter and a text body. *)
Definition listUsersTool : McpToolDefinition :=
  {| name := "listUsers"; description := "List users";
     inputSchema := VObj [("type", VStr "object")];
     operationId := "listUsers"; method := "post"; path := "/users";
     parameters := [describedParameter]; requestBody := Some textBody |}.

Definition failingParser : SpecInput → thrown + Document := λ _, inl (Error "ENOENT").

Definition sampleExtractor : Document → thrown + list McpToolDefinition :=
  λ _, inr [getUserTool; listUsersTool].

(** [determineBaseUrl], which throws nothing. *)
Definition sampleBaseUrl : Document → option string → thrown + option string :=
  λ api cmdLineBaseUrl, inr (determineBaseUrl api cmdLineBaseUrl).

(** A filter that throws the text [no] at the first tool it is asked about. *)
Definition throwingFilter : McpToolDefinition → thrown + bool :=
  λ _, inl (Thrown (VStr "no")).

Definition throwingOptions : GetToolsOptions :=
  {| option_baseUrl := None; option_dereference := false;
     option_excludeOperationIds := None; option_filterFn := Some throwingFilter |}.

Definition excludeUser : GetToolsOptions :=
  {| option_baseUrl := None; option_dereference := false;
     option_excludeOperationIds := Some ["user"]; option_filterFn := None |}.

(** Two connections, the first of them closed again. *)
Definition sessionLog : list ServerEvent :=
  [SseOpened "a" 1; SseOpened "b" 2; SseClosed "a"].

Definition answering : nat → PostOutcome := λ _, PostAnswered.

(** ** Where the translator writes to its input

    [jsonSchema] is a shallow copy of [schema], so a [type] that is a list is
    one array held by both.  Of all the statements of the translator one
    writes to something the input holds: the [push] of line 624, which runs
    on a nullable node whose [type] is a list without ['null'].  The
    translator above gives the returned node; the input is left as it was by
    every call that meets no such node, and on a document without one the
    returned nodes do not depend on which arrays the document shares or on
    the calls made before. *)
Definition pushes (schema : obj) : bool :=
  truthy (js_get schema "nullable")
  && match js_get schema "type" with
     | VArr ts => negb (existsb (λ t, is_str t "null") ts)
     | _ => false
     end.

(** No node written in the value makes the translator push. *)
Fixpoint quiet (v : value) : bool :=
  match v with
  | VObj props => negb (pushes props) && forallb (λ kv, quiet kv.2) props
  | VArr elems => forallb quiet elems
  | _ => true
  end.

Definition quietHeap (h : heap) : Prop := ∀ a, quiet (VObj (h a)) = true.

(** The same for the schemas of an operation that the assembler translates. *)
Definition quietOperation (operation : OperationObject) : Prop :=
  (∀ param schema,
     param ∈ default [] (op_parameters operation) →
     param_schema param = Some schema → quiet (VObj schema) = true)
  ∧ (∀ body content media schema,
       op_requestBody operation = Some body → body_content body = Some content →
       assoc content "application/json" = Some media →
       media_schema media = Some schema → quiet (VObj schema) = true).

(** The same for every operation the extractor visits. *)
Definition quietDocument (h : heap) (api : Document) : Prop :=
  quietHeap h
  ∧ ∀ p pathItem m operation,
      (p, pathItem, m) ∈ visits api → assoc pathItem m = Some operation →
      quietOperation operation.

(** ** The declarations of a handler

    [generateCallTool] pastes the name of every path, query and header
    parameter into a declaration, [const ${p.name}_val = ...], all of them in
    the one [try] block of the tool's handler (lines 692, 701, 708).  The
    emitted file is accepted, and the handlers above exist, when each of
    these is a declaration of an identifier and no identifier is declared
    twice in a block. *)
Definition identifierStart (c : ascii) : bool :=
  let n := nat_of_ascii c in
  ((65 <=? n) && (n <=? 90)) || ((97 <=? n) && (n <=? 122))
  || (n =? 36) || (n =? 95).

Definition identifierPart (c : ascii) : bool :=
  let n := nat_of_ascii c in
  identifierStart c || ((48 <=? n) && (n <=? 57)).

Fixpoint identifierParts (s : string) : bool :=
  match s with
  | EmptyString => true
  | String c s' => identifierPart c && identifierParts s'
  end.

(** An identifier written with the letters [A-Z], [a-z], the digits, [$] and
    [_]: these the compiler accepts wherever they are no keyword, and no
    keyword ends with [_val]. *)
Definition isIdentifier (s : string) : bool :=
  match s with
  | EmptyString => false
  | String c s' => identifierStart c && identifierParts s'
  end.

(** The parameters a handler declares a constant for, in the order of the
    declarations. *)
Definition declaredParameters (tool : McpToolDefinition) : list ParameterObject :=
  filter (λ p, located "path" p) (parameters tool)
  ++ filter (λ p, located "query" p) (parameters tool)
  ++ filter (λ p, located "header" p) (parameters tool).

Definition declarable (tool : McpToolDefinition) : bool :=
  forallb (λ p, isIdentifier (nameOf p +:+ "_val")) (declaredParameters tool)
  && bool_decide (NoDup (nameOf <$> declaredParameters tool)).

(** ** What a schema accepts

    The reading of JSON Schema validation (draft 7): an instance is valid
    against a schema object when it meets the constraint of each of its
    keywords.  Numbers are written as fractions, so that there are numbers
    that are no integers. *)
Inductive instance : Type :=
  | INull
  | IBoolean (b : bool)
  | INumber (numerator : Z) (denominator : positive)
  | IString (s : string)
  | IArray (elems : list instance)
  | IObject (members : list (string * instance)).

Definition integral (numerator : Z) (denominator : positive) : bool :=
  (numerator mod Z.pos denominator =? 0)%Z.

(** Section 6.1.1: the instance matches the named primitive type;
    ['number'] matches any number and ['integer'] any number with a zero
    fractional part. *)
Definition typeNameAdmits (t : string) (i : instance) : bool :=
  match i with
  | INull => bool_decide (t = "null")
  | IBoolean _ => bool_decide (t = "boolean")
  | INumber n d =>
      bool_decide (t = "number") || (bool_decide (t = "integer") && integral n d)
  | IString _ => bool_decide (t = "string")
  | IArray _ => bool_decide (t = "array")
  | IObject _ => bool_decide (t = "object")
  end.

(** The constraint of the keyword [type]: a name, or a list of names of which
    one has to match; a missing keyword constrains nothing. *)
Definition typeAdmits (t : value) (i : instance) : bool :=
  match t with
  | VStr name => typeNameAdmits name i
  | VArr names =>
      existsb (λ v, match v with
                    | VStr name => typeNameAdmits name i
                    | _ => false
                    end) names
  | _ => true
  end.

(** [constraint k v i]: the instance [i] meets the keyword [k] with the value
    [v], for the keywords other than [type]. *)
Definition accepts (constraint : string → value → instance → bool)
    (schema : obj) (i : instance) : Prop :=
  typeAdmits (js_get schema "type") i = true
  ∧ ∀ k v, k ≠ "type" → own schema k = Some v → constraint k v i = true.

(** A reading of the keywords in which only [multipleOf] constrains: a
    number is a multiple of [m] when it is [m] times an integer. *)
Definition multipleOfOnly (k : string) (v : value) (i : instance) : bool :=
  match i, v with
  | INumber n d, VNum m =>
      if decide (k = "multipleOf")
      then (0 <? m)%Z && (n mod (m * Z.pos d) =? 0)%Z
      else true
  | _, _ => true
  end.

(** [{ type: 'integer', multipleOf: 1 }] *)
Definition sIntegerMultiple : obj := [("type", VStr "integer"); ("multipleOf", VNum 1)].

(** ** Further sample calls *)

(** [GET /users/{user-id}]: the name of the parameter gives no identifier. *)
Definition hyphenParameter : ParameterObject :=
  {| param_name := Some "user-id"; param_in := Some "path";
     param_description := None; param_required := true;
     param_schema := Some stringSchema |}.

Definition hyphenTool : McpToolDefinition :=
  {| name := "hyphen"; description := "Executes GET /users/{user-id}";
     inputSchema := VObj [("type", VStr "object")];
     operationId := "hyphen"; method := "get"; path := "/users/{user-id}";
     parameters := [hyphenParameter]; requestBody := None |}.

(** A tool with a header parameter named [Accept]. *)
Definition acceptParameter : ParameterObject :=
  {| param_name := Some "Accept"; param_in := Some "header";
     param_description := None; param_required := false;
     param_schema := Some stringSchema |}.

Definition acceptTool : McpToolDefinition :=
  {| name := "export"; description := "Executes GET /export";
     inputSchema := VObj [("type", VStr "object")];
     operationId := "export"; method := "get"; path := "/export";
     parameters := [acceptParameter]; requestBody := None |}.

(** A 200 whose JSON body is [false]. *)
Definition okFalse : AxiosResponse :=
  {| status := 200; statusText := "OK";
     response_headers := [("content-type", "application/json")];
     data := VBool false |}.

(** A 404 whose JSON body is [0]. *)
Definition notFoundZero : AxiosError :=
  {| error_response :=
       Some {| status := 404; statusText := "Not Found";
               response_headers := [("content-type", "application/json")];
               data := VNum 0 |};
     error_request := true; error_code := None;
     error_message := "Request failed with status code 404" |}.
(** ** Own properties under assignment and [delete] *)

Lemma own_upsert_eq o k v : own (upsert o k v) k = Some v.
Proof.
  induction o as [|[k' v'] o IH]; simpl.
  - by rewrite decide_True.
  - destruct (decide (k' = k)) as [->|Hne]; simpl.
    + by rewrite decide_True.
    + by rewrite decide_False.
Qed.

Lemma own_upsert_ne o k k' v : k ≠ k' → own (upsert o k v) k' = own o k'.
Proof.
  intros Hne. induction o as [|[k0 v0] o IH]; simpl.
  - by rewrite decide_False.
  - destruct (decide (k0 = k)) as [->|Hne0]; simpl.
    + by rewrite !decide_False.
    + destruct (decide (k0 = k')); done.
Qed.

Lemma own_js_set_ne o k k' v : k ≠ k' → own (js_set o k v) k' = own o k'.
Proof.
  intros Hne. unfold js_set.
  destruct (decide (k = "__proto__")); [destruct (has_key k o)|];
    auto using own_upsert_ne.
Qed.

Lemma own_js_set_eq o k v : k ≠ "__proto__" → own (js_set o k v) k = Some v.
Proof.
  intros Hne. unfold js_set. rewrite decide_False by done. apply own_upsert_eq.
Qed.

Lemma own_js_delete_eq o k : own (js_delete o k) k = None.
Proof.
  unfold js_delete. induction o as [|[k' v'] o IH]; [done|].
  rewrite filter_cons. simpl. destruct (decide (k' ≠ k)) as [Hne|]; [|done].
  simpl. by rewrite decide_False.
Qed.

Lemma own_js_delete_ne o k k' : k ≠ k' → own (js_delete o k) k' = own o k'.
Proof.
  intros Hne. unfold js_delete. induction o as [|[k0 v0] o IH]; [done|].
  rewrite filter_cons. simpl. destruct (decide (k0 ≠ k)) as [Hne0|Heq]; simpl.
  - by rewrite IH.
  - apply dec_stable in Heq as ->. by rewrite decide_False.
Qed.

Lemma js_get_set_ne o k k' v : k ≠ k' → js_get (js_set o k v) k' = js_get o k'.
Proof. intros. unfold js_get. by rewrite own_js_set_ne. Qed.

Lemma js_get_set_eq o k v : k ≠ "__proto__" → js_get (js_set o k v) k = v.
Proof. intros. unfold js_get. by rewrite own_js_set_eq. Qed.

Lemma js_get_delete_ne o k k' : k ≠ k' → js_get (js_delete o k) k' = js_get o k'.
Proof. intros. unfold js_get. by rewrite own_js_delete_ne. Qed.

Lemma has_key_own k o : has_key k o = false ↔ own o k = None.
Proof.
  unfold has_key. rewrite bool_decide_eq_false, <- eq_None_not_Some. done.
Qed.

Lemma own_elem_of o k v : own o k = Some v → (k, v) ∈ o.
Proof.
  induction o as [|[k' v'] o IH]; simpl; [done|].
  destruct (decide (k' = k)) as [->|]; intros H.
  - injection H as ->. apply list_elem_of_here.
  - apply list_elem_of_further. auto.
Qed.

(** ** The copy before the recursive steps *)

Section TranslatorFacts.

Variable ToString : value → string.

Lemma own_foldl_delete ks o k :
  own (foldl js_delete o ks) k = if decide (k ∈ ks) then None else own o k.
Proof.
  revert o. induction ks as [|k0 ks IH]; intros o; simpl.
  - destruct (decide (k ∈ [])) as [Hin|_]; [by apply elem_of_nil in Hin | done].
  - rewrite IH.
    destruct (decide (k ∈ ks)) as [Hin|Hnin];
      destruct (decide (k ∈ k0 :: ks)) as [Hin'|Hnin']; try done.
    + exfalso. auto using list_elem_of_further.
    + apply elem_of_cons in Hin' as [->|Hin']; [|done]. apply own_js_delete_eq.
    + apply own_js_delete_ne. intros ->. apply Hnin', list_elem_of_here.
Qed.

Ltac literal_keys :=
  unfold presentationOnly in *;
  rewrite ?elem_of_cons, ?elem_of_nil in *; naive_solver.

Lemma own_coerceInteger_ne schema jsonSchema k :
  k ≠ "type" → own (coerceInteger schema jsonSchema) k = own jsonSchema k.
Proof.
  intros Hne. unfold coerceInteger.
  destruct (is_str _ _); [|done]. by apply own_js_set_ne.
Qed.

Lemma own_applyNullable_ne schema jsonSchema k :
  k ≠ "type" → own (applyNullable schema jsonSchema) k = own jsonSchema k.
Proof.
  intros Hne. unfold applyNullable.
  destruct (truthy (js_get schema "nullable")); [|done].
  destruct (js_get jsonSchema "type") as [| |b|n|s|ts|ps|a]; simpl;
    repeat match goal with |- context [if ?c then _ else _] => destruct c end;
    try done; by apply own_js_set_ne.
Qed.

Lemma own_prepared_kept schema k :
  k ∉ "type" :: "nullable" :: presentationOnly →
  own (prepared schema) k = own schema k.
Proof.
  intros Hk. unfold prepared, deleteOpenApiKeys.
  rewrite own_applyNullable_ne by (intros ->; apply Hk, list_elem_of_here).
  rewrite own_foldl_delete, decide_False
    by (intros ?; apply Hk; by apply list_elem_of_further).
  apply own_coerceInteger_ne. intros ->. apply Hk, list_elem_of_here.
Qed.

Lemma own_prepared_deleted schema k :
  k ∈ "nullable" :: presentationOnly → own (prepared schema) k = None.
Proof.
  intros Hk. unfold prepared, deleteOpenApiKeys.
  rewrite own_applyNullable_ne.
  - by rewrite own_foldl_delete, decide_True.
  - intros ->. literal_keys.
Qed.

Lemma js_get_coerceInteger_type schema :
  js_get (deleteOpenApiKeys (coerceInteger schema schema)) "type"
  = coerced (js_get schema "type").
Proof.
  unfold js_get at 1. unfold deleteOpenApiKeys.
  rewrite own_foldl_delete, decide_False.
  - unfold coerceInteger, coerced.
    destruct (is_str (js_get schema "type") "integer"); [|done].
    by rewrite own_js_set_eq.
  - literal_keys.
Qed.

Lemma prepared_type_plain schema :
  truthy (js_get schema "nullable") = false →
  js_get (prepared schema) "type" = coerced (js_get schema "type").
Proof.
  intros Hn. unfold prepared, applyNullable. rewrite Hn.
  apply js_get_coerceInteger_type.
Qed.

Lemma prepared_type_nullable schema :
  truthy (js_get schema "nullable") = true →
  js_get (prepared schema) "type" =
    match coerced (js_get schema "type") with
    | VArr ts =>
        if existsb (λ t, is_str t "null") ts then VArr ts
        else VArr (ts ++ [VStr "null"])
    | VStr t => VArr [VStr t; VStr "null"]
    | t => if truthy t then t else VStr "null"
    end.
Proof.
  intros Hn. unfold prepared, applyNullable. rewrite Hn.
  rewrite js_get_coerceInteger_type.
  pose proof (js_get_coerceInteger_type schema) as Hty.
  destruct (coerced (js_get schema "type")) as [| |b|n|s|ts|ps|a]; simpl;
    repeat match goal with |- context [if ?c then _ else _] => destruct c end;
    try done; by rewrite js_get_set_eq.
Qed.

(** *** One call, unfolded *)

Lemma translate_S stack h schema :
  mapOpenApiSchemaToJsonSchema ToString (S stack) h schema =
    if has_key "$ref" schema then Some (unresolved ToString schema)
    else
      jsonSchema ←
        (if is_str (js_get (prepared schema) "type") "object"
            && truthy (js_get (prepared schema) "properties")
         then
           mappedProps ←
             mapProperties (mapOpenApiSchemaToJsonSchema ToString stack h) h
               (Object_entries h (js_get (prepared schema) "properties"));
           Some (js_set (prepared schema) "properties" (VObj mappedProps))
         else Some (prepared schema));
      if is_str (js_get jsonSchema "type") "array" then
        match as_object h (js_get jsonSchema "items") with
        | Some items =>
            r ← mapOpenApiSchemaToJsonSchema ToString stack h items;
            Some (VObj (js_set jsonSchema "items" r))
        | None => Some (VObj jsonSchema)
        end
      else Some (VObj jsonSchema).
Proof. reflexivity. Qed.

(** *** A deeper stack changes no result *)

Lemma foldl_mapProperty_None t h entries :
  foldl (mapProperty t h) None entries = None.
Proof. induction entries as [|e entries IH]; [done|]. simpl. apply IH. Qed.

Lemma mapProperty_mono (t1 t2 : obj → option value) h acc e mp :
  (∀ o r, t1 o = Some r → t2 o = Some r) →
  mapProperty t1 h acc e = Some mp → mapProperty t2 h acc e = Some mp.
Proof.
  intros Ht. unfold mapProperty. destruct acc as [a|]; simpl; [|done].
  destruct (as_object h e.2) as [o|]; [|done].
  destruct (t1 o) as [r|] eqn:E1; simpl; [|done].
  by rewrite (Ht _ _ E1).
Qed.

Lemma mapProperties_mono (t1 t2 : obj → option value) h entries mp :
  (∀ o r, t1 o = Some r → t2 o = Some r) →
  mapProperties t1 h entries = Some mp → mapProperties t2 h entries = Some mp.
Proof.
  intros Ht. unfold mapProperties. generalize (Some [] : option obj) as acc.
  induction entries as [|e entries IH]; intros acc; simpl; [done|].
  destruct (mapProperty t1 h acc e) as [a|] eqn:E.
  - rewrite (mapProperty_mono _ _ _ _ _ _ Ht E). apply IH.
  - by rewrite foldl_mapProperty_None.
Qed.

Lemma translate_mono stack stack' h schema r :
  stack ≤ stack' →
  mapOpenApiSchemaToJsonSchema ToString stack h schema = Some r →
  mapOpenApiSchemaToJsonSchema ToString stack' h schema = Some r.
Proof.
  revert stack' schema r. induction stack as [|stack IH]; intros stack' schema r Hle;
    [done|].
  destruct stack' as [|stack']; [lia|].
  assert (Hrec : ∀ o r', mapOpenApiSchemaToJsonSchema ToString stack h o = Some r' →
                   mapOpenApiSchemaToJsonSchema ToString stack' h o = Some r')
    by (intros; apply IH; [lia | done]).
  rewrite !translate_S. destruct (has_key "$ref" schema); [done|].
  destruct (is_str (js_get (prepared schema) "type") "object"
            && truthy (js_get (prepared schema) "properties")); simpl.
  - destruct (mapProperties _ h _) as [mp|] eqn:E; simpl; [|done].
    rewrite (mapProperties_mono _ _ _ _ _ Hrec E). simpl.
    destruct (is_str _ "array"); [|done].
    destruct (as_object h _) as [items|]; [|done].
    destruct (mapOpenApiSchemaToJsonSchema ToString stack h items) as [ri|] eqn:Ei;
      simpl; [|done].
    by rewrite (Hrec _ _ Ei).
  - destruct (is_str _ "array"); [|done].
    destruct (as_object h _) as [items|]; [|done].
    destruct (mapOpenApiSchemaToJsonSchema ToString stack h items) as [ri|] eqn:Ei;
      simpl; [|done].
    by rewrite (Hrec _ _ Ei).
Qed.

Lemma returns_of_run stack h schema r :
  mapOpenApiSchemaToJsonSchema ToString stack h schema = Some r →
  returns ToString h schema r.
Proof. intros Hrun. exists stack. intros stack' Hle. by eapply translate_mono. Qed.

Lemma returns_functional h schema r1 r2 :
  returns ToString h schema r1 → returns ToString h schema r2 → r1 = r2.
Proof.
  intros [n1 H1] [n2 H2].
  specialize (H1 (n1 `max` n2) ltac:(lia)). specialize (H2 (n1 `max` n2) ltac:(lia)).
  congruence.
Qed.

(** *** Finite trees are translated *)

Lemma max_list_bound ns m : (∀ n, n ∈ ns → n ≤ m) → max_list ns ≤ m.
Proof.
  induction ns as [|n ns IH]; intros Hall; simpl; [lia|].
  apply Nat.max_lub.
  - apply Hall, list_elem_of_here.
  - apply IH. intros n' Hin. by apply Hall, list_elem_of_further.
Qed.

Lemma height_child (o : obj) k v : (k, v) ∈ o → height v < height (VObj o).
Proof.
  intros Hin. simpl. apply Nat.lt_succ_r.
  apply max_list_elem_of_le, list_elem_of_fmap. by exists (k, v).
Qed.

Lemma height_elem (elems : list value) v : v ∈ elems → height v < height (VArr elems).
Proof.
  intros Hin. simpl. apply Nat.lt_succ_r.
  apply max_list_elem_of_le, list_elem_of_fmap. by exists v.
Qed.

Lemma ref_free_child (o : obj) k v :
  ref_free (VObj o) = true → (k, v) ∈ o → ref_free v = true.
Proof.
  simpl. rewrite forallb_forall. intros Hall Hin.
  apply (Hall (k, v)). by apply list_elem_of_In.
Qed.

Lemma ref_free_elem (elems : list value) v :
  ref_free (VArr elems) = true → v ∈ elems → ref_free v = true.
Proof.
  simpl. rewrite forallb_forall. intros Hall Hin. apply Hall. by apply list_elem_of_In.
Qed.

Lemma elem_of_indexed k v elems : (k, v) ∈ indexed elems → v ∈ elems.
Proof.
  unfold indexed. intros (i & x & Heq & Hx)%elem_of_lookup_imap.
  injection Heq as _ ->. by eapply list_elem_of_lookup_2.
Qed.

Lemma elem_of_chars v s : v ∈ chars s → primitive v.
Proof.
  induction s as [|c s IH]; simpl.
  - by intros ?%elem_of_nil.
  - intros [->|?]%elem_of_cons; [done | auto].
Qed.

(** What [as_object] hands to a recursive call is no taller than the value it
    was read from. *)
Lemma as_object_tree h v o :
  ref_free v = true → as_object h v = Some o →
  ref_free (VObj o) = true ∧ height (VObj o) ≤ height v.
Proof.
  intros Hrf Hobj. destruct v as [| |b|n|s|elems|ps|a]; simplify_eq/=.
  - split.
    + apply forallb_forall. intros [k v] Hin%list_elem_of_In%elem_of_indexed.
      rewrite forallb_forall in Hrf. by apply Hrf, list_elem_of_In.
    + apply le_n_S, max_list_bound. intros n (kv & -> & Hin)%list_elem_of_fmap.
      destruct kv as [k v]. apply elem_of_indexed in Hin.
      apply max_list_elem_of_le, list_elem_of_fmap. by exists v.
  - done.
Qed.

Lemma entries_tree h P k v :
  ref_free P = true → (k, v) ∈ Object_entries h P →
  ref_free v = true ∧ height v ≤ height P.
Proof.
  intros Hrf Hin. destruct P as [| |b|n|s|elems|ps|a]; simpl in Hin;
    try (by apply elem_of_nil in Hin); try done.
  - apply elem_of_indexed, elem_of_chars in Hin. by destruct v.
  - apply elem_of_indexed in Hin. split.
    + by eapply ref_free_elem.
    + apply Nat.lt_le_incl. by apply height_elem.
  - split.
    + by eapply ref_free_child.
    + apply Nat.lt_le_incl. by eapply height_child.
Qed.

Lemma js_get_tree (o : obj) k :
  ref_free (VObj o) = true →
  ref_free (js_get o k) = true ∧ height (js_get o k) < height (VObj o).
Proof.
  intros Hrf. unfold js_get. destruct (own o k) as [v|] eqn:E; simpl.
  - apply own_elem_of in E. split; [by eapply ref_free_child | by eapply height_child].
  - split; [done | lia].
Qed.

Lemma mapProperties_total (t : obj → option value) h entries :
  (∀ k v o, (k, v) ∈ entries → as_object h v = Some o → is_Some (t o)) →
  is_Some (mapProperties t h entries).
Proof.
  unfold mapProperties. generalize ([] : obj) as acc.
  induction entries as [|[k v] entries IH]; intros acc Ht; cbn [foldl]; [by eexists|].
  assert (Hstep : ∃ acc', mapProperty t h (Some acc) (k, v) = Some acc').
  { unfold mapProperty. simpl. destruct (as_object h v) as [o|] eqn:E.
    - destruct (Ht k v o) as [r Hr]; [apply list_elem_of_here | done |].
      rewrite Hr. by eexists.
    - destruct v; by eexists. }
  destruct Hstep as [acc' ->]. apply IH.
  intros k' v' o' Hin. apply (Ht k'). by apply list_elem_of_further.
Qed.

Lemma js_get_prepared_kept schema k :
  k ∉ "type" :: "nullable" :: presentationOnly →
  js_get (prepared schema) k = js_get schema k.
Proof. intros Hk. unfold js_get. by rewrite own_prepared_kept. Qed.

Lemma translate_total h schema stack :
  ref_free (VObj schema) = true → height (VObj schema) ≤ stack →
  is_Some (mapOpenApiSchemaToJsonSchema ToString stack h schema).
Proof.
  revert schema. induction stack as [|stack IH]; intros schema Hrf Hh.
  { simpl in Hh. lia. }
  rewrite translate_S. destruct (has_key "$ref" schema); [by eexists|].
  assert (Hrec : ∀ P k v o, ref_free P = true → height P < height (VObj schema) →
            (k, v) ∈ Object_entries h P → as_object h v = Some o →
            is_Some (mapOpenApiSchemaToJsonSchema ToString stack h o)).
  { intros P k v o HP HhP Hin Ho.
    destruct (entries_tree _ _ _ _ HP Hin) as [Hv Hhv].
    destruct (as_object_tree _ _ _ Hv Ho) as [Hrfo Hho].
    apply IH; [done | lia]. }
  assert (Hitems : ∀ o, as_object h (js_get schema "items") = Some o →
            is_Some (mapOpenApiSchemaToJsonSchema ToString stack h o)).
  { intros o Ho. destruct (js_get_tree schema "items" Hrf) as [Hv Hhv].
    destruct (as_object_tree _ _ _ Hv Ho) as [Hrfo Hho].
    apply IH; [done | lia]. }
  rewrite (js_get_prepared_kept schema "properties") by literal_keys.
  destruct (js_get_tree schema "properties" Hrf) as [HP HhP].
  destruct (is_str (js_get (prepared schema) "type") "object"
            && truthy (js_get schema "properties")); simpl.
  - destruct (mapProperties_total (mapOpenApiSchemaToJsonSchema ToString stack h) h
                (Object_entries h (js_get schema "properties"))) as [mp ->].
    { intros k v o. by apply Hrec. }
    simpl. rewrite !js_get_set_ne by done.
    rewrite (js_get_prepared_kept schema "items") by literal_keys.
    destruct (is_str _ "array"); [|by eexists].
    destruct (as_object h _) as [items|] eqn:Ei; [|by eexists].
    destruct (Hitems items) as [r ->]; [done|]. by eexists.
  - rewrite (js_get_prepared_kept schema "items") by literal_keys.
    destruct (is_str _ "array"); [|by eexists].
    destruct (as_object h _) as [items|] eqn:Ei; [|by eexists].
    destruct (Hitems items) as [r ->]; [done|]. by eexists.
Qed.

Lemma tree_returns h schema :
  ref_free (VObj schema) = true → ∃ r, returns ToString h schema r.
Proof.
  intros Hrf.
  destruct (translate_total h schema (height (VObj schema)) Hrf) as [r Hr]; [done|].
  exists r. by eapply returns_of_run.
Qed.

(** *** What a returned node looks like *)

Lemma is_str_true v s : is_str v s = true ↔ v = VStr s.
Proof.
  destruct v; simpl; try (split; congruence).
  rewrite bool_decide_eq_true. split; congruence.
Qed.

Lemma is_str_object_array v : is_str v "object" = true → is_str v "array" = false.
Proof. by intros ->%is_str_true. Qed.

Lemma as_object_None h v : as_object h v = None → primitive v.
Proof. by destruct v. Qed.

Lemma elem_of_upsert (o : obj) k v k' p :
  (k', p) ∈ upsert o k v → (k', p) ∈ o ∨ p = v.
Proof.
  induction o as [|[k0 v0] o IH]; simpl.
  - intros [?|?%elem_of_nil]%elem_of_cons; [right; congruence | done].
  - destruct (decide (k0 = k)) as [->|Hne].
    + intros [?|?]%elem_of_cons; [right; congruence | left; by apply list_elem_of_further].
    + intros [->|Hin]%elem_of_cons; [left; apply list_elem_of_here|].
      destruct (IH Hin); [left; by apply list_elem_of_further | by right].
Qed.

Lemma elem_of_js_set (o : obj) k v k' p :
  (k', p) ∈ js_set o k v → (k', p) ∈ o ∨ p = v.
Proof.
  unfold js_set. destruct (decide _); [destruct (has_key k o)|];
    eauto using elem_of_upsert.
Qed.

Lemma mapProperties_values (Q : value → Prop) (t : obj → option value) h entries mp :
  (∀ o r, t o = Some r → Q r) → (∀ b, Q (VBool b)) →
  mapProperties t h entries = Some mp → ∀ k p, (k, p) ∈ mp → Q p.
Proof.
  intros Ht Hb. unfold mapProperties.
  assert (Hnil : ∀ k p, (k, p) ∈ ([] : obj) → Q p) by (by intros ?? ?%elem_of_nil).
  revert Hnil. generalize ([] : obj) as acc.
  induction entries as [|[k v] entries IH]; intros acc Hacc; cbn [foldl].
  - by intros [= <-].
  - destruct (mapProperty t h (Some acc) (k, v)) as [acc'|] eqn:E;
      [|by rewrite foldl_mapProperty_None].
    apply IH. intros k' p Hin. unfold mapProperty in E. simpl in E.
    destruct (as_object h v) as [o|].
    + destruct (t o) as [r|] eqn:Er; simplify_eq/=.
      apply elem_of_js_set in Hin as [?| ->]; eauto.
    + destruct v; simplify_eq/=; eauto.
      apply elem_of_js_set in Hin as [?| ->]; eauto.
Qed.

Lemma translate_stripped stack h schema r :
  mapOpenApiSchemaToJsonSchema ToString stack h schema = Some r → Stripped r.
Proof.
  revert schema r. induction stack as [|stack IH]; intros schema r; [done|].
  rewrite translate_S. destruct (has_key "$ref" schema).
  { intros [= <-]. apply Stripped_node.
    - intros k Hk. unfold presentationOnly in Hk.
      rewrite !elem_of_cons, elem_of_nil in Hk. by destruct_or!; subst.
    - by intros _ ps k p.
    - done. }
  assert (Hdel : ∀ k (o : obj), k ∈ presentationOnly →
            own o k = own (prepared schema) k → own o k = None).
  { intros k o Hk ->. apply own_prepared_deleted. by apply list_elem_of_further. }
  destruct (is_str (js_get (prepared schema) "type") "object") eqn:Eobj; simpl.
  - apply is_str_object_array in Eobj as Earr.
    destruct (truthy (js_get (prepared schema) "properties")) eqn:Eprops; simpl.
    + destruct (mapProperties _ h _) as [mp|] eqn:Emp; simpl; [|done].
      rewrite js_get_set_ne, Earr by done. intros [= <-]. apply Stripped_node.
      * intros k Hk. apply Hdel; [done|]. apply own_js_set_ne. intros <-. literal_keys.
      * intros _ ps k p. rewrite js_get_set_eq by done. intros [= <-].
        eapply mapProperties_values; [| |exact Emp]; [exact (IH)|].
        intros b. by apply Stripped_primitive.
      * by rewrite js_get_set_ne, Earr by done.
    + rewrite Earr. intros [= <-]. apply Stripped_node.
      * intros k Hk. by apply Hdel.
      * intros _ ps k p Hps. by rewrite Hps in Eprops.
      * by rewrite Earr.
  - destruct (is_str (js_get (prepared schema) "type") "array") eqn:Earr.
    + destruct (as_object h (js_get (prepared schema) "items")) as [items|] eqn:Ei.
      * destruct (mapOpenApiSchemaToJsonSchema ToString stack h items) as [ri|] eqn:Eri;
          simpl; [|done].
        intros [= <-]. apply Stripped_node.
        -- intros k Hk. apply Hdel; [done|]. apply own_js_set_ne. intros <-. literal_keys.
        -- by rewrite js_get_set_ne, Eobj by done.
        -- intros _. rewrite js_get_set_eq by done. by eapply IH.
      * intros [= <-]. apply Stripped_node.
        -- intros k Hk. by apply Hdel.
        -- by rewrite Eobj.
        -- intros _. by eapply Stripped_primitive, as_object_None.
    + intros [= <-]. apply Stripped_node.
      * intros k Hk. by apply Hdel.
      * by rewrite Eobj.
      * by rewrite Earr.
Qed.

(** A node that is no reference comes back as an object whose [type] is the
    one computed before the recursive steps. *)
Lemma translate_type stack h schema r :
  has_key "$ref" schema = false →
  mapOpenApiSchemaToJsonSchema ToString stack h schema = Some r →
  ∃ o, r = VObj o ∧ js_get o "type" = js_get (prepared schema) "type".
Proof.
  intros Href. destruct stack as [|stack]; [done|]. rewrite translate_S, Href.
  destruct (_ && _); simpl.
  - destruct (mapProperties _ h _) as [mp|]; simpl; [|done].
    destruct (is_str _ "array"); [destruct (as_object h _) as [items|]|].
    + destruct (mapOpenApiSchemaToJsonSchema ToString stack h items); simpl; [|done].
      intros [= <-]. eexists; split; [done|]. by rewrite !js_get_set_ne.
    + intros [= <-]. eexists; split; [done|]. by rewrite !js_get_set_ne.
    + intros [= <-]. eexists; split; [done|]. by rewrite !js_get_set_ne.
  - destruct (is_str _ "array"); [destruct (as_object h _) as [items|]|].
    + destruct (mapOpenApiSchemaToJsonSchema ToString stack h items); simpl; [|done].
      intros [= <-]. eexists; split; [done|]. by rewrite !js_get_set_ne.
    + intros [= <-]. by eexists.
    + intros [= <-]. by eexists.
Qed.

(** A node whose [type] is neither ['object'] nor ['array'] after the copy
    needs no nested call. *)
Lemma translate_leaf h schema :
  has_key "$ref" schema = false →
  is_str (js_get (prepared schema) "type") "object" = false →
  is_str (js_get (prepared schema) "type") "array" = false →
  returns ToString h schema (VObj (prepared schema)).
Proof.
  intros Href Hobj Harr. apply (returns_of_run 1).
  rewrite translate_S, Href, Hobj. simpl. by rewrite Harr.
Qed.

End TranslatorFacts.

(** ** The translator's properties *)

Section TranslatorClaims.

Variable ToString : value → string.

Lemma mapProperties_overflow (t : obj → option value) h k v o rest :
  as_object h v = Some o → t o = None → mapProperties t h ((k, v) :: rest) = None.
Proof.
  intros Ho Ht. unfold mapProperties. cbn [foldl]. unfold mapProperty at 2.
  simpl. rewrite Ho, Ht. simpl. apply foldl_mapProperty_None.
Qed.

(** C1.  [mapOpenApiSchemaToJsonSchema] keeps no record of the nodes it is
    working on.  On a schema that holds itself as a property, on two schemas
    that hold each other and on an array schema that is its own item schema,
    every stack is exhausted: the call ends in the engine's stack overflow and
    returns no schema, where the claim (and the changelog entry of 3.1.2)
    promises a terminal open-object schema. *)
Theorem translate_cyclic_schema_overflows :
  overflows ToString selfHeap (selfHeap 0)
  ∧ overflows ToString mutualHeap (mutualHeap 0)
  ∧ overflows ToString listHeap (listHeap 0).
Proof.
  split; [|split].
  - intros stack. induction stack as [|stack IH]; [done|].
    rewrite translate_S.
    change (has_key "$ref" (selfHeap 0)) with false.
    change (prepared (selfHeap 0)) with (selfHeap 0).
    change (is_str (js_get (selfHeap 0) "type") "object"
            && truthy (js_get (selfHeap 0) "properties")) with true.
    change (Object_entries selfHeap (js_get (selfHeap 0) "properties"))
      with [("self", VRef 0)].
    cbv iota. by erewrite mapProperties_overflow.
  - assert (Hboth : ∀ stack,
        mapOpenApiSchemaToJsonSchema ToString stack mutualHeap (mutualHeap 0) = None
        ∧ mapOpenApiSchemaToJsonSchema ToString stack mutualHeap (mutualHeap 1) = None).
    { induction stack as [|stack [IH0 IH1]]; [done|]. split.
      - rewrite translate_S.
        change (has_key "$ref" (mutualHeap 0)) with false.
        change (prepared (mutualHeap 0)) with (mutualHeap 0).
        change (is_str (js_get (mutualHeap 0) "type") "object"
                && truthy (js_get (mutualHeap 0) "properties")) with true.
        change (Object_entries mutualHeap (js_get (mutualHeap 0) "properties"))
          with [("b", VRef 1)].
        cbv iota. by erewrite mapProperties_overflow.
      - rewrite translate_S.
        change (has_key "$ref" (mutualHeap 1)) with false.
        change (prepared (mutualHeap 1)) with (mutualHeap 1).
        change (is_str (js_get (mutualHeap 1) "type") "object"
                && truthy (js_get (mutualHeap 1) "properties")) with true.
        change (Object_entries mutualHeap (js_get (mutualHeap 1) "properties"))
          with [("a", VRef 0)].
        cbv iota. by erewrite mapProperties_overflow. }
    intros stack. apply Hboth.
  - intros stack. induction stack as [|stack IH]; [done|].
    rewrite translate_S.
    change (has_key "$ref" (listHeap 0)) with false.
    change (prepared (listHeap 0)) with (listHeap 0).
    change (is_str (js_get (listHeap 0) "type") "object"
            && truthy (js_get (listHeap 0) "properties")) with false.
    cbv iota. simpl mbind.
    change (is_str (js_get (listHeap 0) "type") "array") with true.
    change (as_object listHeap (js_get (listHeap 0) "items")) with (Some (listHeap 0)).
    cbv iota. by rewrite IH.
Qed.

(** C4, as the code has it.  Whenever a call returns, the six
    presentation-only fields are missing from the returned node, from the
    property schemas of every returned node whose [type] is ['object'] and
    from the item schema of every returned node whose [type] is ['array'];
    and on a schema written as a finite tree the call does return. *)
Theorem translate_strips_presentation_fields h schema :
  (∀ r, returns ToString h schema r → Stripped r)
  ∧ (ref_free (VObj schema) = true → ∃ r, returns ToString h schema r).
Proof.
  split.
  - intros r [n Hn]. eapply translate_stripped. by apply (Hn n).
  - apply tree_returns.
Qed.

(** C6, as the code has it.  A node that declares the type [t] and is no
    reference comes back with [integer] replaced by [number] and any other
    [t] unchanged; this is the whole [type] when the node is not nullable,
    and the first of the two members of the [type] list when it is.  For
    [integer] the returned [type] admits every number, integral or not, and
    no string: the returned node accepts no string, and it accepts a number
    exactly when the keywords the node has besides [type], [nullable] and the
    presentation-only fields, all of them kept, admit that number. *)
Theorem translate_integer_to_number h schema t :
  has_key "$ref" schema = false →
  js_get schema "type" = VStr t →
  (t ≠ "object" ∧ t ≠ "array") ∨ ref_free (VObj schema) = true →
  ∃ r, returns ToString h schema (VObj r)
       ∧ js_get r "type" =
           (let t' := if bool_decide (t = "integer") then "number" else t in
            if truthy (js_get schema "nullable")
            then VArr [VStr t'; VStr "null"] else VStr t')
       ∧ (t = "integer" →
          (∀ n d, typeAdmits (js_get r "type") (INumber n d) = true)
          ∧ (∀ s, typeAdmits (js_get r "type") (IString s) = false)
          ∧ ∀ constraint,
              (∀ s, ¬ accepts constraint r (IString s))
              ∧ ∀ n d,
                  accepts constraint r (INumber n d)
                  ↔ ∀ k v, k ∉ "type" :: "nullable" :: presentationOnly →
                           own schema k = Some v →
                           constraint k v (INumber n d) = true).
Proof.
  intros Href Hty Hfin.
  assert (Hco : coerced (VStr t) = VStr (if bool_decide (t = "integer") then "number" else t)).
  { unfold coerced. simpl. by destruct (bool_decide _). }
  assert (Hprep : js_get (prepared schema) "type" =
            if truthy (js_get schema "nullable")
            then VArr [VStr (if bool_decide (t = "integer") then "number" else t); VStr "null"]
            else VStr (if bool_decide (t = "integer") then "number" else t)).
  { destruct (truthy (js_get schema "nullable")) eqn:En.
    - by rewrite prepared_type_nullable, Hty, Hco.
    - by rewrite prepared_type_plain, Hty, Hco. }
  assert (Hleaf : t ≠ "object" → t ≠ "array" →
            returns ToString h schema (VObj (prepared schema))).
  { intros Ho Ha. apply translate_leaf; [done| |]; rewrite Hprep;
      destruct (truthy _); try done; simpl; apply bool_decide_eq_false;
      case_bool_decide; congruence. }
  assert (Hrun : ∃ r, returns ToString h schema r).
  { destruct Hfin as [[Ho Ha]|Htree]; [|by apply tree_returns].
    eexists. by apply Hleaf. }
  destruct Hrun as [r [n Hn]].
  destruct (translate_type ToString n h schema r Href (Hn n (le_n n))) as (o & -> & Ho).
  exists o. split; [by exists n|]. split; [by rewrite Ho, Hprep|].
  intros ->.
  assert (Heq : o = prepared schema).
  { assert (Hr : returns ToString h schema (VObj (prepared schema)))
      by (by apply Hleaf).
    assert (Hr' : returns ToString h schema (VObj o)) by (by exists n).
    pose proof (returns_functional ToString h schema _ _ Hr' Hr) as Hsame.
    by injection Hsame. }
  assert (Hnumber : ∀ n d, typeAdmits (js_get o "type") (INumber n d) = true).
  { intros n' d. rewrite Ho, Hprep. by destruct (truthy _). }
  assert (Hstring : ∀ s, typeAdmits (js_get o "type") (IString s) = false).
  { intros s. rewrite Ho, Hprep. by destruct (truthy _). }
  split; [done|]. split; [done|]. intros constraint. split.
  - intros s [Htype _]. by rewrite Hstring in Htype.
  - intros n' d. unfold accepts. rewrite Hnumber. subst o. split.
    + intros [_ Hkeys] k v Hk Hv. apply Hkeys.
      * intros ->. apply Hk, list_elem_of_here.
      * by rewrite own_prepared_kept.
    + intros Hkeys. split; [done|]. intros k v Hk Hv.
      destruct (decide (k ∈ "nullable" :: presentationOnly)) as [Hdel|Hkept].
      * by rewrite own_prepared_deleted in Hv.
      * apply Hkeys; [|by rewrite <- own_prepared_kept; [|by apply not_elem_of_cons]].
        by apply not_elem_of_cons.
Qed.


End TranslatorClaims.

(** *** The claims as worded, on small schemas *)

Lemma integer_nullable_result :
  returns noToString emptyHeap sIntegerNullable
    (VObj [("type", VArr [VStr "number"; VStr "null"])]).
Proof. by apply (returns_of_run noToString 1). Qed.

(** C6 as worded fails: a nullable [integer] node comes back with the list
    [['number', 'null']] as its [type], not with ['number']. *)
Lemma integer_nullable_type_is_not_number :
  ∃ r, returns noToString emptyHeap sIntegerNullable (VObj r)
       ∧ js_get r "type" ≠ VStr "number".
Proof. eexists. split; [apply integer_nullable_result | done]. Qed.

(** The keywords kept beside [type] go on constraining: [{ type: 'integer',
    multipleOf: 1 }] comes back as [{ type: 'number', multipleOf: 1 }], which
    accepts the number 3 and not the number 1/2. *)
Example integer_multipleOf_still_integral :
  returns noToString emptyHeap sIntegerMultiple
    (VObj [("type", VStr "number"); ("multipleOf", VNum 1)])
  ∧ accepts multipleOfOnly [("type", VStr "number"); ("multipleOf", VNum 1)] (INumber 3 1)
  ∧ ¬ accepts multipleOfOnly [("type", VStr "number"); ("multipleOf", VNum 1)]
        (INumber 1 2).
Proof.
  split; [by apply (returns_of_run noToString 1)|]. split.
  - split; [done|]. intros k v Hk Hv. simpl in Hv.
    rewrite decide_False in Hv by done.
    destruct (decide ("multipleOf" = k)) as [<-|Hne]; [|done].
    by injection Hv as <-.
  - intros [_ Hkeys]. by specialize (Hkeys "multipleOf" (VNum 1) ltac:(done) eq_refl).
Qed.


(** C4 as worded fails: a node with [properties] and no [type] keeps its
    property schemas as they are, [example] included. *)
Lemma untyped_properties_keep_example :
  ∃ r, returns noToString emptyHeap sUntyped r ∧ ¬ DeepStripped r.
Proof.
  exists (VObj sUntyped). split; [by apply (returns_of_run noToString 1)|].
  intros HD. inversion HD as [v Hprim|o Hkeys Hprops Hitems]; subst; [done|].
  specialize (Hprops _ "a" _ eq_refl (list_elem_of_here _ _)).
  inversion Hprops as [v Hprim|o Hkeys' _ _]; subst; [done|].
  specialize (Hkeys' "example" (list_elem_of_here _ _)). done.
Qed.

(** A nullable object node is returned with the list [['object', 'null']] as
    its [type] and with its property schemas as they were. *)
Example nullable_object_properties_untouched :
  returns noToString emptyHeap sNullableObject
    (VObj [("type", VArr [VStr "object"; VStr "null"]);
           ("properties",
            VObj [("a", VObj [("type", VStr "string"); ("example", VStr "x")])])]).
Proof. by apply (returns_of_run noToString 1). Qed.

Lemma translate_strips_presentation_fields_witness :
  Stripped (VObj [("type", VStr "object");
                  ("properties", VObj [("n", VObj [("type", VStr "number")])])]).
Proof.
  apply (proj1 (translate_strips_presentation_fields noToString emptyHeap sPlainObject)).
  by apply (returns_of_run noToString 2).
Defined.

Lemma translate_integer_to_number_witness :
  ∃ r, returns noToString emptyHeap sIntegerNullable (VObj r)
       ∧ js_get r "type" = VArr [VStr "number"; VStr "null"]
       ∧ typeAdmits (js_get r "type") (INumber 1 2) = true
       ∧ typeAdmits (js_get r "type") (IString "1") = false.
Proof.
  destruct (translate_integer_to_number noToString emptyHeap sIntegerNullable "integer")
    as (r & Hreturns & Htype & Hadmits);
    [reflexivity | reflexivity | left; split; discriminate |].
  destruct (Hadmits eq_refl) as (Hnumber & Hstring & _).
  exists r. split; [exact Hreturns|]. split; [exact Htype|].
  split; [apply Hnumber | apply Hstring].
Defined.


(** ** The name loop *)

Lemma append_inj_r (s a b : string) : s +:+ a = s +:+ b → a = b.
Proof. induction s as [|c s IH]; simpl; [done|]. intros [= ?]. auto. Qed.

Lemma append_ne_self (s a : string) : a ≠ "" → s +:+ a ≠ s.
Proof.
  intros Ha. induction s as [|c s IH]; simpl; [done|]. intros [= ?]. auto.
Qed.

Lemma suffixed_inj baseName j k : suffixed baseName j = suffixed baseName k → j = k.
Proof.
  unfold suffixed. intros H. apply append_inj_r in H.
  apply (append_inj_r "_") in H. exact (pretty_nat_inj _ _ H).
Qed.

Lemma suffixed_ne_base baseName k : suffixed baseName k ≠ baseName.
Proof. unfold suffixed. by apply append_ne_self. Qed.

(** What the loop leaves in [finalToolName]. *)
Lemma resolveName_spec rounds usedNames baseName finalToolName counter r :
  resolveName rounds usedNames baseName finalToolName counter = Some r →
  (r ∉ usedNames)
  ∧ (((finalToolName ∉ usedNames) ∧ r = finalToolName)
     ∨ (finalToolName ∈ usedNames
        ∧ ∃ k, counter ≤ k ∧ r = suffixed baseName k
               ∧ ∀ j, counter ≤ j < k → suffixed baseName j ∈ usedNames)).
Proof.
  revert finalToolName counter.
  induction rounds as [|rounds IH]; intros finalToolName counter; simpl; [done|].
  destruct (decide (finalToolName ∈ usedNames)) as [Hin|Hnin].
  - intros Hrec. destruct (IH _ _ Hrec) as [Hr [[Hfree ->]|[Hused (k & Hk & -> & Hbelow)]]].
    + split; [done|]. right. split; [done|]. exists counter.
      split; [lia|]. split; [done|]. intros j ?; lia.
    + split; [done|]. right. split; [done|]. exists k.
      split; [lia|]. split; [done|]. intros j Hj.
      destruct (decide (j = counter)) as [->|]; [done|]. apply Hbelow. lia.
  - intros [= <-]. split; [done|]. by left.
Qed.

(** When the rounds run out, every name tried was taken. *)
Lemma resolveName_None rounds usedNames baseName finalToolName counter :
  resolveName rounds usedNames baseName finalToolName counter = None →
  (0 < rounds → finalToolName ∈ usedNames)
  ∧ ∀ j, counter ≤ j < counter + (rounds - 1) → suffixed baseName j ∈ usedNames.
Proof.
  revert finalToolName counter.
  induction rounds as [|rounds IH]; intros finalToolName counter; simpl.
  { intros _. split; intros; lia. }
  destruct (decide (finalToolName ∈ usedNames)) as [Hin|Hnin]; [|done].
  intros Hrec. destruct (IH _ _ Hrec) as [Hcur Hbelow].
  split; [done|]. intros j Hj.
  destruct (decide (j = counter)) as [->|]; [apply Hcur; lia|].
  apply Hbelow. lia.
Qed.

(** More rounds than names in use are enough. *)
Lemma resolveName_enough rounds usedNames baseName :
  size usedNames < rounds →
  is_Some (resolveName rounds usedNames baseName baseName 1).
Proof.
  intros Hsize.
  destruct (resolveName rounds usedNames baseName baseName 1) as [r|] eqn:E; [by eexists|].
  exfalso. apply resolveName_None in E as [Hbase Hall].
  set (tried := baseName :: (suffixed baseName <$> seq 1 (size usedNames))).
  assert (Hdup : NoDup tried).
  { apply NoDup_cons. split.
    - intros (k & Hk & _)%list_elem_of_fmap. symmetry in Hk.
      by apply suffixed_ne_base in Hk.
    - apply NoDup_fmap_2; [|apply NoDup_seq].
      intros j k. apply suffixed_inj. }
  assert (Hsub : ∀ x, x ∈ tried → x ∈ usedNames).
  { intros x [->|(k & -> & Hk%elem_of_seq)%list_elem_of_fmap]%elem_of_cons.
    - apply Hbase. lia.
    - apply Hall. lia. }
  assert (Hle : length tried ≤ size usedNames).
  { rewrite <- (size_list_to_set (C := gset string) tried) by done.
    apply subseteq_size. intros x Hx%elem_of_list_to_set. auto. }
  unfold tried in Hle. simpl in Hle. rewrite length_fmap, length_seq in Hle. lia.
Qed.

(** More rounds change no result. *)
Lemma resolveName_mono rounds rounds' usedNames baseName finalToolName counter r :
  rounds ≤ rounds' →
  resolveName rounds usedNames baseName finalToolName counter = Some r →
  resolveName rounds' usedNames baseName finalToolName counter = Some r.
Proof.
  revert rounds' finalToolName counter.
  induction rounds as [|rounds IH]; intros rounds' finalToolName counter Hle; [done|].
  destruct rounds' as [|rounds']; [lia|]. simpl.
  destruct (decide (finalToolName ∈ usedNames)); [|done]. apply IH. lia.
Qed.

(** ** The two loops of [extractToolsFromApi] as one pass over the visits *)

Section ExtractorFacts.

Variable ToString : value → string.
Variable generateOperationId : string → string → string.
Variables (rounds stack : nat) (h : heap).

Local Abbreviation visit_step := (visit_step ToString generateOperationId rounds stack h).

Lemma extract_as_visits (api : Document) st :
  foldl (extractPath ToString generateOperationId rounds stack h) st
    (default [] (paths api))
  = foldl visit_step st (visits api).
Proof.
  unfold visits. revert st.
  induction (default [] (paths api)) as [|[p item] entries IH]; intros st; [done|].
  cbn [foldl]. rewrite IH, bind_cons, foldl_app. f_equal.
  unfold extractPath. cbn [fst snd]. destruct item as [pathItem|]; [|done].
  by rewrite foldl_fmap.
Qed.

Lemma visit_step_None visits : foldl visit_step None visits = None.
Proof. induction visits as [|v visits IH]; [done|]. simpl. apply IH. Qed.

(** One visit either leaves the state alone or appends one tool, named
    against the names in use. *)
Lemma visit_step_spec tools usedNames visit tools' usedNames' :
  visit_step (Some (tools, usedNames)) visit = Some (tools', usedNames') →
  usedNames = list_to_set (name <$> tools) →
  (tools' = tools ∧ usedNames' = usedNames
   ∧ namedOperation generateOperationId visit = None)
  ∨ (∃ t, tools' = tools ++ [t] ∧ usedNames' = {[name t]} ∪ usedNames
          ∧ resolved_against (name <$> tools) t
          ∧ namedOperation generateOperationId visit
            = Some (path t, method t, operationId t)).
Proof.
  destruct visit as [[p pathItem] m]. unfold visit_step, extractOperation, namedOperation.
  simpl. intros Hstep Hused. destruct (assoc pathItem m) as [operation|]; simpl in *.
  2:{ left. by simplify_eq. }
  destruct (decide (default (generateOperationId m p)
                      (nonempty (op_operationId operation)) = "")) as [Hempty|Hbase].
  { left. by simplify_eq. }
  destruct (resolveName _ _ _ _ _) as [finalToolName|] eqn:Eres; simpl in Hstep; [|done].
  destruct (generateInputSchema _ _ _ _) as [[[schema ps] body]|]; simpl in Hstep; [|done].
  injection Hstep as <- <-. right. eexists. split; [done|]. split; [done|].
  split; [|done]. simpl.
  assert (Hmem : ∀ x, x ∈ usedNames ↔ x ∈ name <$> tools)
    by (intros x; subst usedNames; apply elem_of_list_to_set).
  apply resolveName_spec in Eres as [Hfresh [[Hfree ->]|[Htaken (k & Hk & -> & Hbelow)]]].
  - unfold resolved_against. simpl. rewrite <- !Hmem. split; [done|]. split; [done|done].
  - unfold resolved_against. simpl. rewrite <- !Hmem. split; [done|]. split; [|done].
    intros _. exists k. split; [done|]. split; [done|]. intros j Hj.
    rewrite <- Hmem. by apply Hbelow.
Qed.

Lemma snoc_split {A} (l : list A) x pre y post :
  l ++ [x] = pre ++ y :: post →
  (post = [] ∧ pre = l ∧ y = x) ∨ (∃ post', post = post' ++ [x] ∧ l = pre ++ y :: post').
Proof.
  destruct post as [|z post _] using rev_ind.
  - intros [-> ->]%app_inj_tail. by left.
  - rewrite app_comm_cons, app_assoc. intros [-> ->]%app_inj_tail. right. by eexists.
Qed.

Lemma named_in_order_nil : named_in_order [].
Proof.
  split; [apply NoDup_nil_2|]. intros pre t post H. by destruct pre.
Qed.

Lemma named_in_order_snoc tools t :
  named_in_order tools → resolved_against (name <$> tools) t →
  named_in_order (tools ++ [t]).
Proof.
  intros [Hdup Hsplit] Ht. split.
  - rewrite fmap_app. apply NoDup_app. split; [done|]. split.
    + intros x Hx [->|?%elem_of_nil]%elem_of_cons; [|done]. by apply Ht in Hx.
    + apply NoDup_singleton.
  - intros pre t' post [(-> & -> & ->)|(post' & -> & ->)]%snoc_split; [done|].
    by eapply Hsplit.
Qed.

Lemma visits_pass_spec visits tools usedNames tools' usedNames' :
  foldl visit_step (Some (tools, usedNames)) visits = Some (tools', usedNames') →
  usedNames = list_to_set (name <$> tools) →
  named_in_order tools →
  named_in_order tools'
  ∧ (λ t, (path t, method t, operationId t)) <$> tools'
    = ((λ t, (path t, method t, operationId t)) <$> tools)
      ++ omap (namedOperation generateOperationId) visits.
Proof.
  revert tools usedNames.
  induction visits as [|v visits IH]; intros tools usedNames; cbn [foldl].
  { intros [= <- <-] _ Hinv. split; [done|]. by rewrite app_nil_r. }
  destruct (visit_step (Some (tools, usedNames)) v) as [[tools1 used1]|] eqn:Estep;
    [|by rewrite visit_step_None].
  intros Hrest Hused Hinv.
  destruct (visit_step_spec _ _ _ _ _ Estep Hused)
    as [(-> & -> & Hnone)|(t & -> & -> & Hres & Hsome)].
  - destruct (IH _ _ Hrest Hused Hinv) as [Hinv' Horder]. split; [done|].
    rewrite Horder. simpl. by rewrite Hnone.
  - destruct (IH _ _ Hrest) as [Hinv' Horder].
    + rewrite fmap_app, list_to_set_app_L. simpl. rewrite Hused. set_solver.
    + by apply named_in_order_snoc.
    + split; [done|]. rewrite Horder. simpl. rewrite Hsome, fmap_app. simpl.
      by rewrite <- app_assoc.
Qed.

(** The pass needs more rounds than there are visits, and every input
    schema it assembles must fit the stack. *)
Lemma visits_pass_total visits tools usedNames :
  size usedNames + length visits < rounds →
  (∀ p pathItem m operation,
     (p, pathItem, m) ∈ visits → assoc pathItem m = Some operation →
     is_Some (generateInputSchema ToString stack h operation)) →
  is_Some (foldl visit_step (Some (tools, usedNames)) visits).
Proof.
  revert tools usedNames.
  induction visits as [|[[p pathItem] m] visits IH]; intros tools usedNames Hsize Hgen;
    cbn [foldl]; [by eexists|].
  simpl in Hsize.
  assert (Hgen' : ∀ p pathItem m operation,
            (p, pathItem, m) ∈ visits → assoc pathItem m = Some operation →
            is_Some (generateInputSchema ToString stack h operation)).
  { intros ???? Hin. eapply Hgen. by apply list_elem_of_further. }
  unfold visit_step at 2, extractOperation. simpl.
  destruct (assoc pathItem m) as [operation|] eqn:Eop; simpl; [|apply IH; [lia|done]].
  destruct (decide (_ = "")); [apply IH; [lia|done]|].
  destruct (resolveName_enough rounds usedNames
              (default (generateOperationId m p) (nonempty (op_operationId operation))))
    as [finalToolName Hres]; [lia|].
  rewrite Hres. simpl.
  destruct (Hgen p pathItem m operation) as [[[schema ps] body] ->];
    [apply list_elem_of_here | done |].
  simpl. apply IH; [|done].
  apply resolveName_spec in Hres as [Hfresh _].
  rewrite size_union, size_singleton by set_solver. lia.
Qed.

End ExtractorFacts.

Section ExtractorRounds.

Variable ToString : value → string.
Variable generateOperationId : string → string → string.
Variables (stack : nat) (h : heap).

Lemma visit_step_mono rounds rounds' st visit st' :
  rounds ≤ rounds' →
  visit_step ToString generateOperationId rounds stack h st visit = Some st' →
  visit_step ToString generateOperationId rounds' stack h st visit = Some st'.
Proof.
  intros Hle. unfold visit_step, extractOperation.
  destruct st as [[tools usedNames]|]; simpl; [|done].
  destruct (assoc visit.1.2 visit.2) as [operation|]; [|done].
  destruct (decide (_ = "")); [done|].
  destruct (resolveName rounds _ _ _ _) as [finalToolName|] eqn:Eres; simpl; [|done].
  by rewrite (resolveName_mono _ _ _ _ _ _ _ Hle Eres).
Qed.

Lemma visits_pass_mono rounds rounds' visits st st' :
  rounds ≤ rounds' →
  foldl (visit_step ToString generateOperationId rounds stack h) st visits = Some st' →
  foldl (visit_step ToString generateOperationId rounds' stack h) st visits = Some st'.
Proof.
  intros Hle. revert st. induction visits as [|v visits IH]; intros st; cbn [foldl]; [done|].
  destruct (visit_step ToString generateOperationId rounds stack h st v) as [st1|] eqn:E.
  - rewrite (visit_step_mono _ _ _ _ _ Hle E). apply IH.
  - by rewrite visit_step_None.
Qed.

Lemma extractToolsFromApi_mono rounds rounds' api tools :
  rounds ≤ rounds' →
  extractToolsFromApi ToString generateOperationId rounds stack h api = Some tools →
  extractToolsFromApi ToString generateOperationId rounds' stack h api = Some tools.
Proof.
  intros Hle. unfold extractToolsFromApi.
  pose proof (extract_as_visits ToString generateOperationId rounds stack h api) as Hflat.
  pose proof (extract_as_visits ToString generateOperationId rounds' stack h api) as Hflat'.
  destruct (paths api) as [entries|]; [|done]. simpl in *.
  rewrite Hflat, Hflat'.
  destruct (foldl (visit_step _ _ rounds _ _) _ _) as [st|] eqn:E; [|done].
  by rewrite (visits_pass_mono _ _ _ _ _ Hle E).
Qed.

End ExtractorRounds.


(** ** Properties of the extractor, the assembler and the base URL *)

Section CompilerClaims.

Variable ToString : value → string.
Variable generateOperationId : string → string → string.

Lemma addParameter_total stack h params st :
  (∀ param schema, param ∈ params → param_schema param = Some schema →
     schema_fits stack schema) →
  is_Some (foldl (addParameter ToString stack h) (Some st) params).
Proof.
  revert st. induction params as [|p params IH]; intros [properties required] Hfit;
    cbn [foldl]; [by eexists|].
  assert (Hstep : ∃ st1, addParameter ToString stack h (Some (properties, required)) p
                         = Some st1).
  { unfold addParameter. simpl.
    destruct (nonempty (param_name p)); [|by eexists].
    destruct (param_schema p) as [schema|] eqn:Eschema; [|by eexists].
    destruct (Hfit p schema (list_elem_of_here _ _) Eschema) as [Htree Hheight].
    destruct (translate_total ToString h schema stack Htree Hheight) as [r ->].
    by eexists. }
  destruct Hstep as [st1 ->]. apply IH.
  intros param schema Hin. apply Hfit. by apply list_elem_of_further.
Qed.

(** The assembler returns on an operation whose schemas are finite trees that
    fit the stack. *)
Lemma generateInputSchema_total stack h operation :
  operation_fits stack operation →
  is_Some (generateInputSchema ToString stack h operation).
Proof.
  intros [Hparams Hbody]. unfold generateInputSchema.
  destruct (addParameter_total stack h (default [] (op_parameters operation)) ([], []))
    as [[properties required] ->]; [done|].
  simpl. unfold addRequestBody.
  destruct (op_requestBody operation) as [body|] eqn:Ebody; [|by eexists].
  destruct (body_content body) as [content|] eqn:Econtent; simpl; [|by eexists].
  destruct (assoc content "application/json") as [media|] eqn:Emedia; simpl.
  - destruct (media_schema media) as [schema|] eqn:Eschema.
    + destruct (Hbody body content media schema) as [Htree Hheight]; try done.
      destruct (translate_total ToString h schema stack Htree Hheight) as [r ->].
      by eexists.
    + destruct content as [|[contentType first] rest]; by eexists.
  - destruct content as [|[contentType first] rest]; by eexists.
Qed.

Lemma extractToolsFromApi_total api rounds stack h :
  length (visits api) < rounds →
  (∀ p pathItem m operation,
     (p, pathItem, m) ∈ visits api → assoc pathItem m = Some operation →
     is_Some (generateInputSchema ToString stack h operation)) →
  is_Some (extractToolsFromApi ToString generateOperationId rounds stack h api).
Proof.
  pose proof (extract_as_visits ToString generateOperationId rounds stack h api) as Hflat.
  unfold extractToolsFromApi. intros Hrounds Hgen.
  destruct (visits_pass_total ToString generateOperationId rounds stack h
              (visits api) [] ∅) as [[tools used] Hpass].
  - rewrite size_empty. lia.
  - done.
  - rewrite <- Hflat in Hpass. destruct (paths api) as [entries|]; simpl in *.
    + rewrite Hpass. by eexists.
    + by eexists.
Qed.

(** The extractor returns on a description whose schemas are finite trees
    that fit the stack, once the name loop is allowed more rounds than there
    are visits. *)
Lemma extractToolsFromApi_returns_on_trees api rounds stack h :
  length (visits api) < rounds →
  (∀ p pathItem m operation,
     (p, pathItem, m) ∈ visits api → assoc pathItem m = Some operation →
     operation_fits stack operation) →
  is_Some (extractToolsFromApi ToString generateOperationId rounds stack h api).
Proof.
  intros Hrounds Hfit. apply extractToolsFromApi_total; [done|].
  intros p pathItem m operation Hin Hop. apply generateInputSchema_total. eauto.
Qed.

(** C3.  The tools come out in visiting order (paths as listed, methods in
    the order of [HttpMethods]), one for each operation that has a base name;
    their names are pairwise different; a tool whose base name was not given
    before carries it, and any other carries the base name with [_k] for the
    least [k >= 1] whose name was not given before; the list does not depend
    on the number of rounds the name loop is allowed.  The run returns the
    list once that number exceeds the number of visits, provided the input
    schemas it assembles on the way fit the stack. *)
Theorem extractToolsFromApi_names api rounds stack h :
  (∀ tools,
     extractToolsFromApi ToString generateOperationId rounds stack h api = Some tools →
     NoDup (name <$> tools)
     ∧ (λ t, (path t, method t, operationId t)) <$> tools
       = namedOperations generateOperationId api
     ∧ (∀ pre t post, tools = pre ++ t :: post → resolved_against (name <$> pre) t)
     ∧ ∀ rounds', rounds ≤ rounds' →
         extractToolsFromApi ToString generateOperationId rounds' stack h api = Some tools)
  ∧ (length (visits api) < rounds →
     (∀ p pathItem m operation,
        (p, pathItem, m) ∈ visits api → assoc pathItem m = Some operation →
        is_Some (generateInputSchema ToString stack h operation)) →
     is_Some (extractToolsFromApi ToString generateOperationId rounds stack h api)).
Proof.
  pose proof (extract_as_visits ToString generateOperationId rounds stack h api) as Hflat.
  split.
  - intros tools Hrun.
    assert (Hmono : ∀ rounds', rounds ≤ rounds' →
              extractToolsFromApi ToString generateOperationId rounds' stack h api
              = Some tools)
      by (intros rounds' Hle; by eapply extractToolsFromApi_mono).
    unfold extractToolsFromApi, namedOperations in *.
    assert (Hpass : ∃ usedNames,
              foldl (visit_step ToString generateOperationId rounds stack h)
                (Some ([], ∅)) (visits api) = Some (tools, usedNames)).
    { rewrite <- Hflat. destruct (paths api) as [entries|]; simpl in *.
      - destruct (foldl _ _ entries) as [[tools' used]|]; simplify_eq/=. by eexists.
      - simplify_eq. by eexists. }
    destruct Hpass as [usedNames Hpass].
    destruct (visits_pass_spec ToString generateOperationId rounds stack h
                _ _ _ _ _ Hpass) as [[Hdup Hres] Horder].
    + done.
    + apply named_in_order_nil.
    + done.
  - apply extractToolsFromApi_total.
Qed.

Lemma is_Some_own_upsert (o : obj) k v n :
  is_Some (own o n) → is_Some (own (upsert o k v) n).
Proof.
  intros Hn. destruct (decide (k = n)) as [->|Hne].
  - rewrite own_upsert_eq. by eexists.
  - by rewrite own_upsert_ne.
Qed.

Lemma is_Some_own_js_set (o : obj) k v n :
  is_Some (own o n) → is_Some (own (js_set o k v) n).
Proof.
  intros Hn. unfold js_set.
  destruct (decide _); [destruct (has_key k o)|]; auto using is_Some_own_upsert.
Qed.

Lemma required_are_keys_set properties required k v :
  required_are_keys (properties, required) →
  required_are_keys (js_set properties k v, required)
  ∧ required_are_keys (js_set properties k v, required ++ [k]).
Proof.
  intros Hinv. split.
  - intros n Hn Hne. apply is_Some_own_js_set. by apply Hinv.
  - intros n [Hn| ->%list_elem_of_singleton]%elem_of_app Hne; simpl.
    + apply is_Some_own_js_set. by apply Hinv.
    + rewrite own_js_set_eq by done. by eexists.
Qed.

Lemma addParameter_None stack h params :
  foldl (addParameter ToString stack h) None params = None.
Proof. induction params as [|p params IH]; [done|]. simpl. apply IH. Qed.

Lemma addParameter_keys stack h params st st' :
  foldl (addParameter ToString stack h) (Some st) params = Some st' →
  required_are_keys st → required_are_keys st'.
Proof.
  revert st. induction params as [|p params IH]; intros [properties required]; cbn [foldl].
  { by intros [= <-]. }
  destruct (addParameter ToString stack h (Some (properties, required)) p)
    as [st1|] eqn:E; [|by rewrite addParameter_None].
  intros Hrest Hinv. apply (IH _ Hrest). unfold addParameter in E. simpl in E.
  destruct (nonempty (param_name p)) as [pname|]; [|by simplify_eq].
  destruct (param_schema p) as [schema|]; [|by simplify_eq].
  destruct (mapOpenApiSchemaToJsonSchema ToString stack h schema) as [r|];
    simplify_eq/=.
  destruct (param_required p); by apply required_are_keys_set.
Qed.

Lemma addRequestBody_keys stack h st body st' :
  addRequestBody ToString stack h st body = Some st' →
  required_are_keys st → required_are_keys st'.
Proof.
  destruct st as [properties required]. unfold addRequestBody.
  destruct body as [opRequestBody|]; [|by intros [= <-]].
  destruct (_ ≫= media_schema) as [schema|].
  - destruct (mapOpenApiSchemaToJsonSchema ToString stack h schema) as [r|];
      simpl; [|done].
    intros [= <-] Hinv. destruct (body_required opRequestBody);
      by apply required_are_keys_set.
  - destruct (body_content opRequestBody) as [[|[contentType media] rest]|];
      try (by intros [= <-]).
    intros [= <-] Hinv. destruct (body_required opRequestBody);
      by apply required_are_keys_set.
Qed.

Lemma requiredNames_objectSchema properties required :
  requiredNames (objectSchema properties required) = required.
Proof.
  unfold objectSchema, requiredNames. destruct required as [|n required]; [done|].
  change (js_get _ "required") with (VArr (VStr <$> n :: required)).
  generalize (n :: required) as l. induction l as [|x l IH]; [done|].
  csimpl. by rewrite IH.
Qed.

Lemma propertyKeys_objectSchema properties required :
  propertyKeys (objectSchema properties required) = properties.*1.
Proof. done. Qed.

Lemma elem_of_keys (o : obj) n : is_Some (own o n) → n ∈ o.*1.
Proof.
  intros [v Hv%own_elem_of]. apply list_elem_of_fmap. by exists (n, v).
Qed.

(** Every name in the [required] list of an assembled input contract, other
    than [__proto__], is a key of its [properties] map. *)
Lemma generateInputSchema_required_keys stack h operation schema ps body :
  generateInputSchema ToString stack h operation = Some (schema, ps, body) →
  ∀ n, n ∈ requiredNames schema → n ≠ "__proto__" → n ∈ propertyKeys schema.
Proof.
  unfold generateInputSchema.
  destruct (foldl _ _ _) as [st|] eqn:Eparams; simpl; [|done].
  destruct (addRequestBody ToString stack h st _) as [[properties required]|] eqn:Ebody;
    simpl; [|done].
  intros [= <- ? ?] n. rewrite requiredNames_objectSchema, propertyKeys_objectSchema.
  intros Hn Hne. apply elem_of_keys.
  eapply (addRequestBody_keys _ _ _ _ _ Ebody); [|exact Hn|exact Hne].
  eapply addParameter_keys; [exact Eparams|]. by intros ? ?%elem_of_nil.
Qed.

(** C10.  An override that is not empty wins, then the only declared server
    when its URL is not empty, then the first of several; in each case the
    result is the chosen URL without its final ['/'], if it has one, and
    unchanged otherwise.  Without an override and without a declared server
    the result is [null]. *)
Theorem determineBaseUrl_strips_one_slash api cmdLineBaseUrl :
  (∀ url, cmdLineBaseUrl = Some url → url ≠ "" →
     determineBaseUrl api cmdLineBaseUrl = Some (stripTrailingSlash url))
  ∧ (nonempty cmdLineBaseUrl = None →
     (∀ server, servers api = Some [server] → server_url server ≠ "" →
        determineBaseUrl api cmdLineBaseUrl
        = Some (stripTrailingSlash (server_url server)))
     ∧ (∀ server second others, servers api = Some (server :: second :: others) →
          determineBaseUrl api cmdLineBaseUrl
          = Some (stripTrailingSlash (server_url server)))
     ∧ (servers api = None ∨ servers api = Some [] →
          determineBaseUrl api cmdLineBaseUrl = None))
  ∧ (∀ url, stripTrailingSlash (url +:+ "/") = url)
  ∧ (∀ url, (∀ u, url ≠ u +:+ "/") → stripTrailingSlash url = url).
Proof.
  split; [|split; [|split]].
  - intros url -> Hne. unfold determineBaseUrl. simpl. by rewrite decide_False.
  - intros Hno. unfold determineBaseUrl. rewrite Hno. split; [|split].
    + intros server -> Hne. by rewrite decide_False.
    + by intros server second others ->.
    + by intros [->| ->].
  - intros url. induction url as [|c url IH]; [done|]. simpl.
    rewrite IH. destruct url; simpl; by rewrite andb_false_r.
  - intros url. induction url as [|c url IH]; intros Hno; [done|]. simpl.
    destruct (bool_decide (c = "/"%char) && bool_decide (url = "")) eqn:E.
    + apply andb_prop in E as [->%bool_decide_eq_true ->%bool_decide_eq_true].
      by destruct (Hno "").
    + rewrite IH; [done|]. intros u ->. by apply (Hno (String c u)).
Qed.

End CompilerClaims.

(** C5.  A required parameter named [__proto__] is pushed to [required], but
    the assignment [properties['__proto__'] = paramSchema] reaches the
    inherited setter and leaves [properties] without that key: the assembled
    contract requires a name that its [properties] map does not have. *)
Theorem generateInputSchema_required_proto_not_a_key :
  ∃ schema,
    generateInputSchema noToString 1 emptyHeap protoOperation
    = Some (schema, [protoParameter], None)
    ∧ requiredNames schema = ["__proto__"]
    ∧ propertyKeys schema = [].
Proof. eexists. split; [reflexivity|]. split; reflexivity. Qed.

Example usersApi_names :
  (λ t, (name t, method t, path t)) <$>
    default [] (extractToolsFromApi noToString methodAndPath 10 5 emptyHeap usersApi)
  = [("user", "get", "/users/{id}"); ("user_1", "delete", "/users/{id}");
     ("user_2", "get", "/people/{id}")].
Proof. vm_compute. reflexivity. Qed.

Lemma extractToolsFromApi_names_witness :
  is_Some (extractToolsFromApi noToString methodAndPath 30 5 emptyHeap usersApi)
  ∧ ∀ tools,
      extractToolsFromApi noToString methodAndPath 30 5 emptyHeap usersApi = Some tools →
      NoDup (name <$> tools).
Proof.
  pose proof (extractToolsFromApi_names noToString methodAndPath usersApi 30 5 emptyHeap)
    as [Hnames Hruns].
  split.
  - apply Hruns.
    + vm_compute. lia.
    + intros p pathItem m operation Hin Hop.
      assert (Hop' : operation = getUser).
      { set (l := visits usersApi) in Hin. vm_compute in l. subst l.
        rewrite !elem_of_cons, elem_of_nil in Hin.
        destruct_or!; simplify_eq; vm_compute in Hop; by simplify_eq. }
      subst operation. vm_compute. by eexists.
  - intros tools Hrun. exact (proj1 (Hnames tools Hrun)).
Defined.

Lemma determineBaseUrl_strips_one_slash_witness :
  determineBaseUrl usersApi None = Some "https://api.example.com".
Proof.
  destruct (determineBaseUrl_strips_one_slash usersApi None) as (_ & Hservers & _).
  destruct (Hservers eq_refl) as (Hsingle & _).
  exact (Hsingle {| server_url := "https://api.example.com/" |} eq_refl
           ltac:(discriminate)).
Defined.

(** ** Properties of the generated server *)

Lemma append_cons c (s t : string) : String c s +:+ t = String c (s +:+ t).
Proof. reflexivity. Qed.

Lemma take_drop_string n s : take_string n s +:+ drop_string n s = s.
Proof.
  revert s. induction n as [|n IH]; intros [|c s]; try done.
  cbn [take_string drop_string]. by rewrite append_cons, IH.
Qed.

Lemma take_string_all n s : String.length s ≤ n → take_string n s = s.
Proof.
  revert s. induction n as [|n IH]; intros [|c s]; simpl; try done; [lia|].
  intros Hle. rewrite IH; [done | lia].
Qed.

Lemma take_string_length n s : n ≤ String.length s → String.length (take_string n s) = n.
Proof.
  revert s. induction n as [|n IH]; intros [|c s]; simpl; try done; [lia|].
  intros Hle. rewrite IH; [done | lia].
Qed.

Lemma append_empty_r (s : string) : s +:+ "" = s.
Proof. induction s as [|c s IH]; [done|]. by rewrite append_cons, IH. Qed.

Lemma truncated_spec r :
  (String.length r ≤ 200 → truncated r = r)
  ∧ (200 < String.length r →
     ∃ kept rest, r = kept +:+ rest ∧ String.length kept = 200
                  ∧ truncated r = kept +:+ "...").
Proof.
  unfold truncated, MAX_LEN. split; intros Hlen.
  - rewrite take_string_all by done.
    destruct (Nat.ltb_spec 200 (String.length r)); [lia|]. apply append_empty_r.
  - exists (take_string 200 r), (drop_string 200 r).
    split; [by rewrite take_drop_string|].
    split; [apply take_string_length; lia|].
    by destruct (Nat.ltb_spec 200 (String.length r)); [|lia].
Qed.

Section ServerClaims.

Variable ToString : value → string.
Variable JSON_stringify : value → option string.
Variable JSON_stringify_pretty : value → option string.
Variable encodeURIComponent : string → option string.
Variable Object_prototype : string → value.
Variable jsonSchemaToZod : value → option string.
Variable js_eval : string → option ZodSchema.
Variable axios : AxiosRequestConfig → thrown + AxiosResponse.
Variable API_BASE_URL : string.

Local Abbreviation validateArguments := (validateArguments jsonSchemaToZod js_eval).
Local Abbreviation substitutedPath :=
  (substitutedPath ToString encodeURIComponent Object_prototype).
Local Abbreviation dispatch :=
  (dispatch ToString JSON_stringify JSON_stringify_pretty encodeURIComponent
     Object_prototype axios API_BASE_URL).
Local Abbreviation handleToolCall :=
  (handleToolCall ToString JSON_stringify JSON_stringify_pretty encodeURIComponent
     Object_prototype jsonSchemaToZod js_eval axios API_BASE_URL).
Local Abbreviation callTool :=
  (callTool ToString JSON_stringify JSON_stringify_pretty encodeURIComponent
     Object_prototype jsonSchemaToZod js_eval axios API_BASE_URL).

(** C2, as the code has it.  In a generated server whose handlers'
    declarations are accepted: when the arguments of a call pass validation
    and the path still holds a ['{'] after the substitutions, the call
    returns the message of the error thrown for it, which is neither of the
    two texts the validation block returns, and makes no request.  The test
    is made on the path, before the base URL is put in front of it. *)
Theorem unresolved_placeholder_fails_before_request
    tools toolName tool toolArgs validatedArgs urlPath :
  forallb declarable tools = true →
  find (λ t, bool_decide (name t = toolName)) tools = Some tool →
  validateArguments tool toolArgs = inr validatedArgs →
  substitutedPath tool validatedArgs = inr urlPath →
  includes "{" urlPath = true →
  callTool tools toolName toolArgs = (unresolvedPathMessage urlPath, [])
  ∧ (∀ errors, unresolvedPathMessage urlPath ≠ validationErrorMessage (name tool) errors)
  ∧ unresolvedPathMessage urlPath ≠ validationSetupMessage (name tool).
Proof.
  intros _ Hfind Hvalid Hpath Hbrace. split; [|split].
  - unfold callTool, handleToolCall, dispatch.
    by rewrite Hfind, Hvalid, Hpath, Hbrace.
  - intros errors. discriminate.
  - discriminate.
Qed.

(** What the formatter makes of a response.  The message for an error that
    carries a response starts with the status and the status text (a fixed
    text when the status text is empty).  When the body is a string, or any other
    truthy value whose JSON text can be made, the message goes on with
    ["Response: "] and that text cut to 200 characters, followed by ["..."]
    exactly when the text is longer; a falsy body that is no string gives
    ["No response body received."] and a truthy body without a JSON text
    gives a fixed marker. *)
Lemma formatApiError_response error response :
  error_response error = Some response →
  (∀ r, rendering JSON_stringify (data response) = Some r →
     carries_rendering (formatApiError JSON_stringify error) (statusLine response) r)
  ∧ (rendering JSON_stringify (data response) = None →
     formatApiError JSON_stringify error
     = statusLine response
       +:+ (if truthy (data response)
            then "Response: [Could not serialize response data]"
            else "No response body received.")).
Proof.
  intros Hresp. unfold formatApiError, rendering, statusLine. rewrite Hresp.
  assert (Hcarry : ∀ head r, carries_rendering (head +:+ "Response: " +:+ truncated r) head r).
  { intros head r. exists (truncated r). split; [done|]. apply truncated_spec. }
  split.
  - intros r Hr. destruct (data response) as [| |b|n|s|elems|ps|a]; simpl in *;
      simplify_eq; try apply Hcarry;
      repeat match goal with
             | H : context [if ?c then _ else _] |- _ => destruct c eqn:?
             end; simplify_eq; rewrite ?Hr; apply Hcarry.
  - intros Hr. destruct (data response) as [| |b|n|s|elems|ps|a]; simpl in *;
      simplify_eq; try done;
      repeat match goal with
             | H : context [if ?c then _ else _] |- _ => destruct c eqn:?
             end; simplify_eq; by rewrite ?Hr.
Qed.

(** C9.  When the input schema of a tool is no object, or [jsonSchemaToZod]
    throws on it, or the text it produces does not evaluate to a validator,
    the validator is the open object schema: a call with any plain object as
    arguments goes on to the dispatch with that object, and a call whose
    arguments are no object goes on with the empty object. *)
Theorem fallback_validator_accepts_any_object tool :
  primitive (inputSchema tool)
  ∨ jsonSchemaToZod (inputSchema tool) = None
  ∨ (∃ text, jsonSchemaToZod (inputSchema tool) = Some text ∧ js_eval text = None) →
  getZodSchemaFromJsonSchema jsonSchemaToZod js_eval (inputSchema tool) = ZPassthroughObject
  ∧ (∀ o, handleToolCall tool (VObj o) = dispatch tool o)
  ∧ (∀ v, primitive v → handleToolCall tool v = dispatch tool []).
Proof.
  intros Hfallback.
  assert (Hzod : getZodSchemaFromJsonSchema jsonSchemaToZod js_eval (inputSchema tool)
                 = ZPassthroughObject).
  { unfold getZodSchemaFromJsonSchema.
    destruct Hfallback as [Hprim|[Hthrow|(text & Htext & Heval)]].
    - by destruct (inputSchema tool).
    - rewrite Hthrow. by destruct (inputSchema tool).
    - rewrite Htext. simpl. rewrite Heval. by destruct (inputSchema tool). }
  split; [done|]. split.
  - intros o. unfold handleToolCall, validateArguments. by rewrite Hzod.
  - intros v Hv. unfold handleToolCall, validateArguments. rewrite Hzod.
    by destruct v.
Qed.

End ServerClaims.

(** C8.  [formatApiError] tests the body of an error response for
    truthiness (line 352).  For a 404 whose JSON body is [false], and for
    one whose body is [0], a body was received and the message says that
    none was; it holds no rendering of the body, whatever [JSON.stringify]
    would give.  The success path of the same handler tests the body
    against [undefined] and [null], and renders [false] with [String]. *)
Theorem formatApiError_reports_falsy_body_missing :
  (∀ JSON_stringify,
     formatApiError JSON_stringify notFoundFalse
     = "API Error: Status 404 (Not Found). No response body received."
     ∧ formatApiError JSON_stringify notFoundZero
       = "API Error: Status 404 (Not Found). No response body received.")
  ∧ ¬ carries_rendering (formatApiError stringifyFalse notFoundFalse)
        "API Error: Status 404 (Not Found). " "false"
  ∧ ∀ ToString JSON_stringify_pretty,
      responseText ToString JSON_stringify_pretty okFalse = ToString (VBool false).
Proof.
  split; [|split].
  - intros JSON_stringify. split; reflexivity.
  - intros (shown & Heq & Hshort & _).
    rewrite Hshort in Heq by (simpl; lia). vm_compute in Heq. discriminate.
  - intros ToString JSON_stringify_pretty. reflexivity.
Qed.

(** C2 as worded fails: a ['{'] that the base URL holds is not looked for,
    and the request goes to a URL with the placeholder in it. *)
Lemma placeholder_in_base_url_is_requested :
  ∃ text config,
    callTool noToString noStringify noStringify encodeIdentity plainPrototype
      noConversion noEval okAxios "https://{tenant}.example.com" [getUserTool] "user"
      (VObj [("id", VStr "42")])
    = (text, [config])
    ∧ config_url config = "https://{tenant}.example.com/users/42"
    ∧ includes "{" (config_url config) = true.
Proof. eexists _, _. split; [vm_compute; reflexivity|]. split; reflexivity. Qed.

(** [GET /users/{id}] called without [id], the validator being the open
    object schema: no request is made. *)
Lemma unresolved_placeholder_fails_before_request_witness :
  callTool noToString noStringify noStringify encodeIdentity plainPrototype
    noConversion noEval okAxios "https://api.example.com" [getUserTool] "user" (VObj [])
  = ("Validation passed but failed to resolve path parameters in URL: /users/{id}. Check schema/validation logic.", []).
Proof.
  refine (proj1 (unresolved_placeholder_fails_before_request noToString noStringify
                   noStringify encodeIdentity plainPrototype noConversion noEval okAxios
                   "https://api.example.com" [getUserTool] "user" getUserTool (VObj [])
                   [] "/users/{id}" eq_refl eq_refl eq_refl eq_refl eq_refl)).
Defined.

Lemma fallback_validator_accepts_any_object_witness :
  handleToolCall noToString noStringify noStringify encodeIdentity plainPrototype
    noConversion noEval okAxios "https://api.example.com" getUserTool
    (VObj [("id", VStr "42")])
  = ("API Response (Status: 200):" +:+ String "010"%char "(Status: 200 - No body content)",
     [{| config_method := "GET"; config_url := "https://api.example.com/users/42";
         config_params := []; config_headers := [("Accept", VStr "application/json")];
         config_data := None |}]).
Proof.
  rewrite (proj1 (proj2 (fallback_validator_accepts_any_object noToString noStringify
                           noStringify encodeIdentity plainPrototype noConversion noEval
                           okAxios "https://api.example.com" getUserTool
                           (or_intror (or_introl eq_refl))))).
  reflexivity.
Defined.

(** ** Further properties of the translator *)

Ltac key_cases :=
  unfold presentationOnly in *;
  rewrite ?elem_of_cons, ?elem_of_nil in *; naive_solver.

Section TranslatorExtras.

Variable ToString : value → string.

Local Abbreviation translate := (mapOpenApiSchemaToJsonSchema ToString).

(** The three ways a call on a node that is no reference returns. *)
Lemma translate_inv stack h schema r :
  translate stack h schema = Some r → has_key "$ref" schema = false →
  ∃ n, stack = S n ∧
    ((is_str (js_get (prepared schema) "type") "object" = true
      ∧ truthy (js_get (prepared schema) "properties") = true
      ∧ ∃ mp, mapProperties (translate n h) h
                (Object_entries h (js_get (prepared schema) "properties")) = Some mp
              ∧ r = VObj (js_set (prepared schema) "properties" (VObj mp)))
     ∨ (is_str (js_get (prepared schema) "type") "array" = true
        ∧ ∃ items ri, as_object h (js_get (prepared schema) "items") = Some items
                      ∧ translate n h items = Some ri
                      ∧ r = VObj (js_set (prepared schema) "items" ri))
     ∨ (r = VObj (prepared schema)
        ∧ (is_str (js_get (prepared schema) "type") "object" = true →
           truthy (js_get (prepared schema) "properties") = false)
        ∧ (is_str (js_get (prepared schema) "type") "array" = true →
           as_object h (js_get (prepared schema) "items") = None))).
Proof.
  intros Hrun Href. destruct stack as [|n]; [done|]. exists n. split; [done|].
  rewrite translate_S, Href in Hrun.
  destruct (is_str (js_get (prepared schema) "type") "object") eqn:Eobj; simpl in Hrun.
  - apply is_str_object_array in Eobj as Earr.
    destruct (truthy (js_get (prepared schema) "properties")) eqn:Eprops; simpl in Hrun.
    + destruct (mapProperties _ h _) as [mp|] eqn:Emp; simpl in Hrun; [|done].
      rewrite js_get_set_ne, Earr in Hrun by done. injection Hrun as <-.
      left. split; [done|]. split; [done|]. by exists mp.
    + rewrite Earr in Hrun. injection Hrun as <-. right. right.
      split; [done|]. split; [done|]. by rewrite Earr.
  - destruct (is_str (js_get (prepared schema) "type") "array") eqn:Earr.
    + destruct (as_object h (js_get (prepared schema) "items")) as [items|] eqn:Ei.
      * destruct (translate n h items) as [ri|] eqn:Eri; simpl in Hrun; [|done].
        injection Hrun as <-. right. left. split; [done|]. by exists items, ri.
      * injection Hrun as <-. right. right. split; [done|]. split; [done|done].
    + injection Hrun as <-. right. right. split; [done|]. split; done.
Qed.

(** On a node that does not make the translator push, a [type] that is a
    list comes back as it was: the array, which the node may share with
    others, is not written to. *)
Lemma prepared_type_list_kept schema ts :
  pushes schema = false → js_get schema "type" = VArr ts →
  js_get (prepared schema) "type" = VArr ts.
Proof.
  unfold pushes. intros Hquiet Hty. rewrite Hty in Hquiet.
  destruct (truthy (js_get schema "nullable")) eqn:Hnull; simpl in Hquiet.
  - rewrite prepared_type_nullable, Hty by done. unfold coerced. simpl.
    apply negb_false_iff in Hquiet. by rewrite Hquiet.
  - by rewrite prepared_type_plain, Hty.
Qed.

(** X2.  A node with the key [$ref] comes back as the fixed open object,
    with none of its other keys.  A node without it comes back as an object
    without [nullable], in which every key other than [type], [nullable], the
    presentation-only fields, [properties] and [items] has the value it had;
    [properties] is as it was unless the returned [type] is ['object'], and
    [items] is as it was unless the returned [type] is ['array']. *)
Theorem translate_keeps_other_keys stack h schema r :
  mapOpenApiSchemaToJsonSchema ToString stack h schema = Some r →
  (has_key "$ref" schema = true →
   r = unresolved ToString schema
   ∧ ∃ o, r = VObj o ∧ ∀ k, k ≠ "type" → k ≠ "description" → own o k = None)
  ∧ (has_key "$ref" schema = false →
     ∃ o, r = VObj o
          ∧ own o "nullable" = None
          ∧ (∀ k, k ∉ "type" :: "nullable" :: "properties" :: "items"
                      :: presentationOnly →
               own o k = own schema k)
          ∧ (is_str (js_get o "type") "object" = false →
             own o "properties" = own schema "properties")
          ∧ (is_str (js_get o "type") "array" = false →
             own o "items" = own schema "items")).
Proof.
  intros Hrun. split.
  { intros Href. destruct stack as [|n]; [done|].
    rewrite translate_S, Href in Hrun. injection Hrun as <-.
    split; [done|]. eexists. split; [done|]. intros k Hty Hd.
    unfold unresolved, own. simpl.
    rewrite !decide_False by congruence. done. }
  intros Href.
  assert (Hnull : own (prepared schema) "nullable" = None)
    by (apply own_prepared_deleted, list_elem_of_here).
  assert (Hkept : ∀ k, k ∉ "type" :: "nullable" :: "properties" :: "items"
                          :: presentationOnly →
            own (prepared schema) k = own schema k).
  { intros k Hk. apply own_prepared_kept. clear -Hk. key_cases. }
  assert (Hprops : own (prepared schema) "properties" = own schema "properties")
    by (apply own_prepared_kept; key_cases).
  assert (Hitems : own (prepared schema) "items" = own schema "items")
    by (apply own_prepared_kept; key_cases).
  destruct (translate_inv _ _ _ _ Hrun Href)
    as (n & -> & [(Hobj & _ & mp & _ & ->)|[(Harr & items & ri & _ & _ & ->)
                                          |(-> & _ & _)]]).
  - eexists. split; [done|]. split; [by rewrite own_js_set_ne|]. split; [|split].
    + intros k Hk. rewrite own_js_set_ne; [by apply Hkept|]. intros <-. key_cases.
    + by rewrite js_get_set_ne, Hobj.
    + intros _. by rewrite own_js_set_ne.
  - eexists. split; [done|]. split; [by rewrite own_js_set_ne|]. split; [|split].
    + intros k Hk. rewrite own_js_set_ne; [by apply Hkept|]. intros <-. key_cases.
    + intros _. by rewrite own_js_set_ne.
    + by rewrite js_get_set_ne, Harr.
  - eexists. split; [done|]. split; [done|]. split; [done|]. by split.
Qed.

(** *** Translating a result again *)

Lemma js_delete_absent (o : obj) k : own o k = None → js_delete o k = o.
Proof.
  unfold js_delete. induction o as [|[k' v] o IH]; [done|]. simpl.
  destruct (decide (k' = k)) as [->|Hne]; [done|]. intros Hown.
  rewrite filter_cons_True by done. by rewrite IH.
Qed.

Lemma foldl_delete_absent ks (o : obj) :
  (∀ k, k ∈ ks → own o k = None) → foldl js_delete o ks = o.
Proof.
  induction ks as [|k ks IH]; intros Habs; [done|]. simpl.
  rewrite js_delete_absent by apply Habs, list_elem_of_here.
  apply IH. intros k' Hk'. by apply Habs, list_elem_of_further.
Qed.

Lemma prepared_settled o : Settled o → prepared o = o.
Proof.
  intros (Hnull & Hpres & Hint). unfold prepared, coerceInteger. rewrite Hint.
  unfold deleteOpenApiKeys. rewrite foldl_delete_absent.
  - unfold applyNullable, js_get. by rewrite Hnull.
  - intros k [->|Hk]%elem_of_cons; auto.
Qed.

Lemma is_str_coerced v : is_str (coerced v) "integer" = false.
Proof.
  unfold coerced. destruct (is_str v "integer") eqn:E; [done | exact E].
Qed.

Lemma prepared_type_not_integer schema :
  is_str (js_get (prepared schema) "type") "integer" = false.
Proof.
  pose proof (is_str_coerced (js_get schema "type")) as Hco.
  destruct (truthy (js_get schema "nullable")) eqn:En.
  - rewrite prepared_type_nullable by done.
    destruct (coerced (js_get schema "type")) as [| |[]|n|s|ts|ps|a]; simpl in *;
      try done; by destruct (existsb _ ts) || by destruct (n =? 0)%Z.
  - by rewrite prepared_type_plain.
Qed.

Lemma prepared_is_settled schema : Settled (prepared schema).
Proof.
  split; [apply own_prepared_deleted, list_elem_of_here|]. split.
  - intros k Hk. by apply own_prepared_deleted, list_elem_of_further.
  - apply prepared_type_not_integer.
Qed.

Lemma settled_set o k v :
  Settled o → k ∉ "type" :: "nullable" :: presentationOnly → Settled (js_set o k v).
Proof.
  intros (Hnull & Hpres & Hint) Hk. split; [|split].
  - rewrite own_js_set_ne; [done|]. intros ->. apply Hk. key_cases.
  - intros k' Hk'. rewrite own_js_set_ne; [by apply Hpres|]. intros ->.
    apply Hk. by do 2 apply list_elem_of_further.
  - rewrite js_get_set_ne; [done|]. intros ->. apply Hk, list_elem_of_here.
Qed.

Lemma own_None_keys (o : obj) k : own o k = None ↔ k ∉ o.*1.
Proof.
  induction o as [|[k' v] o IH]; simpl.
  - split; [intros _; apply not_elem_of_nil | done].
  - destruct (decide (k' = k)) as [->|Hne].
    + split; [done|]. intros Hk. exfalso. apply Hk, list_elem_of_here.
    + rewrite IH, not_elem_of_cons. naive_solver.
Qed.

Lemma upsert_absent (o : obj) k v : own o k = None → upsert o k v = o ++ [(k, v)].
Proof.
  induction o as [|[k' v'] o IH]; simpl; [done|].
  destruct (decide (k' = k)); [done|]. intros Hown. by rewrite IH.
Qed.

Lemma upsert_same (o : obj) k v : own o k = Some v → upsert o k v = o.
Proof.
  induction o as [|[k' v'] o IH]; simpl; [done|].
  destruct (decide (k' = k)) as [->|Hne].
  - by intros [= ->].
  - intros Hown. by rewrite IH.
Qed.

Lemma keys_upsert (o : obj) k v :
  (upsert o k v).*1 = if decide (k ∈ o.*1) then o.*1 else o.*1 ++ [k].
Proof.
  induction o as [|[k' v'] o IH].
  - destruct (decide (k ∈ ([] : obj).*1)) as [Hin|_]; [by apply elem_of_nil in Hin | done].
  - cbn [upsert]. destruct (decide (k' = k)) as [->|Hne].
    + destruct (decide (k ∈ ((k, v') :: o).*1)) as [_|Hnin]; [done|].
      exfalso. apply Hnin, list_elem_of_here.
    + change (((k', v') :: upsert o k v).*1) with (k' :: (upsert o k v).*1).
      rewrite IH. change (((k', v') :: o).*1) with (k' :: o.*1).
      destruct (decide (k ∈ o.*1)) as [Hin|Hnin];
        destruct (decide (k ∈ k' :: o.*1)) as [Hin'|Hnin']; try done.
      * exfalso. by apply Hnin', list_elem_of_further.
      * apply elem_of_cons in Hin' as [->|?]; done.
Qed.

Lemma tidy_nil : Tidy [].
Proof. split; [apply NoDup_nil_2 | apply not_elem_of_nil]. Qed.

Lemma tidy_js_set o k v : Tidy o → Tidy (js_set o k v).
Proof.
  intros [Hdup Hproto]. unfold js_set.
  destruct (decide (k = "__proto__")) as [->|Hne].
  - assert (has_key "__proto__" o = false) as ->; [|done].
    by apply has_key_own, own_None_keys.
  - unfold Tidy. rewrite keys_upsert. destruct (decide (k ∈ o.*1)); [done|].
    split.
    + apply NoDup_app. split; [done|]. split; [|apply NoDup_singleton].
      by intros x Hx ->%list_elem_of_singleton.
    + rewrite elem_of_app, list_elem_of_singleton. naive_solver.
Qed.

Lemma mapProperties_tidy (t : obj → option value) h entries mp :
  mapProperties t h entries = Some mp → Tidy mp.
Proof.
  unfold mapProperties. pose proof tidy_nil as Hnil. revert Hnil.
  generalize ([] : obj) as acc.
  induction entries as [|[k v] entries IH]; intros acc Hacc; cbn [foldl].
  - by intros [= <-].
  - destruct (mapProperty t h (Some acc) (k, v)) as [acc'|] eqn:E;
      [|by rewrite foldl_mapProperty_None].
    apply IH. unfold mapProperty in E. simpl in E.
    destruct (as_object h v) as [o|].
    + destruct (t o) as [r|]; simplify_eq/=. by apply tidy_js_set.
    + destruct v; simplify_eq/=; try done. by apply tidy_js_set.
Qed.

(** Running the loop over a tidy map whose values the translation leaves
    alone builds the same map again. *)
Lemma mapProperties_rebuild (t : obj → option value) h (mp : obj) :
  Tidy mp →
  (∀ k v, (k, v) ∈ mp → mappedProperty t h v = Some v) →
  mapProperties t h mp = Some mp.
Proof.
  intros Htidy Hfix. unfold mapProperties.
  enough (Hgen : ∀ acc : obj, (∀ k, k ∈ mp.*1 → k ∉ acc.*1) →
            foldl (mapProperty t h) (Some acc) mp = Some (acc ++ mp))
    by (apply (Hgen []); intros; apply not_elem_of_nil).
  destruct Htidy as [Hdup Hproto].
  induction mp as [|[k v] mp IH]; intros acc Hdisj; cbn [foldl].
  { by rewrite app_nil_r. }
  simpl in Hdup, Hproto. apply NoDup_cons in Hdup as [Hk Hdup].
  apply not_elem_of_cons in Hproto as [Hkp Hproto].
  assert (Hstep : mapProperty t h (Some acc) (k, v) = Some (acc ++ [(k, v)])).
  { pose proof (Hfix k v (list_elem_of_here _ _)) as Hv.
    assert (Hset : js_set acc k v = acc ++ [(k, v)]).
    { unfold js_set. rewrite decide_False by done. apply upsert_absent.
      apply own_None_keys, Hdisj, list_elem_of_here. }
    unfold mapProperty, mappedProperty in *. simpl.
    destruct (as_object h v) as [o|].
    - rewrite Hv. simpl. by rewrite Hset.
    - destruct v; simplify_eq/=. by rewrite Hset. }
  rewrite Hstep, IH; try done.
  - by rewrite <- app_assoc.
  - intros k' v' Hin. apply (Hfix k'). by apply list_elem_of_further.
  - intros k' Hk'. rewrite fmap_app, elem_of_app. simpl.
    rewrite list_elem_of_singleton. intros [Hacc| ->]; [|done].
    by apply (Hdisj k'); [apply list_elem_of_further|].
Qed.

Lemma js_set_same (o : obj) k v : own o k = Some v → js_set o k v = o.
Proof.
  intros Hown. unfold js_set. destruct (decide _).
  - unfold has_key. rewrite bool_decide_eq_true_2 by (by eexists). by apply upsert_same.
  - by apply upsert_same.
Qed.

(** X1.  Translating a returned schema again returns it unchanged, in any
    heap and within the same stack. *)
Theorem translate_idempotent stack h schema r :
  mapOpenApiSchemaToJsonSchema ToString stack h schema = Some r →
  ∃ o, r = VObj o ∧ ∀ h', mapOpenApiSchemaToJsonSchema ToString stack h' o = Some r.
Proof.
  revert schema r. induction stack as [|n IH]; intros schema r Hrun; [done|].
  destruct (has_key "$ref" schema) eqn:Href.
  { rewrite translate_S, Href in Hrun. injection Hrun as <-.
    eexists. split; [done|]. intros h'. by rewrite translate_S. }
  destruct (translate_inv _ _ _ _ Hrun Href) as (n' & [= <-] & Hcases).
  pose proof (prepared_is_settled schema) as Hsettled.
  assert (Hnoref : ∀ o : obj, own o "$ref" = own (prepared schema) "$ref" →
                     has_key "$ref" o = false).
  { intros o Ho. apply has_key_own. rewrite Ho, own_prepared_kept by key_cases.
    by apply has_key_own. }
  destruct Hcases as [(Hobj & Hprops & mp & Hmp & ->)
                     |[(Harr & items & ri & Hitems & Hri & ->)|(-> & Hobj & Harr)]].
  - eexists. split; [done|]. intros h'. rewrite translate_S.
    rewrite Hnoref by (by apply own_js_set_ne).
    rewrite prepared_settled by (apply settled_set; [done | key_cases]).
    rewrite !js_get_set_ne, Hobj by done. rewrite js_get_set_eq by done.
    cbn [truthy andb Object_entries as_object default].
    rewrite (mapProperties_rebuild _ h' mp).
    + simpl. rewrite js_set_same by (by apply own_js_set_eq).
      by rewrite js_get_set_ne, (is_str_object_array _ Hobj) by done.
    + by eapply mapProperties_tidy.
    + intros k v Hin.
      eapply (mapProperties_values
                (λ v, mappedProperty (translate n h') h' v = Some v)); [| |exact Hmp|exact Hin].
      * intros o r' Hr'. destruct (IH _ _ Hr') as (o' & -> & Hagain).
        unfold mappedProperty. simpl. apply Hagain.
      * done.
  - destruct (IH _ _ Hri) as (oi & -> & Hagain).
    eexists. split; [done|]. intros h'. rewrite translate_S.
    rewrite Hnoref by (by apply own_js_set_ne).
    rewrite prepared_settled by (apply settled_set; [done | key_cases]).
    rewrite !js_get_set_ne by done.
    assert (is_str (js_get (prepared schema) "type") "object" = false) as ->.
    { apply is_str_true in Harr. by rewrite Harr. }
    simpl. rewrite js_get_set_ne, Harr by done. rewrite js_get_set_eq by done.
    simpl. rewrite Hagain. simpl. by rewrite js_set_same by (by apply own_js_set_eq).
  - eexists. split; [done|]. intros h'. rewrite translate_S.
    rewrite Hnoref by done. rewrite prepared_settled by done.
    destruct (is_str (js_get (prepared schema) "type") "object") eqn:Eobj.
    + rewrite Hobj by done. simpl. by rewrite (is_str_object_array _ Eobj).
    + simpl. destruct (is_str (js_get (prepared schema) "type") "array") eqn:Earr; [|done].
      specialize (Harr eq_refl).
      by destruct (js_get (prepared schema) "items").
Qed.

Lemma mapProperties_lookup (t : obj → option value) h entries mp :
  NoDup entries.*1 → mapProperties t h entries = Some mp →
  ∀ k p, (k, p) ∈ entries → k ≠ "__proto__" → own mp k = mappedProperty t h p.
Proof.
  intros Hdup Hrun. unfold mapProperties in Hrun.
  enough (Hgen : ∀ acc : obj, foldl (mapProperty t h) (Some acc) entries = Some mp →
            (∀ k, k ∈ entries.*1 → own acc k = None) →
            (∀ k p, (k, p) ∈ entries → k ≠ "__proto__" → own mp k = mappedProperty t h p)
            ∧ (∀ k, k ∉ entries.*1 → own mp k = own acc k)).
  { apply (Hgen [] Hrun). done. }
  clear Hrun. induction entries as [|[k0 p0] entries IH]; intros acc Hrun Hacc;
    cbn [foldl] in Hrun.
  { injection Hrun as <-. split; [by intros ?? ?%elem_of_nil | done]. }
  simpl in Hdup. apply NoDup_cons in Hdup as [Hk0 Hdup].
  destruct (mapProperty t h (Some acc) (k0, p0)) as [acc'|] eqn:Estep;
    [|by rewrite foldl_mapProperty_None in Hrun].
  assert (Hacc' : (∀ k, k ≠ k0 → own acc' k = own acc k)
                  ∧ (k0 ≠ "__proto__" → own acc' k0 = mappedProperty t h p0)).
  { unfold mapProperty, mappedProperty in *. simpl in Estep.
    specialize (Hacc k0 (list_elem_of_here _ _)).
    destruct (as_object h p0) as [o|].
    - destruct (t o) as [r|]; simplify_eq/=. split.
      + intros k Hk. by rewrite own_js_set_ne.
      + intros Hne. by rewrite own_js_set_eq.
    - destruct p0; simplify_eq/=; try (split; [done | by intros _]).
      split.
      + intros k Hk. by rewrite own_js_set_ne.
      + intros Hne. by rewrite own_js_set_eq. }
  destruct Hacc' as [Hother Hthis].
  destruct (IH Hdup acc' Hrun) as [Hin Hout].
  { intros k Hk. rewrite Hother; [apply Hacc; by apply list_elem_of_further|].
    by intros ->. }
  split.
  - intros k p [[= -> ->]|Hkp]%elem_of_cons Hne.
    + rewrite Hout by done. by apply Hthis.
    + by apply Hin.
  - intros k [Hne Hk]%not_elem_of_cons. rewrite Hout by done. by apply Hother.
Qed.

(** X3.  For an object node that is neither a reference nor nullable and
    whose [properties] is a map with pairwise different keys, in a document
    none of whose nodes makes the translator push, the returned [properties]
    holds, under each key other than [__proto__], the translation of the
    property schema when that is an object, the property schema itself when
    it is a boolean, and nothing otherwise; it never holds the key
    [__proto__], whatever the node has under it. *)
Theorem translate_object_properties n h schema ps r :
  mapOpenApiSchemaToJsonSchema ToString (S n) h schema = Some r →
  has_key "$ref" schema = false →
  js_get schema "type" = VStr "object" →
  truthy (js_get schema "nullable") = false →
  js_get schema "properties" = VObj ps →
  NoDup ps.*1 →
  quietHeap h → quiet (VObj ps) = true →
  ∃ o mp, r = VObj o ∧ js_get o "properties" = VObj mp
          ∧ (∀ k p, (k, p) ∈ ps → k ≠ "__proto__" →
               own mp k = mappedProperty (mapOpenApiSchemaToJsonSchema ToString n h) h p)
          ∧ own mp "__proto__" = None.
Proof.
  intros Hrun Href Hty Hnull Hps Hdup _ _.
  assert (Htype : js_get (prepared schema) "type" = VStr "object")
    by (by rewrite prepared_type_plain, Hty).
  assert (Hprops : js_get (prepared schema) "properties" = VObj ps)
    by (by rewrite js_get_prepared_kept by key_cases).
  destruct (translate_inv _ _ _ _ Hrun Href)
    as (n' & [= <-] & [(_ & _ & mp & Hmp & ->)|[(Harr & _)|(_ & Hobj & _)]]).
  - rewrite Hprops in Hmp. simpl in Hmp.
    eexists _, mp. split; [done|]. split; [by rewrite js_get_set_eq|]. split.
    + by eapply mapProperties_lookup.
    + apply own_None_keys. by destruct (mapProperties_tidy _ _ _ _ Hmp).
  - by rewrite Htype in Harr.
  - rewrite Htype, Hprops in Hobj. by specialize (Hobj eq_refl).
Qed.

End TranslatorExtras.

Lemma translate_idempotent_witness :
  mapOpenApiSchemaToJsonSchema noToString 2 emptyHeap
    [("type", VStr "object");
     ("properties", VObj [("n", VObj [("type", VStr "number")])])]
  = Some (VObj [("type", VStr "object");
                ("properties", VObj [("n", VObj [("type", VStr "number")])])]).
Proof.
  destruct (translate_idempotent noToString 2 emptyHeap sPlainObject _ eq_refl)
    as (o & [= <-] & Hagain).
  exact (Hagain emptyHeap).
Defined.

Lemma translate_keeps_other_keys_witness :
  ∃ o, VObj [("type", VStr "string"); ("format", VStr "date")] = VObj o
       ∧ own o "format" = Some (VStr "date").
Proof.
  destruct (proj2 (translate_keeps_other_keys noToString 1 emptyHeap
                     [("type", VStr "string"); ("format", VStr "date");
                      ("nullable", VBool false)] _ eq_refl) eq_refl)
    as (o & Heq & _ & Hkeep & _).
  exists o. split; [exact Heq|]. rewrite (Hkeep "format"); [reflexivity|].
  unfold presentationOnly. rewrite !elem_of_cons, elem_of_nil.
  intros H; repeat (destruct H as [H|H]; [discriminate H|]); exact H.
Defined.

Lemma translate_object_properties_witness :
  ∃ o mp, VObj [("type", VStr "object");
                ("properties", VObj [("n", VObj [("type", VStr "number")])])] = VObj o
          ∧ js_get o "properties" = VObj mp
          ∧ own mp "n" = Some (VObj [("type", VStr "number")]).
Proof.
  destruct (translate_object_properties noToString 1 emptyHeap sPlainObject _ _
              eq_refl eq_refl eq_refl eq_refl eq_refl)
    as (o & mp & Heq & Hprops & Hlook & _).
  { apply NoDup_singleton. }
  { intros a. reflexivity. }
  { reflexivity. }
  exists o, mp. split; [exact Heq|]. split; [exact Hprops|].
  rewrite (Hlook "n" _ (list_elem_of_here _ _)); [reflexivity | discriminate].
Defined.

(** ** Further properties of the assembler, the extractor and the base URL *)

Section CompilerExtras.

Variable ToString : value → string.
Variable generateOperationId : string → string → string.

Lemma translate_object stack h schema r :
  mapOpenApiSchemaToJsonSchema ToString stack h schema = Some r → ∃ o, r = VObj o.
Proof.
  intros Hrun. destruct (has_key "$ref" schema) eqn:Href.
  - destruct stack; [done|]. rewrite translate_S, Href in Hrun.
    injection Hrun as <-. by eexists.
  - destruct (translate_type ToString stack h schema r Href Hrun) as (o & -> & _).
    by eexists.
Qed.

Lemma addParameter_step stack h properties required p st :
  addParameter ToString stack h (Some (properties, required)) p = Some st →
  (st = (properties, required)
   ∧ requiredParameters [p] = []
   ∧ ∀ pname, ¬ installs pname p)
  ∨ (∃ pname schema r,
       nonempty (param_name p) = Some pname ∧ param_schema p = Some schema
       ∧ mapOpenApiSchemaToJsonSchema ToString stack h schema = Some r
       ∧ st = (js_set properties pname (describeParameter p r),
               required ++ requiredParameters [p])).
Proof.
  unfold addParameter, requiredParameters, installs. simpl.
  destruct (nonempty (param_name p)) as [pname|] eqn:En; simpl.
  - destruct (param_schema p) as [schema|] eqn:Es.
    + destruct (mapOpenApiSchemaToJsonSchema ToString stack h schema) as [r|] eqn:Er;
        simpl; [|done].
      intros [= <-]. right. exists pname, schema, r. repeat split; try done.
      destruct (param_required p); [done|]. by rewrite app_nil_r.
    + intros [= <-]. left. split; [done|]. split; [done|].
      intros pname' [_ [? ?]]. done.
  - intros [= <-]. left. split; [done|]. split; [done|]. by intros pname' [? _].
Qed.

Lemma requiredParameters_app ps qs :
  requiredParameters (ps ++ qs) = requiredParameters ps ++ requiredParameters qs.
Proof. unfold requiredParameters. apply omap_app. Qed.

(** The [required] list after the parameter loop. *)
Lemma addParameter_required stack h params properties required st :
  foldl (addParameter ToString stack h) (Some (properties, required)) params = Some st →
  st.2 = required ++ requiredParameters params.
Proof.
  revert properties required. induction params as [|p params IH];
    intros properties required; cbn [foldl].
  { intros [= <-]. simpl. by rewrite app_nil_r. }
  destruct (addParameter ToString stack h (Some (properties, required)) p)
    as [[properties1 required1]|] eqn:E; [|by rewrite addParameter_None].
  intros Hrest. rewrite (IH _ _ Hrest).
  change (p :: params) with ([p] ++ params). rewrite requiredParameters_app, app_assoc.
  f_equal.
  destruct (addParameter_step _ _ _ _ _ _ E)
    as [([= -> ->] & -> & _)|(pname & schema & r & _ & _ & _ & [= -> ->])];
    [by rewrite app_nil_r | done].
Qed.

(** A property installed by the loop stays as it is while no later parameter
    is installed under its name. *)
Lemma addParameter_keeps stack h params properties required st pname :
  foldl (addParameter ToString stack h) (Some (properties, required)) params = Some st →
  (∀ q, q ∈ params → ¬ installs pname q) →
  own st.1 pname = own properties pname.
Proof.
  revert properties required. induction params as [|p params IH];
    intros properties required; cbn [foldl].
  { by intros [= <-]. }
  destruct (addParameter ToString stack h (Some (properties, required)) p)
    as [[properties1 required1]|] eqn:E; [|by rewrite addParameter_None].
  intros Hrest Hlater. rewrite (IH _ _ Hrest).
  - destruct (addParameter_step _ _ _ _ _ _ E)
      as [([= -> ->] & _)|(qname & schema & r & Hq & Hs & _ & [= -> ->])]; [done|].
    apply own_js_set_ne. intros ->.
    apply (Hlater p (list_elem_of_here _ _)). split; [done | by eexists].
  - intros q Hq. apply Hlater. by apply list_elem_of_further.
Qed.

Lemma addRequestBody_step stack h properties required body st :
  addRequestBody ToString stack h (properties, required) body = Some st →
  st.2 = required ++ requiredBody body
  ∧ ∀ k, k ≠ "requestBody" → own st.1 k = own properties k.
Proof.
  unfold addRequestBody, requiredBody, bodyInstalled.
  destruct body as [opRequestBody|]; [|intros [= <-]; simpl; by rewrite app_nil_r].
  destruct (body_content opRequestBody) as [content|] eqn:Ec; simpl.
  - destruct (assoc content "application/json" ≫= media_schema) as [schema|] eqn:Ej.
    + destruct (mapOpenApiSchemaToJsonSchema ToString stack h schema) as [r|];
        simpl; [|done].
      intros [= <-]. simpl. split.
      * destruct content; [done|]. destruct (body_required opRequestBody); simpl;
          [done | by rewrite app_nil_r].
      * intros k Hk. by rewrite own_js_set_ne.
    + destruct content as [|[contentType media] rest]; intros [= <-]; simpl.
      * rewrite andb_false_r. by rewrite app_nil_r.
      * split; [|intros k Hk; by rewrite own_js_set_ne].
        destruct (body_required opRequestBody); simpl; [done | by rewrite app_nil_r].
  - intros [= <-]. simpl. rewrite andb_false_r. by rewrite app_nil_r.
Qed.

(** X4.  The [required] list of an assembled contract holds, in order, the
    names of the installed parameters that are marked required, then
    [requestBody] when a required body got a property; the key [required] is
    missing exactly when that list is empty. *)
Theorem generateInputSchema_required_list stack h operation schema ps body :
  generateInputSchema ToString stack h operation = Some (schema, ps, body) →
  ∃ o, schema = VObj o
       ∧ js_get o "type" = VStr "object"
       ∧ requiredNames schema
         = requiredParameters (default [] (op_parameters operation))
           ++ requiredBody (op_requestBody operation)
       ∧ (own o "required" = None ↔ requiredNames schema = []).
Proof.
  unfold generateInputSchema.
  destruct (foldl _ _ _) as [st0|] eqn:Eparams; simpl; [|done].
  destruct (addRequestBody ToString stack h st0 (op_requestBody operation))
    as [[properties required]|] eqn:Ebody; simpl; [|done].
  destruct st0 as [properties0 required0].
  intros [= Hschema Hps Hb]. subst schema.
  apply addParameter_required in Eparams. apply addRequestBody_step in Ebody as [Hreq _].
  simpl in Eparams, Hreq. subst required0.
  eexists. split; [done|]. split; [done|].
  rewrite requiredNames_objectSchema. split; [done|].
  destruct required; [done|]. split; done.
Qed.

(** X5.  For an operation none of whose schemas makes the translator push,
    the property of the assembled contract under the name of an installed
    parameter (other than [__proto__] and [requestBody]) that no later
    parameter shares is the translation of that parameter's schema, with the
    parameter's own description in place of the schema's when it has one. *)
Theorem generateInputSchema_parameter_property
    stack h operation schema ps body before p after pname pschema :
  generateInputSchema ToString stack h operation = Some (schema, ps, body) →
  quietHeap h → quietOperation operation →
  default [] (op_parameters operation) = before ++ p :: after →
  nonempty (param_name p) = Some pname → param_schema p = Some pschema →
  pname ≠ "__proto__" → pname ≠ "requestBody" →
  (∀ q, q ∈ after → ¬ installs pname q) →
  ∃ o properties r ro,
    schema = VObj o ∧ js_get o "properties" = VObj properties
    ∧ mapOpenApiSchemaToJsonSchema ToString stack h pschema = Some (VObj ro)
    ∧ own properties pname = Some (VObj r)
    ∧ (∀ k, k ≠ "description" → own r k = own ro k)
    ∧ (∀ d, nonempty (param_description p) = Some d → own r "description" = Some (VStr d))
    ∧ (nonempty (param_description p) = None →
       js_get r "description" = js_get ro "description").
Proof.
  unfold generateInputSchema. intros Hrun _ _ Hsplit Hname Hschema Hproto Hbody Hlater.
  rewrite Hsplit in Hrun. rewrite foldl_app in Hrun. cbn [foldl] in Hrun.
  destruct (foldl (addParameter ToString stack h) (Some ([], [])) before)
    as [[properties0 required0]|] eqn:Ebefore;
    [|by rewrite addParameter_None in Hrun].
  destruct (addParameter ToString stack h (Some (properties0, required0)) p)
    as [[properties1 required1]|] eqn:Estep; [|by rewrite addParameter_None in Hrun].
  destruct (foldl (addParameter ToString stack h) (Some (properties1, required1)) after)
    as [st2|] eqn:Eafter; simpl in Hrun; [|done].
  destruct (addRequestBody ToString stack h st2 (op_requestBody operation))
    as [[properties required]|] eqn:Ebody; simpl in Hrun; [|done].
  destruct st2 as [properties2 required2].
  injection Hrun as Hs0 Hp0 Hb0. subst schema.
  destruct (addParameter_step _ _ _ _ _ _ Estep)
    as [(_ & _ & Hnot)|(pname' & schema' & r & Hn' & Hs' & Hr & [= -> ->])].
  { exfalso. apply (Hnot pname). split; [done | by eexists]. }
  rewrite Hname in Hn'. injection Hn' as <-.
  rewrite Hschema in Hs'. injection Hs' as <-.
  destruct (translate_object _ _ _ _ Hr) as [ro ->].
  apply addRequestBody_step in Ebody as [_ Hbodykeys]. simpl in Hbodykeys.
  apply addParameter_keeps with (pname := pname) in Eafter; [|done]. simpl in Eafter.
  eexists _, properties, _, ro. split; [done|]. split; [done|]. split; [done|].
  split.
  { rewrite Hbodykeys, Eafter by done. by apply own_js_set_eq. }
  split; [|split].
  - intros k Hk. by rewrite own_js_set_ne.
  - intros d Hd. rewrite Hd. by apply own_js_set_eq.
  - intros Hd. rewrite Hd. by apply js_get_set_eq.
Qed.

Lemma describeBody_described opRequestBody ro :
  ∃ r, describeBody opRequestBody (VObj ro) = VObj r
       ∧ (∀ k, k ≠ "description" → own r k = own ro k)
       ∧ truthy (js_get r "description") = true
       ∧ (∀ d, nonempty (body_description opRequestBody) = Some d →
            js_get r "description" = VStr d).
Proof.
  unfold describeBody. eexists. split; [done|]. split; [|split].
  - intros k Hk. by rewrite own_js_set_ne.
  - rewrite js_get_set_eq by done.
    destruct (body_description opRequestBody) as [d|]; simpl; [|].
    + destruct (decide (d = "")) as [->|Hd]; simpl.
      * by destruct (truthy (js_get ro "description")) eqn:E.
      * apply negb_true_iff. by apply bool_decide_eq_false.
    + by destruct (truthy (js_get ro "description")) eqn:E.
  - intros d Hd. rewrite js_get_set_eq by done. by rewrite Hd.
Qed.

(** X6.  For an operation none of whose schemas makes the translator push:
    when it declares a request body whose [content] has an entry, the
    assembled contract has the property [requestBody] with a
    description that is not empty: for a JSON entry with a schema it is the
    translation of that schema in every other key; otherwise it is a
    [string] schema.  When the [content] is missing or empty and no parameter
    is installed under [requestBody], the contract has no such property. *)
Theorem generateInputSchema_body_property stack h operation schema ps body opRequestBody :
  generateInputSchema ToString stack h operation = Some (schema, ps, body) →
  quietHeap h → quietOperation operation →
  op_requestBody operation = Some opRequestBody →
  ∃ o properties,
    schema = VObj o ∧ js_get o "properties" = VObj properties
    ∧ (∀ content media bschema,
         body_content opRequestBody = Some content →
         assoc content "application/json" = Some media →
         media_schema media = Some bschema →
         ∃ ro r, mapOpenApiSchemaToJsonSchema ToString stack h bschema = Some (VObj ro)
                 ∧ own properties "requestBody" = Some (VObj r)
                 ∧ (∀ k, k ≠ "description" → own r k = own ro k)
                 ∧ truthy (js_get r "description") = true)
    ∧ (∀ content,
         body_content opRequestBody = Some content → content ≠ [] →
         assoc content "application/json" ≫= media_schema = None →
         ∃ d, d ≠ ""
              ∧ own properties "requestBody"
                = Some (VObj [("type", VStr "string"); ("description", VStr d)]))
    ∧ (bodyInstalled opRequestBody = false →
       (∀ q, q ∈ default [] (op_parameters operation) → ¬ installs "requestBody" q) →
       own properties "requestBody" = None).
Proof.
  unfold generateInputSchema. intros Hrun _ _ Hbody. rewrite Hbody in Hrun.
  destruct (foldl _ _ _) as [st0|] eqn:Eparams; simpl in Hrun; [|done].
  destruct (addRequestBody ToString stack h st0 (Some opRequestBody))
    as [[properties required]|] eqn:Ebody; simpl in Hrun; [|done].
  destruct st0 as [properties0 required0].
  injection Hrun as Hs0 Hp0 Hb0. subst schema.
  eexists _, properties. split; [done|]. split; [done|].
  unfold addRequestBody in Ebody. split; [|split].
  - intros content media bschema Hc Hm Hs. rewrite Hc in Ebody. simpl in Ebody.
    rewrite Hm in Ebody. simpl in Ebody. rewrite Hs in Ebody.
    destruct (mapOpenApiSchemaToJsonSchema ToString stack h bschema) as [r0|] eqn:Er;
      simpl in Ebody; [|done].
    destruct (translate_object _ _ _ _ Er) as [ro ->].
    destruct (describeBody_described opRequestBody ro) as (r & Hr & Hkeys & Hdesc & _).
    rewrite Hr in Ebody. injection Ebody as <- _.
    exists ro, r. split; [done|]. split; [by apply own_js_set_eq|]. by split.
  - intros content Hc Hne Hj. rewrite Hc in Ebody. simpl in Ebody. rewrite Hj in Ebody.
    destruct content as [|[contentType media] rest]; [done|].
    injection Ebody as <- _. eexists. split; [|by apply own_js_set_eq].
    destruct (body_description opRequestBody) as [d|]; simpl; [|done].
    destruct (decide (d = "")); simpl; done.
  - intros Hinst Hparams. unfold bodyInstalled in Hinst.
    apply addParameter_keeps with (pname := "requestBody") in Eparams; [|done].
    simpl in Eparams.
    destruct (body_content opRequestBody) as [[|entry rest]|]; simpl in Ebody; try done;
      injection Ebody as <- _; done.
Qed.

(** *** The tools and the operations they come from *)

Lemma nonempty_Some s d : nonempty s = Some d → d ≠ "".
Proof.
  unfold nonempty. destruct s as [s|]; [|done].
  destruct (decide (s = "")); [done|]. by intros [= <-].
Qed.

Lemma describedAs_nonempty operation m p : describedAs operation m p ≠ "".
Proof.
  unfold describedAs.
  destruct (nonempty (op_description operation)) as [d|] eqn:Ed; simpl.
  - by eapply nonempty_Some.
  - destruct (nonempty (op_summary operation)) as [d|] eqn:Es; simpl.
    + by eapply nonempty_Some.
    + discriminate.
Qed.

Lemma append_nonempty (s t : string) : s ≠ "" → s +:+ t ≠ "".
Proof. by destruct s. Qed.

(** What a visit appends, when it appends. *)
Lemma visit_step_made rounds stack h tools usedNames visit tools' usedNames' :
  visit_step ToString generateOperationId rounds stack h (Some (tools, usedNames)) visit
  = Some (tools', usedNames') →
  tools' = tools
  ∨ ∃ t, tools' = tools ++ [t]
         ∧ made_from ToString generateOperationId stack h visit t
         ∧ name t ≠ "" ∧ operationId t ≠ "" ∧ description t ≠ "".
Proof.
  destruct visit as [[p pathItem] m]. unfold visit_step, extractOperation, made_from.
  simpl. intros Hstep. destruct (assoc pathItem m) as [operation|]; simpl in *.
  2:{ left. by simplify_eq. }
  destruct (decide (default (generateOperationId m p)
                      (nonempty (op_operationId operation)) = "")) as [Hempty|Hbase].
  { left. by simplify_eq. }
  destruct (resolveName _ _ _ _ _) as [finalToolName|] eqn:Eres; simpl in Hstep; [|done].
  destruct (generateInputSchema _ _ _ _) as [[[schema ps] body]|] eqn:Egen;
    simpl in Hstep; [|done].
  injection Hstep as <- <-. right. eexists. split; [done|]. simpl.
  split; [|split; [|split]].
  - exists operation. repeat split; try done.
    + unfold generateInputSchema in Egen.
      destruct (foldl _ _ _) as [st0|]; simpl in Egen; [|done].
      destruct (addRequestBody _ _ _ st0 _) as [[? ?]|]; simpl in Egen; [|done].
      by injection Egen as _ <- _.
    + unfold generateInputSchema in Egen.
      destruct (foldl _ _ _) as [st0|]; simpl in Egen; [|done].
      destruct (addRequestBody _ _ _ st0 _) as [[? ?]|]; simpl in Egen; [|done].
      by injection Egen as _ _ <-.
  - apply resolveName_spec in Eres as [_ [[_ ->]|[_ (k & _ & -> & _)]]]; [done|].
    by apply append_nonempty.
  - done.
  - apply describedAs_nonempty.
Qed.

Lemma visits_pass_made rounds stack h (Q : McpToolDefinition → Prop)
    (all visits : list (string * PathItemObject * string))
    tools usedNames tools' usedNames' :
  foldl (visit_step ToString generateOperationId rounds stack h)
    (Some (tools, usedNames)) visits = Some (tools', usedNames') →
  (∀ visit, visit ∈ visits → visit ∈ all) →
  (∀ visit t, visit ∈ all →
     made_from ToString generateOperationId stack h visit t →
     name t ≠ "" ∧ operationId t ≠ "" ∧ description t ≠ "" → Q t) →
  Forall Q tools → Forall Q tools'.
Proof.
  intros Hrun Hsub HQ. revert tools usedNames Hrun.
  induction visits as [|v visits IH]; intros tools usedNames; cbn [foldl].
  { by intros [= <- <-]. }
  destruct (visit_step ToString generateOperationId rounds stack h
              (Some (tools, usedNames)) v) as [[tools1 used1]|] eqn:Estep;
    [|by rewrite visit_step_None].
  intros Hrest Hall. eapply IH; [|exact Hrest|].
  - intros visit Hin. apply Hsub. by apply list_elem_of_further.
  - destruct (visit_step_made _ _ _ _ _ _ _ _ Estep) as [->|(t & -> & Hmade & Hne)];
      [done|].
    apply Forall_app. split; [done|]. apply Forall_singleton.
    eapply HQ; [apply Hsub, list_elem_of_here | done | done].
Qed.

Lemma extractToolsFromApi_forall rounds stack h api (Q : McpToolDefinition → Prop) tools :
  extractToolsFromApi ToString generateOperationId rounds stack h api = Some tools →
  (∀ visit t, visit ∈ visits api →
     made_from ToString generateOperationId stack h visit t →
     name t ≠ "" ∧ operationId t ≠ "" ∧ description t ≠ "" → Q t) →
  Forall Q tools.
Proof.
  pose proof (extract_as_visits ToString generateOperationId rounds stack h api) as Hflat.
  unfold extractToolsFromApi. intros Hrun HQ.
  assert (Hpass : ∃ usedNames,
            foldl (visit_step ToString generateOperationId rounds stack h)
              (Some ([], ∅)) (visits api) = Some (tools, usedNames)).
  { rewrite <- Hflat. destruct (paths api) as [entries|]; simpl in *.
    - destruct (foldl _ _ entries) as [[tools' used]|]; simplify_eq/=. by eexists.
    - simplify_eq. by eexists. }
  destruct Hpass as [usedNames Hpass].
  eapply visits_pass_made; [exact Hpass | done | exact HQ | apply Forall_nil_2].
Qed.

(** X7.  In a document none of whose schemas makes the translator push,
    every extracted tool was made on one of the visits from the operation
    found there: it has that path and method, the operation's base
    name as [operationId], the operation's description, else its summary,
    else the text naming method and path, the input contract assembled from
    that operation, and the operation's own parameter list and request
    body. *)
Theorem extractToolsFromApi_provenance rounds stack h api tools t :
  extractToolsFromApi ToString generateOperationId rounds stack h api = Some tools →
  quietDocument h api →
  t ∈ tools →
  ∃ visit, visit ∈ visits api
           ∧ made_from ToString generateOperationId stack h visit t.
Proof.
  intros Hrun _ Hin.
  pose proof (extractToolsFromApi_forall rounds stack h api
                (λ t, ∃ visit, visit ∈ visits api
                               ∧ made_from ToString generateOperationId stack h visit t)
                tools Hrun) as Hall.
  rewrite Forall_forall in Hall. apply Hall; [|done].
  intros visit t' Hv Hmade _. by exists visit.
Qed.

(** X8.  No extracted tool has an empty name, an empty [operationId] or an
    empty description. *)
Theorem extractToolsFromApi_nothing_empty rounds stack h api tools t :
  extractToolsFromApi ToString generateOperationId rounds stack h api = Some tools →
  t ∈ tools →
  name t ≠ "" ∧ operationId t ≠ "" ∧ description t ≠ "".
Proof.
  intros Hrun Hin.
  pose proof (extractToolsFromApi_forall rounds stack h api
                (λ t, name t ≠ "" ∧ operationId t ≠ "" ∧ description t ≠ "")
                tools Hrun) as Hall.
  rewrite Forall_forall in Hall. apply Hall; [|done]. by intros visit t' _ _ ?.
Qed.

End CompilerExtras.

(** *** The base URL and its final slash *)

Lemma append_assoc (a b c : string) : (a +:+ b) +:+ c = a +:+ (b +:+ c).
Proof. induction a as [|x a IH]; [done|]. by rewrite !append_cons, IH. Qed.

Lemma stripTrailingSlash_slash url : stripTrailingSlash (url +:+ "/") = url.
Proof.
  induction url as [|c url IH]; [done|]. rewrite append_cons. simpl.
  rewrite IH. destruct url; simpl; by rewrite andb_false_r.
Qed.

Lemma stripTrailingSlash_other url :
  (∀ u, url ≠ u +:+ "/") → stripTrailingSlash url = url.
Proof.
  induction url as [|c url IH]; intros Hno; [done|]. simpl.
  destruct (bool_decide (c = "/"%char) && bool_decide (url = "")) eqn:E.
  - apply andb_prop in E as [->%bool_decide_eq_true ->%bool_decide_eq_true].
    by destruct (Hno "").
  - rewrite IH; [done|]. intros u ->. by apply (Hno (String c u)).
Qed.

Lemma ends_with_slash_dec url : (∃ u, url = u +:+ "/") ∨ (∀ u, url ≠ u +:+ "/").
Proof.
  induction url as [|c url IH].
  - right. by intros [|??].
  - destruct IH as [[u ->]|Hno].
    + left. by exists (String c u).
    + destruct (decide (c = "/"%char ∧ url = "")) as [[-> ->]|Hne].
      * left. by exists "".
      * right. intros [|c' u]; simpl.
        -- intros [= -> ->]. by apply Hne.
        -- rewrite append_cons. intros [= -> ->]. by apply (Hno u).
Qed.

Lemma stripTrailingSlash_ends url u :
  stripTrailingSlash url = u +:+ "/" → url = u +:+ "//".
Proof.
  destruct (ends_with_slash_dec url) as [[v ->]|Hno].
  - rewrite stripTrailingSlash_slash. intros ->. by rewrite append_assoc.
  - rewrite stripTrailingSlash_other by done. intros ->. by destruct (Hno u).
Qed.

(** X9.  The base URL ends with ['/'] only when the URL it was made from, the
    override or the first declared server's, ends with two of them. *)
Theorem determineBaseUrl_final_slash api cmdLineBaseUrl u :
  determineBaseUrl api cmdLineBaseUrl = Some (u +:+ "/") →
  nonempty cmdLineBaseUrl = Some (u +:+ "//")
  ∨ (nonempty cmdLineBaseUrl = None
     ∧ ∃ server others, servers api = Some (server :: others)
                        ∧ server_url server = u +:+ "//").
Proof.
  unfold determineBaseUrl.
  destruct (nonempty cmdLineBaseUrl) as [url|].
  - intros [= H%stripTrailingSlash_ends]. left. by rewrite H.
  - intros H. right. split; [done|].
    destruct (servers api) as [[|server [|second others]]|]; try done.
    + destruct (decide (server_url server = "")); [done|].
      injection H as H%stripTrailingSlash_ends. by exists server, [].
    + injection H as H%stripTrailingSlash_ends. by exists server, (second :: others).
Qed.

(** ** Further properties of the generated file *)

Lemma replaceAllChar_app c r (a b : string) :
  replaceAllChar c r (a +:+ b) = replaceAllChar c r a +:+ replaceAllChar c r b.
Proof.
  induction a as [|x a IH]; [done|]. rewrite append_cons. cbn [replaceAllChar].
  by rewrite IH, append_assoc.
Qed.

Lemma append_empty_l (s : string) : "" +:+ s = s.
Proof. done. Qed.

Lemma escapeDescription_cons a d :
  escapeDescription (String a d)
  = (if decide (a = backslash) then String backslash (String backslash "")
     else if decide (a = backtick) then String backslash (String backtick "")
     else String a "")
    +:+ escapeDescription d.
Proof.
  unfold escapeDescription. cbn [replaceAllChar]. rewrite replaceAllChar_app. f_equal.
  destruct (decide (a = backslash)) as [->|Hb]; [done|].
  cbn [replaceAllChar]. destruct (decide (a = backtick)); done.
Qed.

Lemma escapeDescription_no_brace d :
  starts_with "{" d = false → starts_with "{" (escapeDescription d) = false.
Proof.
  destruct d as [|a d]; [done|]. rewrite escapeDescription_cons.
  destruct (decide (a = backslash)) as [->|?]; [done|].
  destruct (decide (a = backtick)) as [->|?]; [done|]. done.
Qed.

(** X10.  The text that [generateListTools] puts between backticks for a
    description without [${] and without carriage return reads back as that
    description: every backslash and every backtick of it is escaped, and
    nothing else is changed. *)
Theorem escapeDescription_reads_back d :
  includes "${" d = false → includes (String carriageReturn "") d = false →
  cook (escapeDescription d) = Some d.
Proof.
  induction d as [|a d IH]; [done|]. intros Hinc Hcr.
  cbn [includes] in Hinc, Hcr.
  apply orb_false_elim in Hinc as [Hhere Hrest].
  apply orb_false_elim in Hcr as [Hcr Hcrs].
  cbn [starts_with] in Hcr. rewrite andb_true_r in Hcr.
  apply bool_decide_eq_false in Hcr.
  rewrite escapeDescription_cons.
  destruct (decide (a = backslash)) as [->|Hb].
  { rewrite !append_cons, append_empty_l. cbn [cook]. rewrite decide_True by done.
    rewrite decide_True by (by left). rewrite (IH Hrest Hcrs). done. }
  destruct (decide (a = backtick)) as [->|Ht].
  { rewrite !append_cons, append_empty_l. cbn [cook]. rewrite decide_True by done.
    rewrite decide_True by (by right). rewrite (IH Hrest Hcrs). done. }
  rewrite append_cons, append_empty_l. cbn [cook]. rewrite !decide_False by done.
  assert (bool_decide (a = "$"%char) && starts_with "{" (escapeDescription d) = false)
    as ->.
  { destruct (bool_decide (a = "$"%char)) eqn:Ea; [|done].
    apply bool_decide_eq_true in Ea as ->. simpl.
    apply escapeDescription_no_brace. simpl in Hhere. by destruct d. }
  by rewrite (IH Hrest Hcrs).
Qed.

(** *** Strings *)

Lemma starts_with_app (p s : string) : starts_with p (p +:+ s) = true.
Proof.
  induction p as [|c p IH]; [done|]. rewrite append_cons. simpl.
  by rewrite bool_decide_eq_true_2, IH.
Qed.


Lemma includes_app_r (n a b : string) : includes n b = true → includes n (a +:+ b) = true.
Proof.
  intros Hb. induction a as [|c a IH]; [done|]. rewrite append_cons.
  cbn [includes]. rewrite IH. apply orb_true_r.
Qed.

Lemma includes_app_l (n a b : string) : includes n (n +:+ b) = true.
Proof.
  destruct (n +:+ b) eqn:E; cbn [includes]; rewrite <- E, starts_with_app; done.
Qed.





Section ServerExtras.

Variable ToString : value → string.
Variable JSON_stringify : value → option string.
Variable JSON_stringify_pretty : value → option string.
Variable encodeURIComponent : string → option string.
Variable Object_prototype : string → value.
Variable jsonSchemaToZod : value → option string.
Variable js_eval : string → option ZodSchema.
Variable axios : AxiosRequestConfig → thrown + AxiosResponse.
Variable API_BASE_URL : string.

Local Abbreviation validateArguments := (validateArguments jsonSchemaToZod js_eval).
Local Abbreviation substitutePathParameter :=
  (substitutePathParameter ToString encodeURIComponent Object_prototype).
Local Abbreviation substitutedPath :=
  (substitutedPath ToString encodeURIComponent Object_prototype).
Local Abbreviation requestConfig := (requestConfig ToString Object_prototype API_BASE_URL).
Local Abbreviation dispatch :=
  (dispatch ToString JSON_stringify JSON_stringify_pretty encodeURIComponent
     Object_prototype axios API_BASE_URL).
Local Abbreviation handleToolCall :=
  (handleToolCall ToString JSON_stringify JSON_stringify_pretty encodeURIComponent
     Object_prototype jsonSchemaToZod js_eval axios API_BASE_URL).
Local Abbreviation callTool :=
  (callTool ToString JSON_stringify JSON_stringify_pretty encodeURIComponent
     Object_prototype jsonSchemaToZod js_eval axios API_BASE_URL).

Lemma find_name_None tools toolName :
  (∀ t, t ∈ tools → name t ≠ toolName) →
  find (λ t, bool_decide (name t = toolName)) tools = None.
Proof.
  induction tools as [|t tools IH]; intros Hall; [done|]. simpl.
  rewrite bool_decide_eq_false_2 by apply Hall, list_elem_of_here.
  apply IH. intros t' Hin. by apply Hall, list_elem_of_further.
Qed.

Lemma find_name_Some tools t :
  t ∈ tools → NoDup (name <$> tools) →
  find (λ t', bool_decide (name t' = name t)) tools = Some t.
Proof.
  induction tools as [|t0 tools IH]; intros Hin Hdup; [by apply elem_of_nil in Hin|].
  simpl in *. apply NoDup_cons in Hdup as [Hfresh Hdup].
  apply elem_of_cons in Hin as [->|Hin].
  - by rewrite bool_decide_eq_true_2.
  - rewrite bool_decide_eq_false_2; [by apply IH|].
    intros Heq. apply Hfresh. rewrite Heq. apply list_elem_of_fmap. by exists t.
Qed.

(** X11.  A call that names no tool of the list is answered with the
    unknown-tool text and makes no request; a call that names a tool of a
    list with pairwise different names is handled by that tool's handler. *)
Theorem callTool_finds_the_tool tools toolArgs :
  (∀ toolName, (∀ t, t ∈ tools → name t ≠ toolName) →
     callTool tools toolName toolArgs
     = ("Error: Unknown tool requested: " +:+ toolName, []))
  ∧ (∀ t, t ∈ tools → NoDup (name <$> tools) →
       callTool tools (name t) toolArgs = handleToolCall t toolArgs).
Proof.
  split.
  - intros toolName Hall. unfold callTool. by rewrite find_name_None.
  - intros t Hin Hdup. unfold callTool. by rewrite find_name_Some.
Qed.

Lemma find_name_elem tools toolName t :
  find (λ t, bool_decide (name t = toolName)) tools = Some t →
  t ∈ tools ∧ name t = toolName.
Proof.
  intros [Hin Hname]%find_some. split; [by apply list_elem_of_In|].
  by apply bool_decide_eq_true in Hname.
Qed.

(** X12.  A call makes no request or exactly one, and it makes one only for a
    tool of the list with the name called, after the arguments passed
    validation and every ['{'] of the path was replaced; the request is the
    one configured from the validated arguments and that path. *)
Theorem callTool_requests tools toolName toolArgs text requests :
  callTool tools toolName toolArgs = (text, requests) →
  requests = []
  ∨ ∃ tool validatedArgs urlPath,
      tool ∈ tools ∧ name tool = toolName
      ∧ validateArguments tool toolArgs = inr validatedArgs
      ∧ substitutedPath tool validatedArgs = inr urlPath
      ∧ includes "{" urlPath = false
      ∧ requests = [requestConfig tool validatedArgs urlPath].
Proof.
  unfold callTool, handleToolCall, dispatch.
  destruct (find _ tools) as [tool|] eqn:Efind; [|intros [= _ <-]; by left].
  apply find_name_elem in Efind as [Hin Hname].
  destruct (validateArguments tool toolArgs) as [msg|validatedArgs] eqn:Ev;
    [intros [= _ <-]; by left|].
  destruct (substitutedPath tool validatedArgs) as [e|urlPath] eqn:Ep;
    [intros [= _ <-]; by left|].
  destruct (includes "{" urlPath) eqn:Eb; [intros [= _ <-]; by left|].
  intros Hrun. right. exists tool, validatedArgs, urlPath.
  repeat split; try done.
  by destruct (axios _); injection Hrun as _ <-.
Qed.

Lemma substitute_failed validatedArgs e params :
  foldl (substitutePathParameter validatedArgs) (inl e) params = inl e.
Proof. induction params as [|p params IH]; [done|]. simpl. apply IH. Qed.

(** X17.  In a handler whose declarations are accepted: when none of the
    declared path parameters has a value in the validated arguments, the
    path is left as it is; if it holds a ['{'], the handler returns the
    unresolved-path message and makes no request. *)
Theorem dispatch_without_path_values tool validatedArgs :
  declarable tool = true →
  (∀ p, p ∈ parameters tool → located "path" p = true →
     present (js_read Object_prototype validatedArgs (nameOf p)) = false) →
  substitutedPath tool validatedArgs = inr (path tool)
  ∧ (includes "{" (path tool) = true →
     dispatch tool validatedArgs = (unresolvedPathMessage (path tool), [])).
Proof.
  intros _ Habsent.
  assert (Hpath : substitutedPath tool validatedArgs = inr (path tool)).
  { unfold substitutedPath. generalize (path tool) as urlPath.
    assert (Hall : ∀ p, p ∈ filter (λ p, located "path" p) (parameters tool) →
              present (js_read Object_prototype validatedArgs (nameOf p)) = false).
    { intros p [Hloc Hin]%list_elem_of_filter. apply Habsent; [done|].
      by destruct (located "path" p). }
    induction (filter (λ p, located "path" p) (parameters tool)) as [|p ps IH];
      intros urlPath; [done|].
    cbn [foldl]. unfold substitutePathParameter at 2.
    rewrite (Hall p (list_elem_of_here _ _)). apply IH.
    intros q Hq. by apply Hall, list_elem_of_further. }
  split; [done|]. intros Hbrace. unfold dispatch. by rewrite Hpath, Hbrace.
Qed.


Lemma own_js_set_inv (o : obj) k v k' v' :
  own (js_set o k v) k' = Some v' → (k' = k ∧ v' = v) ∨ own o k' = Some v'.
Proof.
  destruct (decide (k = k')) as [->|Hne].
  - unfold js_set. destruct (decide (k' = "__proto__")).
    + destruct (has_key k' o); [|by right]. rewrite own_upsert_eq.
      intros [= <-]. by left.
    + rewrite own_upsert_eq. intros [= <-]. by left.
  - rewrite own_js_set_ne by done. by right.
Qed.

(** X14.  Every entry of the query map of a request is the value that the
    validated arguments have for a declared query parameter of that name,
    and that value is neither [undefined] nor [null]. *)
Theorem requestConfig_query_entries tool validatedArgs urlPath k v :
  own (config_params (requestConfig tool validatedArgs urlPath)) k = Some v →
  ∃ p, p ∈ parameters tool ∧ param_in p = Some "query" ∧ nameOf p = k
       ∧ js_read Object_prototype validatedArgs k = v ∧ present v = true.
Proof.
  unfold requestConfig. cbn [config_params].
  assert (Hsub : ∀ p, p ∈ filter (λ p, located "query" p) (parameters tool) →
            p ∈ parameters tool ∧ param_in p = Some "query").
  { intros p [Hloc Hin]%list_elem_of_filter. split; [done|].
    unfold located in Hloc. by apply bool_decide_unpack in Hloc. }
  revert Hsub. generalize (filter (λ p, located "query" p) (parameters tool)) as qs.
  intros qs Hsub.
  enough (Hgen : ∀ acc : obj,
            own (foldl (addQueryParameter Object_prototype validatedArgs) acc qs) k = Some v →
            own acc k = Some v
            ∨ ∃ p, p ∈ qs ∧ nameOf p = k
                   ∧ js_read Object_prototype validatedArgs k = v ∧ present v = true).
  { intros Hown. destruct (Hgen [] Hown) as [Hnil|(p & Hin & Hrest)]; [by cbv in Hnil|].
    exists p. destruct (Hsub p Hin) as [? ?]. destruct Hrest as (? & ? & ?).
    by repeat split. }
  clear Hsub. induction qs as [|q qs IH]; intros acc; cbn [foldl]; [by left|].
  intros Hown. destruct (IH _ Hown) as [Hacc|(p & Hin & Hrest)].
  - unfold addQueryParameter in Hacc.
    destruct (present (js_read Object_prototype validatedArgs (nameOf q))) eqn:Ep;
      [|by left].
    apply own_js_set_inv in Hacc as [[-> ->]|?]; [|by left].
    right. exists q. split; [apply list_elem_of_here|]. by repeat split.
  - right. exists p. split; [by apply list_elem_of_further | done].
Qed.








Lemma requestContentType_nonempty body : requestContentType body ≠ "".
Proof.
  unfold requestContentType. destruct (body_content body) as [content|]; [|done].
  destruct (assoc content "application/json"); [done|].
  destruct content as [|[firstType media] rest]; [done|].
  by destruct (decide (firstType = "")).
Qed.

(** X16.  A request carries a body exactly when the tool declares a request
    body and the validated arguments have a [requestBody] that is not
    [undefined]; it then carries that value, and its [content-type] header
    is the declared JSON representation when there is one, else the first
    declared representation, never the empty text. *)
Theorem requestConfig_body tool validatedArgs urlPath :
  let config := requestConfig tool validatedArgs urlPath in
  (∀ body, requestBody tool = Some body →
     defined (js_get validatedArgs "requestBody") = true →
     config_data config = Some (js_get validatedArgs "requestBody")
     ∧ own (config_headers config) "content-type" = Some (VStr (requestContentType body))
     ∧ requestContentType body ≠ ""
     ∧ (∀ content media, body_content body = Some content →
          assoc content "application/json" = Some media →
          requestContentType body = "application/json"))
  ∧ (requestBody tool = None ∨ defined (js_get validatedArgs "requestBody") = false →
     config_data config = None).
Proof.
  unfold requestConfig. cbn [config_data config_headers]. split.
  - intros body -> ->. split; [done|]. split; [by rewrite own_js_set_eq|].
    split; [apply requestContentType_nonempty|].
    intros content media Hc Hm. unfold requestContentType. by rewrite Hc, Hm.
  - intros [->| Hundef]; [done|]. rewrite Hundef. by destruct (requestBody tool).
Qed.

Lemma includes_self (n : string) : includes n n = true.
Proof. pose proof (includes_app_l n n "") as H. by rewrite append_empty_r in H. Qed.

Lemma includes_concat sep (l : list string) e :
  e ∈ l → includes e (String.concat sep l) = true.
Proof.
  induction l as [|x l IH]; [by intros ?%elem_of_nil|].
  intros [->|Hin]%elem_of_cons.
  - destruct l as [|y l]; simpl.
    + apply includes_self.
    + apply (includes_app_l x x).
  - destruct l as [|y l]; [by apply elem_of_nil in Hin|].
    change (String.concat sep (x :: y :: l))
      with (x +:+ sep +:+ String.concat sep (y :: l)).
    do 2 apply includes_app_r. by apply IH.
Qed.

(** X18.  When the validator rejects the arguments with a list of issues, the
    call makes no request and its text holds, for every issue, the line made
    of the issue's dotted path, its code and its message. *)
Theorem handleToolCall_reports_issues tool toolArgs errors :
  zod_parse (getZodSchemaFromJsonSchema jsonSchemaToZod js_eval (inputSchema tool))
    (match toolArgs with
     | VObj _ | VArr _ | VRef _ => toolArgs
     | _ => VObj []
     end) = inl (ZodError errors) →
  ∃ text, handleToolCall tool toolArgs = (text, [])
          ∧ starts_with ("Invalid arguments for tool '" +:+ name tool +:+ "': ") text = true
          ∧ ∀ e, e ∈ errors → includes (formatIssue e) text = true.
Proof.
  intros Hparse. exists (validationErrorMessage (name tool) errors).
  split; [|split].
  - unfold handleToolCall, validateArguments. by rewrite Hparse.
  - unfold validationErrorMessage. rewrite <- !append_assoc. apply starts_with_app.
  - intros e He. unfold validationErrorMessage. do 3 apply includes_app_r.
    apply includes_concat, list_elem_of_fmap. by exists e.
Qed.

(** X19.  The three kinds of failed request are told apart by the start of
    the text [formatApiError] gives: a response was received, a request was
    sent without one, or neither. *)
Theorem formatApiError_kinds (error : AxiosError) :
  let text := formatApiError JSON_stringify error in
  (starts_with "API Error: Status " text = true ↔ is_Some (error_response error))
  ∧ (starts_with "API Network Error: " text = true
     ↔ error_response error = None ∧ error_request error = true)
  ∧ (starts_with "API Request Setup Error: " text = true
     ↔ error_response error = None ∧ error_request error = false).
Proof.
  intros text. subst text. unfold formatApiError.
  destruct (error_response error) as [response|]; [|destruct (error_request error)].
  - match goal with
    | |- context [starts_with "API Error: Status " ?t] =>
        assert (∃ rest, t = "API Error: Status " +:+ rest) as [rest ->]
    end.
    { destruct (data response); try destruct (truthy _);
        try destruct (JSON_stringify _); eexists; apply append_assoc. }
    split; [|split].
    + split; [by eexists | intros _; apply starts_with_app].
    + split; [by vm_compute | by intros [? _]].
    + split; [by vm_compute | by intros [? _]].
  - split; [|split].
    + split; [by vm_compute | by intros [? ?]].
    + split; [done | intros _; by vm_compute].
    + split; [by vm_compute | by intros [_ ?]].
  - split; [|split].
    + split; [by vm_compute | by intros [? ?]].
    + split; [by vm_compute | by intros [_ ?]].
    + split; [done | intros _; by vm_compute].
Qed.

End ServerExtras.

(** The name [user-id] gives no identifier: the handler emitted for
    [GET /users/{user-id}] declares [const user-id_val]. *)
Example hyphen_name_is_not_declarable :
  declarable hyphenTool = false ∧ declarable getUserTool = true.
Proof. split; reflexivity. Qed.

(** A header parameter named [Accept] puts a second header of that name, in
    lower case, beside the first. *)
Example accept_parameter_adds_second_header :
  config_headers (requestConfig noToString plainPrototype "https://api.example.com"
                    acceptTool [("Accept", VStr "text/csv")] "/export")
  = [("Accept", VStr "application/json"); ("accept", VStr "text/csv")].
Proof. reflexivity. Qed.

(** ** The programmatic entry point *)

Lemma sublist_List_filter {A} (f : A → bool) (l : list A) : sublist (List.filter f l) l.
Proof.
  induction l as [|x l IH]; simpl; [constructor|].
  destruct (f x); by constructor.
Qed.

Lemma elem_of_List_filter {A} (f : A → bool) (l : list A) x :
  x ∈ List.filter f l ↔ x ∈ l ∧ f x = true.
Proof. rewrite !list_elem_of_In. apply filter_In. Qed.

Lemma filterWith_spec fn tools kept :
  filterWith fn tools = inr kept →
  sublist kept tools ∧ ∀ tool, tool ∈ kept ↔ tool ∈ tools ∧ fn tool = inr true.
Proof.
  revert kept. induction tools as [|t tools IH]; intros kept; cbn [filterWith].
  { intros [= <-]. split; [constructor|]. intros tool. split.
    - by intros ?%elem_of_nil.
    - by intros [?%elem_of_nil _]. }
  destruct (fn t) as [e|keep] eqn:Efn; [done|].
  destruct (filterWith fn tools) as [e|kept'] eqn:Erest; [done|].
  destruct (IH kept' eq_refl) as [Hsub Hmem].
  intros [= <-]. destruct keep.
  - split; [by constructor|]. intros tool. rewrite !elem_of_cons, Hmem. split.
    + intros [->|[? ?]]; [by split; [left|] | by split; [right|]].
    + intros [[->|?] ?]; [by left | by right].
  - split; [by constructor|]. intros tool. rewrite elem_of_cons, Hmem. split.
    + intros [? ?]. by split; [right|].
    + intros [[->|?] Htrue]; [congruence | done].
Qed.

Lemma filterWith_throws fn tools error :
  filterWith fn tools = inl error → ∃ tool, tool ∈ tools ∧ fn tool = inl error.
Proof.
  induction tools as [|t tools IH]; cbn [filterWith]; [done|].
  destruct (fn t) as [e|keep] eqn:Efn.
  { intros [= <-]. exists t. split; [apply list_elem_of_here | done]. }
  destruct (filterWith fn tools) as [e|kept']; [|by destruct keep].
  intros [= <-]. destruct (IH eq_refl) as (tool & Hin & Hthrows).
  exists tool. split; [by apply list_elem_of_further | done].
Qed.

Lemma excludeTools_sublist options allTools : sublist (excludeTools options allTools) allTools.
Proof.
  unfold excludeTools.
  destruct (option_excludeOperationIds options) as [[|id ids]|];
    [done | apply sublist_List_filter | done].
Qed.

Lemma excludeTools_spec options allTools tool :
  tool ∈ excludeTools options allTools
  ↔ tool ∈ allTools
    ∧ ∀ ids, option_excludeOperationIds options = Some ids → operationId tool ∉ ids.
Proof.
  unfold excludeTools.
  destruct (option_excludeOperationIds options) as [[|id ids]|];
    rewrite ?elem_of_List_filter, ?negb_true_iff, ?bool_decide_eq_false,
      ?elem_of_list_to_set.
  - split; [|by intros [? _]]. intros Hin. split; [done|].
    intros ? [= <-]. apply not_elem_of_nil.
  - split.
    + intros [Hin Hex]. split; [done|]. by intros ? [= <-].
    + intros [Hin Hex]. split; [done|]. by apply Hex.
  - split; [|by intros [? _]]. intros Hin. by split.
Qed.

Lemma filterTools_spec options allTools filteredTools :
  filterTools options allTools = inr filteredTools →
  sublist filteredTools allTools
  ∧ ∀ tool, tool ∈ filteredTools ↔ tool ∈ allTools ∧ passes options tool.
Proof.
  unfold filterTools, passes.
  destruct (option_filterFn options) as [filterFn|].
  - intros [Hsub Hmem]%filterWith_spec. split.
    + etrans; [done|]. apply excludeTools_sublist.
    + intros tool. rewrite Hmem, excludeTools_spec. split.
      * intros [[Hin Hex] Hfn]. split; [done|]. split; [done|]. by intros ? [= <-].
      * intros [Hin [Hex Hfn]]. split; [by split|]. by apply Hfn.
  - intros [= <-]. split; [apply excludeTools_sublist|].
    intros tool. rewrite excludeTools_spec. split.
    + intros [Hin Hex]. split; [done|]. by split.
    + intros [Hin [Hex _]]. by split.
Qed.

Section ApiExtras.

Variable SwaggerParser_parse : SpecInput → thrown + Document.
Variable SwaggerParser_dereference : SpecInput → thrown + Document.
Variable extractTools : Document → thrown + list McpToolDefinition.
Variable baseUrlOf : Document → option string → thrown + option string.

Local Abbreviation loadDocument :=
  (loadDocument SwaggerParser_parse SwaggerParser_dereference).
Local Abbreviation getToolsFromOpenApi :=
  (getToolsFromOpenApi SwaggerParser_parse SwaggerParser_dereference extractTools baseUrlOf).

(** X22.  What [getToolsFromOpenApi] resolves to are the extracted tools
    that pass both filters, no other, in the order of extraction, and so with
    pairwise different names when the extracted ones have them; each comes
    with the base URL of the document, or the empty text without one. *)
Theorem getToolsFromOpenApi_result specPathOrUrl options result :
  getToolsFromOpenApi specPathOrUrl options = inr result →
  ∃ api allTools baseUrl,
    loadDocument specPathOrUrl options = inr api
    ∧ extractTools api = inr allTools
    ∧ baseUrlOf api (option_baseUrl options) = inr baseUrl
    ∧ sublist (fst <$> result) allTools
    ∧ (∀ tool, tool ∈ fst <$> result ↔ tool ∈ allTools ∧ passes options tool)
    ∧ (NoDup (name <$> allTools) → NoDup (name ∘ fst <$> result))
    ∧ (∀ entry, entry ∈ result → entry.2 = default "" (nonempty baseUrl)).
Proof.
  unfold getToolsFromOpenApi.
  destruct (loadDocument specPathOrUrl options) as [e|api] eqn:Eload; [done|].
  destruct (extractTools api) as [e|allTools] eqn:Etools; [done|].
  destruct (baseUrlOf api (option_baseUrl options)) as [e|baseUrl] eqn:Ebase; [done|].
  destruct (filterTools options allTools) as [e|filteredTools] eqn:Efilter; [done|].
  intros [= <-]. exists api, allTools, baseUrl.
  destruct (filterTools_spec _ _ _ Efilter) as [Hsub Hmem].
  assert (Hfst : fst <$> ((λ tool, (tool, default "" (nonempty baseUrl)))
                            <$> filteredTools) = filteredTools).
  { rewrite <- list_fmap_compose. apply list_fmap_id. }
  split; [done|]. split; [done|]. split; [done|]. rewrite Hfst.
  split; [done|]. split; [done|]. split.
  - intros Hdup. rewrite list_fmap_compose, Hfst.
    eapply sublist_NoDup; [done|]. by apply fmap_sublist.
  - intros entry (tool & -> & _)%list_elem_of_fmap. done.
Qed.

(** X23.  What [getToolsFromOpenApi] rejects with is never an error object
    without the prefix: it is an [Error] whose message starts with
    [Failed to extract tools from OpenAPI: ], or a thrown value that is no
    error object, handed on as it was thrown by the parser, by the
    extractor, by [determineBaseUrl] or by the caller's filter on one of the
    extracted tools. *)
Theorem getToolsFromOpenApi_rejection specPathOrUrl options error :
  getToolsFromOpenApi specPathOrUrl options = inl error →
  (∃ message, error = Error ("Failed to extract tools from OpenAPI: " +:+ message))
  ∨ (∃ v, error = Thrown v
          ∧ (loadDocument specPathOrUrl options = inl (Thrown v)
             ∨ ∃ api,
                 loadDocument specPathOrUrl options = inr api
                 ∧ (extractTools api = inl (Thrown v)
                    ∨ ∃ allTools,
                        extractTools api = inr allTools
                        ∧ (baseUrlOf api (option_baseUrl options) = inl (Thrown v)
                           ∨ ∃ filterFn tool,
                               option_filterFn options = Some filterFn
                               ∧ tool ∈ allTools
                               ∧ filterFn tool = inl (Thrown v))))).
Proof.
  unfold getToolsFromOpenApi.
  destruct (loadDocument specPathOrUrl options) as [e|api].
  { intros [= <-]. destruct e as [e|message|v]; [left; by eexists..|].
    right. exists v. split; [done | by left]. }
  destruct (extractTools api) as [e|allTools] eqn:Etools.
  { intros [= <-]. destruct e as [e|message|v]; [left; by eexists..|].
    right. exists v. split; [done|]. right. exists api. split; [done | by left]. }
  destruct (baseUrlOf api (option_baseUrl options)) as [e|baseUrl] eqn:Ebase.
  { intros [= <-]. destruct e as [e|message|v]; [left; by eexists..|].
    right. exists v. split; [done|]. right. exists api. split; [done|].
    right. exists allTools. split; [done | by left]. }
  destruct (filterTools options allTools) as [e|filteredTools] eqn:Efilter; [|done].
  intros [= <-]. destruct e as [e|message|v]; [left; by eexists..|].
  right. exists v. split; [done|]. right. exists api. split; [done|].
  right. exists allTools. split; [done|]. right.
  unfold filterTools in Efilter.
  destruct (option_filterFn options) as [filterFn|]; [|done].
  apply filterWith_throws in Efilter as (tool & Hin & Hthrows).
  exists filterFn, tool. split; [done|]. split; [|done].
  eapply elem_of_sublist; [done | apply excludeTools_sublist].
Qed.

End ApiExtras.

(** ** The session registry of the generated web server *)

Lemma own_serverEvents_other sid after (transports : obj) :
  (∀ e, e ∈ after → sessionOf e ≠ sid) →
  own (foldl serverEvent transports after) sid = own transports sid.
Proof.
  revert transports. induction after as [|e after IH]; intros transports Hother; [done|].
  cbn [foldl]. rewrite IH by (intros e' He'; by apply Hother, list_elem_of_further).
  specialize (Hother e (list_elem_of_here _ _)).
  destruct e as [s t|s]; simpl in *.
  - by apply own_js_set_ne.
  - by apply own_js_delete_ne.
Qed.

Section WebServerExtras.

Variable Object_prototype : string → value.
Variable handlePostMessage : nat → PostOutcome.

Local Abbreviation postMessage := (postMessage Object_prototype handlePostMessage).

(** X20.  A message for a session that was opened and, since it was last
    opened, neither closed nor opened again, goes to the transport that
    connection registered: the reply is that transport's, or the status 500
    when it threw before any header was sent. *)
Theorem postMessage_live_session events before after sid t :
  events = before ++ SseOpened sid t :: after →
  (∀ e, e ∈ after → sessionOf e ≠ sid) →
  sid ≠ "" → sid ≠ "__proto__" →
  postMessage (serverEvents events) (Some sid)
  = match handlePostMessage t with
    | PostThrew false => Status 500 "Internal server error processing message"
    | _ => FromTransport t
    end.
Proof.
  intros -> Hafter Hne Hproto. unfold postMessage, serverEvents. cbn [nonempty].
  rewrite decide_False by done. unfold js_read.
  rewrite foldl_app. cbn [foldl]. rewrite own_serverEvents_other by done.
  cbn [serverEvent]. rewrite own_js_set_eq by done. cbn [truthy].
  by destruct (handlePostMessage t) as [|[]].
Qed.

(** X21.  A message for a session that was never opened, or that was closed
    and not opened since, is answered with the status 404 and reaches no
    transport, for every session identifier that names no member of
    [Object.prototype] with a truthy value. *)
Theorem postMessage_closed_session events sid :
  (∀ e, e ∈ events → sessionOf e ≠ sid)
  ∨ (∃ before after, events = before ++ SseClosed sid :: after
                     ∧ ∀ e, e ∈ after → sessionOf e ≠ sid) →
  sid ≠ "" → truthy (Object_prototype sid) = false →
  postMessage (serverEvents events) (Some sid)
  = Status 404 "No active session found with the provided sessionId".
Proof.
  intros Hclosed Hne Hproto.
  assert (Hown : own (serverEvents events) sid = None).
  { unfold serverEvents. destruct Hclosed as [Hnever|(before & after & -> & Hafter)].
    - by rewrite own_serverEvents_other.
    - rewrite foldl_app. cbn [foldl]. rewrite own_serverEvents_other by done.
      apply own_js_delete_eq. }
  unfold postMessage. cbn [nonempty]. rewrite decide_False by done.
  unfold js_read. by rewrite Hown, Hproto.
Qed.

End WebServerExtras.

(** ** Termination on finite schemas, and the extracted tools as a tool list *)

Section CompositionExtras.

Variable ToString : value → string.
Variable generateOperationId : string → string → string.
Variable JSON_stringify : value → option string.
Variable JSON_stringify_pretty : value → option string.
Variable encodeURIComponent : string → option string.
Variable Object_prototype : string → value.
Variable jsonSchemaToZod : value → option string.
Variable js_eval : string → option ZodSchema.
Variable axios : AxiosRequestConfig → thrown + AxiosResponse.
Variable API_BASE_URL : string.

(** X24.  On a schema written without references, so a finite tree, the
    translator returns, on every stack that holds as many nested calls as
    the schema is deep. *)
Theorem translate_returns_on_trees h schema stack :
  ref_free (VObj schema) = true → height (VObj schema) ≤ stack →
  ∃ r, mapOpenApiSchemaToJsonSchema ToString stack h schema = Some r
       ∧ returns ToString h schema r.
Proof.
  intros Htree Hstack.
  destruct (translate_total ToString h schema stack Htree Hstack) as [r Hr].
  exists r. split; [done|]. by eapply returns_of_run.
Qed.

Lemma extractToolsFromApi_NoDup rounds stack h api tools :
  extractToolsFromApi ToString generateOperationId rounds stack h api = Some tools →
  NoDup (name <$> tools).
Proof.
  intros Hrun.
  pose proof (extract_as_visits ToString generateOperationId rounds stack h api) as Hflat.
  unfold extractToolsFromApi in *.
  assert (Hpass : ∃ usedNames,
            foldl (visit_step ToString generateOperationId rounds stack h)
              (Some ([], ∅)) (visits api) = Some (tools, usedNames)).
  { rewrite <- Hflat. destruct (paths api) as [entries|]; simpl in *.
    - destruct (foldl _ _ entries) as [[tools' used]|]; simplify_eq/=. by eexists.
    - simplify_eq. by eexists. }
  destruct Hpass as [usedNames Hpass].
  destruct (visits_pass_spec ToString generateOperationId rounds stack h
              _ _ _ _ _ Hpass) as [[Hdup _] _]; [done | apply named_in_order_nil | done].
Qed.

(** X25.  Over the list of tools of one extraction, a call by the name of
    any of them is handled by that very tool's handler: the names the
    extractor gives never make one tool hide another. *)
Theorem extracted_tool_is_called rounds stack h api tools t toolArgs :
  extractToolsFromApi ToString generateOperationId rounds stack h api = Some tools →
  t ∈ tools →
  callTool ToString JSON_stringify JSON_stringify_pretty encodeURIComponent
    Object_prototype jsonSchemaToZod js_eval axios API_BASE_URL tools (name t) toolArgs
  = handleToolCall ToString JSON_stringify JSON_stringify_pretty encodeURIComponent
      Object_prototype jsonSchemaToZod js_eval axios API_BASE_URL t toolArgs.
Proof.
  intros Hrun Hin. unfold callTool.
  rewrite find_name_Some; [done | done |]. by eapply extractToolsFromApi_NoDup.
Qed.

End CompositionExtras.

Lemma translate_returns_on_trees_witness :
  ∃ r, mapOpenApiSchemaToJsonSchema noToString 3 emptyHeap sPlainObject = Some r
       ∧ returns noToString emptyHeap sPlainObject r.
Proof.
  exact (translate_returns_on_trees noToString emptyHeap sPlainObject 3 eq_refl
           ltac:(vm_compute; lia)).
Defined.

Lemma extracted_tool_is_called_witness :
  Forall (λ t,
    callTool noToString noStringify noStringify encodeIdentity plainPrototype
      noConversion noEval okAxios "https://api.example.com" usersTools (name t) (VObj [])
    = handleToolCall noToString noStringify noStringify encodeIdentity plainPrototype
        noConversion noEval okAxios "https://api.example.com" t (VObj []))
    usersTools.
Proof.
  apply Forall_forall. intros t Hin.
  exact (extracted_tool_is_called noToString methodAndPath noStringify noStringify
           encodeIdentity plainPrototype noConversion noEval okAxios
           "https://api.example.com" 30 5 emptyHeap usersApi usersTools t (VObj [])
           ltac:(vm_compute; reflexivity) Hin).
Defined.

(** ** The further properties at sample inputs *)

Lemma generateInputSchema_required_list_witness :
  ∃ schema ps body,
    generateInputSchema noToString 5 emptyHeap listOperation = Some (schema, ps, body)
    ∧ requiredNames schema = ["limit"; "requestBody"].
Proof.
  eexists _, _, _. split; [vm_compute; reflexivity|].
  match goal with
  | |- requiredNames ?s = _ =>
      destruct (generateInputSchema_required_list noToString 5 emptyHeap listOperation
                  s _ _ eq_refl) as (o & _ & _ & Hrequired & _)
  end.
  exact Hrequired.
Defined.

Lemma generateInputSchema_parameter_property_witness :
  ∃ schema ps body properties r,
    generateInputSchema noToString 5 emptyHeap listOperation = Some (schema, ps, body)
    ∧ js_get (default [] (as_object emptyHeap schema)) "properties" = VObj properties
    ∧ own properties "limit" = Some (VObj r)
    ∧ own r "type" = Some (VStr "number")
    ∧ own r "description" = Some (VStr "Page size").
Proof.
  assert (Hquiet : quietOperation listOperation).
  { split.
    - intros param schema Hin Hs. apply list_elem_of_singleton in Hin as ->.
      injection Hs as <-. reflexivity.
    - intros body content media schema Hb Hc Hm. injection Hb as <-.
      injection Hc as <-. discriminate Hm. }
  eexists _, _, _.
  match goal with
  | |- ∃ properties r, _ = Some (?s, ?ps, ?b) ∧ _ =>
      destruct (generateInputSchema_parameter_property noToString 5 emptyHeap listOperation
                  s ps b [] describedParameter [] "limit"
                  [("type", VStr "integer"); ("description", VStr "inner")]
                  ltac:(vm_compute; reflexivity) ltac:(intros a; reflexivity) Hquiet
                  eq_refl eq_refl eq_refl
                  ltac:(discriminate) ltac:(discriminate)
                  ltac:(intros q Hq; by apply elem_of_nil in Hq))
        as (o & properties & r & ro & Hschema & Hproperties & Htranslated & Hown
            & Hsame & Hdescribed & _)
  end.
  exists properties, r. split; [vm_compute; reflexivity|].
  injection Hschema as <-. split; [exact Hproperties|]. split; [exact Hown|].
  split.
  - rewrite (Hsame "type") by discriminate.
    vm_compute in Htranslated. injection Htranslated as <-. reflexivity.
  - by apply Hdescribed.
Defined.

Lemma generateInputSchema_body_property_witness :
  ∃ schema ps body properties d,
    generateInputSchema noToString 5 emptyHeap listOperation = Some (schema, ps, body)
    ∧ js_get (default [] (as_object emptyHeap schema)) "properties" = VObj properties
    ∧ d ≠ ""
    ∧ own properties "requestBody"
      = Some (VObj [("type", VStr "string"); ("description", VStr d)]).
Proof.
  assert (Hquiet : quietOperation listOperation).
  { split.
    - intros param schema Hin Hs. apply list_elem_of_singleton in Hin as ->.
      injection Hs as <-. reflexivity.
    - intros body content media schema Hb Hc Hm. injection Hb as <-.
      injection Hc as <-. discriminate Hm. }
  eexists _, _, _.
  match goal with
  | |- ∃ properties d, _ = Some (?s, ?ps, ?b) ∧ _ =>
      destruct (generateInputSchema_body_property noToString 5 emptyHeap listOperation
                  s ps b textBody ltac:(vm_compute; reflexivity)
                  ltac:(intros a; reflexivity) Hquiet eq_refl)
        as (o & properties & Hschema & Hproperties & _ & Htext & _)
  end.
  destruct (Htext _ eq_refl ltac:(discriminate) eq_refl) as (d & Hd & Hown).
  exists properties, d. split; [vm_compute; reflexivity|].
  injection Hschema as <-. by repeat split.
Defined.

Lemma extractToolsFromApi_provenance_witness :
  Forall (λ t, ∃ visit, visit ∈ visits usersApi
                        ∧ made_from noToString methodAndPath 5 emptyHeap visit t)
    usersTools.
Proof.
  assert (Hquiet : quietDocument emptyHeap usersApi).
  { split; [intros a; reflexivity|].
    intros p pathItem m operation Hin Hop.
    assert (Hop' : operation = getUser).
    { set (l := visits usersApi) in Hin. vm_compute in l. subst l.
      rewrite !elem_of_cons, elem_of_nil in Hin.
      destruct_or!; simplify_eq; vm_compute in Hop; by simplify_eq. }
    subst operation. split.
    - intros param schema Hparam Hs. apply list_elem_of_singleton in Hparam as ->.
      injection Hs as <-. reflexivity.
    - intros body content media schema Hb. discriminate Hb. }
  apply Forall_forall. intros t Hin.
  exact (extractToolsFromApi_provenance noToString methodAndPath 30 5 emptyHeap usersApi
           usersTools t ltac:(vm_compute; reflexivity) Hquiet Hin).
Defined.

Lemma extractToolsFromApi_nothing_empty_witness :
  Forall (λ t, name t ≠ "" ∧ operationId t ≠ "" ∧ description t ≠ "") usersTools.
Proof.
  apply Forall_forall. intros t Hin.
  exact (extractToolsFromApi_nothing_empty noToString methodAndPath 30 5 emptyHeap
           usersApi usersTools t ltac:(vm_compute; reflexivity) Hin).
Defined.

Lemma determineBaseUrl_final_slash_witness :
  determineBaseUrl slashApi None = Some "https://api.example.com/"
  ∧ ∃ server others, servers slashApi = Some (server :: others)
                     ∧ server_url server = "https://api.example.com//".
Proof.
  split; [reflexivity|].
  destruct (determineBaseUrl_final_slash slashApi None "https://api.example.com" eq_refl)
    as [Hoverride|[_ Hserver]]; [discriminate Hoverride | exact Hserver].
Defined.

Lemma escapeDescription_reads_back_witness :
  cook (escapeDescription "Run `ls` in C:\tmp") = Some "Run `ls` in C:\tmp".
Proof. exact (escapeDescription_reads_back "Run `ls` in C:\tmp" eq_refl eq_refl). Defined.

Lemma callTool_finds_the_tool_witness :
  callTool noToString noStringify noStringify encodeIdentity plainPrototype
    noConversion noEval okAxios "https://api.example.com" [getUserTool] "missing" (VObj [])
  = ("Error: Unknown tool requested: missing", [])
  ∧ callTool noToString noStringify noStringify encodeIdentity plainPrototype
      noConversion noEval okAxios "https://api.example.com" [getUserTool] "user" (VObj [])
    = handleToolCall noToString noStringify noStringify encodeIdentity plainPrototype
        noConversion noEval okAxios "https://api.example.com" getUserTool (VObj []).
Proof.
  destruct (callTool_finds_the_tool noToString noStringify noStringify encodeIdentity
              plainPrototype noConversion noEval okAxios "https://api.example.com"
              [getUserTool] (VObj [])) as [Hunknown Hknown].
  split.
  - apply Hunknown. intros t Hin. apply list_elem_of_singleton in Hin as ->. discriminate.
  - apply (Hknown getUserTool); [apply list_elem_of_here | apply NoDup_singleton].
Defined.

Lemma callTool_requests_witness :
  ∃ tool validatedArgs urlPath,
    tool ∈ [getUserTool] ∧ name tool = "user"
    ∧ validateArguments noConversion noEval tool (VObj [("id", VStr "42")])
      = inr validatedArgs
    ∧ substitutedPath noToString encodeIdentity plainPrototype tool validatedArgs
      = inr urlPath
    ∧ includes "{" urlPath = false
    ∧ [{| config_method := "GET"; config_url := "https://api.example.com/users/42";
          config_params := []; config_headers := [("Accept", VStr "application/json")];
          config_data := None |}]
      = [requestConfig noToString plainPrototype "https://api.example.com" tool
           validatedArgs urlPath].
Proof.
  destruct (callTool_requests noToString noStringify noStringify encodeIdentity
              plainPrototype noConversion noEval okAxios "https://api.example.com"
              [getUserTool] "user" (VObj [("id", VStr "42")])
              ("API Response (Status: 200):" +:+ String "010"%char
                 "(Status: 200 - No body content)")
              [{| config_method := "GET"; config_url := "https://api.example.com/users/42";
                  config_params := [];
                  config_headers := [("Accept", VStr "application/json")];
                  config_data := None |}]
              ltac:(vm_compute; reflexivity)) as [Hnone|Hone];
    [discriminate Hnone | exact Hone].
Defined.

Lemma dispatch_without_path_values_witness :
  dispatch noToString noStringify noStringify encodeIdentity plainPrototype okAxios
    "https://api.example.com" getUserTool []
  = (unresolvedPathMessage "/users/{id}", []).
Proof.
  refine (proj2 (dispatch_without_path_values noToString noStringify noStringify
                   encodeIdentity plainPrototype okAxios "https://api.example.com"
                   getUserTool [] eq_refl _) eq_refl).
  intros p Hin _. apply list_elem_of_singleton in Hin as ->. reflexivity.
Defined.


Lemma requestConfig_query_entries_witness :
  ∃ p, p ∈ parameters listUsersTool ∧ param_in p = Some "query" ∧ nameOf p = "limit"
       ∧ js_read plainPrototype [("limit", VNum 10)] "limit" = VNum 10
       ∧ present (VNum 10) = true.
Proof.
  exact (requestConfig_query_entries noToString plainPrototype "https://api.example.com"
           listUsersTool [("limit", VNum 10)] "/users" "limit" (VNum 10) eq_refl).
Defined.


Lemma requestConfig_body_witness :
  config_data (requestConfig noToString plainPrototype "https://api.example.com"
                 listUsersTool [("requestBody", VStr "hello")] "/users")
  = Some (VStr "hello")
  ∧ own (config_headers (requestConfig noToString plainPrototype
                           "https://api.example.com" listUsersTool
                           [("requestBody", VStr "hello")] "/users")) "content-type"
    = Some (VStr "text/plain").
Proof.
  destruct (proj1 (requestConfig_body noToString plainPrototype "https://api.example.com"
                     listUsersTool [("requestBody", VStr "hello")] "/users")
              textBody eq_refl eq_refl) as (Hdata & Hheader & _).
  split; [exact Hdata | exact Hheader].
Defined.

Lemma handleToolCall_reports_issues_witness :
  ∃ text,
    handleToolCall noToString noStringify noStringify encodeIdentity plainPrototype
      noConversion noEval okAxios "https://api.example.com" getUserTool (VArr [])
    = (text, [])
    ∧ includes " (invalid_type): Expected object, received array" text = true.
Proof.
  destruct (handleToolCall_reports_issues noToString noStringify noStringify
              encodeIdentity plainPrototype noConversion noEval okAxios
              "https://api.example.com" getUserTool (VArr [])
              [{| issue_path := []; issue_code := "invalid_type";
                  issue_message := "Expected object, received array" |}] eq_refl)
    as (text & Hrun & _ & Hissues).
  exists text. split; [exact Hrun|].
  exact (Hissues _ (list_elem_of_here _ _)).
Defined.

Lemma getToolsFromOpenApi_result_witness :
  getToolsFromOpenApi failingParser failingParser sampleExtractor sampleBaseUrl
    (SpecObject true usersApi) excludeUser
  = inr [(listUsersTool, "https://api.example.com")]
  ∧ [listUsersTool] `sublist_of` [getUserTool; listUsersTool].
Proof.
  split; [reflexivity|].
  destruct (getToolsFromOpenApi_result failingParser failingParser sampleExtractor
              sampleBaseUrl (SpecObject true usersApi) excludeUser
              [(listUsersTool, "https://api.example.com")] eq_refl)
    as (api & allTools & baseUrl & _ & Htools & _ & Hsub & _).
  injection Htools as <-. exact Hsub.
Defined.

Lemma getToolsFromOpenApi_rejection_witness :
  getToolsFromOpenApi failingParser failingParser sampleExtractor sampleBaseUrl
    (SpecObject true usersApi) throwingOptions
  = inl (Thrown (VStr "no"))
  ∧ ∃ v, Thrown (VStr "no") = Thrown v.
Proof.
  split; [reflexivity|].
  destruct (getToolsFromOpenApi_rejection failingParser failingParser sampleExtractor
              sampleBaseUrl (SpecObject true usersApi) throwingOptions
              (Thrown (VStr "no")) eq_refl)
    as [(message & Hwrapped)|(v & Hthrown & _)];
    [discriminate Hwrapped | exists v; exact Hthrown].
Defined.

Lemma postMessage_live_session_witness :
  postMessage plainPrototype answering (serverEvents sessionLog) (Some "b")
  = FromTransport 2.
Proof.
  refine (postMessage_live_session plainPrototype answering sessionLog
            [SseOpened "a" 1] [SseClosed "a"] "b" 2 eq_refl _
            ltac:(discriminate) ltac:(discriminate)).
  intros e Hin. apply list_elem_of_singleton in Hin as ->. discriminate.
Defined.

Lemma postMessage_closed_session_witness :
  postMessage plainPrototype answering (serverEvents sessionLog) (Some "a")
  = Status 404 "No active session found with the provided sessionId".
Proof.
  refine (postMessage_closed_session plainPrototype answering sessionLog "a"
            (or_intror (ex_intro _ [SseOpened "a" 1; SseOpened "b" 2]
                          (ex_intro _ [] (conj eq_refl _))))
            ltac:(discriminate) eq_refl).
  intros e Hin. by apply elem_of_nil in Hin.
Defined.
